(** * BlockchainTracer (src/src/tracer.js): a shallow embedding

    The class [BlockchainTracer] is embedded method by method: the
    [constructor]; [traceFromAddress] with [_traceRecursive] and
    [_formatGraph] (the Graph Builder); [tracePath] with [_findPaths] (the
    Path Finder); [_getAddressFlow] (the Flow Aggregator);
    [traceTransaction] with [_validateTransactionHash] and
    [_fetchTransactionDetails]; and [exportGraph] with [_exportToDot] and
    [_exportToCsv] (the Graph Formatter).  Of the command line
    (src/src/cli.js) the function [parseOptions] is embedded; the commands
    around it write to the console and to files and end the process, and
    are left out.  JavaScript values are given the types the methods use
    them at:

    - an address, a hash and a transaction value are strings;
    - an optional field ([tx.from], [tx.to], [options.depth], ...) is an
      [option]; [None] stands for an absent ([undefined]) field;
    - integers (depths, counts, timestamps) are [Z], taken where a
      JavaScript number is exact and is written in plain decimal;
    - the number accumulators ([totalIn], [totalValue], ...) are IEEE
      binary64 numbers, Rocq's primitive [float];
    - [graph.nodes], a [Map] read back in insertion order, is an association
      list; the [Set] of the path search is a [gset]; the options object of
      the command line is a [gmap] of its own properties;
    - an exception is the [Err] case of [result].

    The ledger [_fetchAddressTransactions] is an external collaborator: for
    the tracer it is a parameter, a function of an explicit world state
    which may fail.  Its body in the repository, which draws transactions
    at random, is embedded as [Mock._fetchAddressTransactions] over the
    hosts [Math.random] and [Date.now].  The builtins [toLowerCase],
    [parseFloat] and the renderings of a float are parameters too;
    [JSON.stringify] and [JSON.parse] are modelled on trees.  The two
    recursive methods take fuel; each is proved to return with the fuel its
    caller gives it.  [_traceRecursive] is given a second time with its
    history, [_traceRecursive_events]: the same method, which lists each
    [set] and [push] as it makes it, and which is proved to be
    [_traceRecursive] when the list is dropped.  Console output is not
    modelled. *)

From Stdlib Require Import ZArith String Ascii List Bool Lia.
From Stdlib Require Import DecimalString DecimalZ DecimalPos DecimalFacts.
From Stdlib Require Import Floats.PrimFloat.
From stdpp Require Import base relations option list gmap strings.
Import ListNotations.

Local Open Scope string_scope.
Local Open Scope Z_scope.
Local Open Scope list_scope.

Set Warnings "-register-all".

(** ** JavaScript values *)

Inductive result (A : Type) : Type :=
| Ok (a : A)
| Err (message : string).
Arguments Ok {A} a.
Arguments Err {A} message.

(** [None] ends a computation: a recursion out of fuel, a text that does
    not parse. *)
Notation "'let?' p := a 'in' b" :=
  (match a with Some p => b | None => None end)
  (at level 10, p pattern, a at level 200, b at level 200).

(** [s] in a boolean context: the empty string is falsy. *)
Definition truthy_string (s : string) : bool :=
  negb (String.eqb s "").

(** [x || d] for an optional string. *)
Definition or_string (x : option string) (d : string) : string :=
  match x with
  | Some s => if truthy_string s then s else d
  | None => d
  end.

(** [x || d] for an optional integer: [0] is falsy. *)
Definition or_Z (x : option Z) (d : Z) : Z :=
  match x with
  | Some z => if (z =? 0)%Z then d else z
  | None => d
  end.

(** [x || 0] for a number: [NaN] and both zeros are falsy. *)
Definition or_zero (x : float) : float :=
  if (PrimFloat.eqb x x && negb (PrimFloat.eqb x 0%float))%bool then x else 0%float.

(** [a.slice(0, n)]: a negative [n] counts from the end of the array. *)
Definition slice0 {A : Type} (a : list A) (n : Z) : list A :=
  if (n <? 0)%Z
  then firstn (Z.to_nat (Z.max (Z.of_nat (List.length a) + n) 0)) a
  else firstn (Z.to_nat n) a.

(** ** Data model *)

Record Tx : Type := mkTx {
  tx_hash : string;
  tx_from : option string;
  tx_to : option string;
  tx_value : string;
  tx_timestamp : Z;
  tx_blockNumber : option Z
}.

Inductive NodeType : Type := origin | intermediary.

Record Node : Type := mkNode {
  node_address : string;
  node_depth : Z;
  node_type : NodeType
}.

Record Edge : Type := mkEdge {
  edge_from : string;
  edge_to : string;
  edge_value : string;
  edge_hash : string;
  edge_timestamp : Z
}.

Record Metadata : Type := mkMetadata {
  meta_network : string;
  meta_depth : Z;
  meta_timestamp : string
}.

(** The graph under construction: [nodes] is the [Map], in insertion order. *)
Record Graph : Type := mkGraph {
  nodes : list (string * Node);
  edges : list Edge;
  startAddress : string;
  metadata : Metadata
}.

Record Summary : Type := mkSummary {
  nodeCount : Z;
  edgeCount : Z;
  totalValue : float
}.

(** What [_formatGraph] returns. *)
Record FormattedGraph : Type := mkFormattedGraph {
  fg_nodes : list Node;
  fg_edges : list Edge;
  fg_startAddress : string;
  fg_metadata : Metadata;
  fg_summary : Summary
}.

(** What [tracePath] returns. *)
Record PathResult : Type := mkPathResult {
  pr_from : string;
  pr_to : string;
  pr_paths : list (list string);
  pr_pathCount : Z;
  pr_network : string
}.

(** What [_getAddressFlow] returns.  [netFlow] is a property the object gets
    by assignment: [None] while it has not been assigned. *)
Record Flow : Type := mkFlow {
  flow_address : string;
  incoming : list Tx;
  outgoing : list Tx;
  totalIn : float;
  totalOut : float;
  transactionCount : Z;
  netFlow : option float
}.

Record Config : Type := mkConfig {
  network : string;
  maxDepth : Z;
  maxTransactionsPerAddress : Z;
  maxTransactionsForPaths : Z
}.

Record Options : Type := mkOptions {
  opt_depth : option Z;
  opt_direction : option string
}.

(** ** The [Map] of nodes *)

Module NodeMap.

(** [m.has(k)] *)
Definition has (m : list (string * Node)) (k : string) : bool :=
  existsb (fun kv => String.eqb (fst kv) k) m.

(** [m.set(k, v)]: an existing key keeps its place, a new one goes last. *)
Fixpoint set (m : list (string * Node)) (k : string) (v : Node)
  : list (string * Node) :=
  match m with
  | [] => [(k, v)]
  | (k', v') :: r =>
      if String.eqb k' k then (k, v) :: r else (k', v') :: set r k v
  end.

(** [Array.from(m.values())] *)
Definition values (m : list (string * Node)) : list Node := map snd m.

(** [m.size] *)
Definition size (m : list (string * Node)) : Z := Z.of_nat (List.length m).

End NodeMap.

(** [graph.nodes.set(address, node)] *)
Definition set_node (g : Graph) (k : string) (v : Node) : Graph :=
  mkGraph (NodeMap.set (nodes g) k v) (edges g) (startAddress g) (metadata g).

(** [graph.edges.push(edge)] *)
Definition push_edge (g : Graph) (e : Edge) : Graph :=
  mkGraph (nodes g) (edges g ++ [e]) (startAddress g) (metadata g).

(** The edge record built from a transaction whose two ends are present. *)
Definition edge_of (from to : string) (tx : Tx) : Edge :=
  mkEdge from to (tx_value tx) (tx_hash tx) (tx_timestamp tx).

(** ** Validation *)

(** [_validateAddress]: only the empty string is refused (the format test of
    the ethereum network writes a warning and nothing else). *)
Definition _validateAddress (address : string) : result unit :=
  if negb (truthy_string address)
  then Err "Address must be a non-empty string"
  else Ok tt.

(** ** JSON *)

Module Json.

(** A JSON text as a tree.  A number is kept as its literal: [JSON.parse]
    reads the same token, and what number it denotes is decided where the
    tree is read. *)

Inductive value : Type :=
| JNull
| JBool (b : bool)
| JNumber (literal : string)
| JString (s : string)
| JArray (items : list value)
| JObject (members : list (string * value)).

Abbreviation chars := list_ascii_of_string.

Definition quote_char : ascii := "034"%char.
Definition backslash : ascii := "092"%char.
Definition newline : ascii := "010"%char.

(** *** [JSON.stringify(value, null, 2)] *)

Definition hex_digit (n : nat) : ascii :=
  nth n (chars "0123456789abcdef") "0"%char.

(** One character of a quoted string, as QuoteJSONString writes it. *)
Definition escape_char (c : ascii) : list ascii :=
  let n := nat_of_ascii c in
  if (n =? 34)%nat then [backslash; quote_char]
  else if (n =? 92)%nat then [backslash; backslash]
  else if (n =? 8)%nat then [backslash; "b"%char]
  else if (n =? 12)%nat then [backslash; "f"%char]
  else if (n =? 10)%nat then [backslash; "n"%char]
  else if (n =? 13)%nat then [backslash; "r"%char]
  else if (n =? 9)%nat then [backslash; "t"%char]
  else if (n <? 32)%nat then
    [backslash; "u"%char; "0"%char; "0"%char;
     hex_digit (n / 16); hex_digit (n mod 16)]
  else [c].

Definition quote (s : string) : list ascii :=
  quote_char :: flat_map escape_char (chars s) ++ [quote_char].

Definition spaces (n : nat) : list ascii := repeat " "%char n.

(** The members after the first, each after a comma and a line break. *)
Section PrintRest.
Context {A : Type} (print_item : A -> list ascii) (indent : nat).

Fixpoint print_rest (l : list A) : list ascii :=
  match l with
  | [] => []
  | y :: l' =>
      ","%char :: newline :: spaces indent ++ print_item y ++ print_rest l'
  end.
End PrintRest.

(** The text of [v] at [indent] spaces of indentation. *)
Fixpoint print (indent : nat) (v : value) {struct v} : list ascii :=
  match v with
  | JNull => chars "null"
  | JBool true => chars "true"
  | JBool false => chars "false"
  | JNumber literal => chars literal
  | JString s => quote s
  | JArray [] => chars "[]"
  | JArray (x :: xs) =>
      "["%char :: newline :: spaces (indent + 2) ++ print (indent + 2) x
      ++ print_rest (print (indent + 2)) (indent + 2) xs
      ++ newline :: spaces indent ++ ["]"%char]
  | JObject [] => chars "{}"
  | JObject ((k, x) :: ms) =>
      "{"%char :: newline :: spaces (indent + 2)
      ++ quote k ++ ":"%char :: " "%char :: print (indent + 2) x
      ++ print_rest
           (fun m => match m with
                     | (k', y) => quote k' ++ ":"%char :: " "%char :: print (indent + 2) y
                     end)
           (indent + 2) ms
      ++ newline :: spaces indent ++ ["}"%char]
  end.

Definition stringify (v : value) : string := string_of_list_ascii (print 0 v).

(** *** [JSON.parse] *)

Definition is_ws (c : ascii) : bool :=
  let n := nat_of_ascii c in
  (n =? 32)%nat || (n =? 9)%nat || (n =? 10)%nat || (n =? 13)%nat.

Fixpoint skip_ws (s : list ascii) : list ascii :=
  match s with
  | c :: r => if is_ws c then skip_ws r else s
  | [] => []
  end.

Definition is_digit (c : ascii) : bool :=
  let n := nat_of_ascii c in (48 <=? n)%nat && (n <=? 57)%nat.

Definition is_number_char (c : ascii) : bool :=
  is_digit c || Ascii.eqb c "-" || Ascii.eqb c "+" || Ascii.eqb c "."
  || Ascii.eqb c "e" || Ascii.eqb c "E".

(** The longest run of characters a number is written with. *)
Fixpoint span_number (s : list ascii) : list ascii * list ascii :=
  match s with
  | c :: r =>
      if is_number_char c
      then let (tok, rest) := span_number r in (c :: tok, rest)
      else ([], s)
  | [] => ([], [])
  end.

Fixpoint skip_digits (s : list ascii) : list ascii :=
  match s with
  | c :: r => if is_digit c then skip_digits r else s
  | [] => []
  end.

(** The grammar of a number token, from its end: an optional exponent
    ([e] or [E], an optional sign, digits), ... *)
Definition valid_exponent (s : list ascii) : bool :=
  match s with
  | [] => true
  | e :: r =>
      if Ascii.eqb e "e" || Ascii.eqb e "E" then
        let r' := match r with
                  | sign :: r'' =>
                      if Ascii.eqb sign "+" || Ascii.eqb sign "-" then r'' else r
                  | [] => r
                  end in
        match r' with
        | d :: r'' => is_digit d && match skip_digits r'' with [] => true | _ => false end
        | [] => false
        end
      else false
  end.

(** ... after an optional fraction (a dot, digits), ... *)
Definition valid_fraction (s : list ascii) : bool :=
  match s with
  | dot :: r =>
      if Ascii.eqb dot "." then
        match r with
        | d :: r' => is_digit d && valid_exponent (skip_digits r')
        | [] => false
        end
      else valid_exponent s
  | [] => true
  end.

(** ... after the integer part, [0] alone or digits that do not start
    with [0], ... *)
Definition valid_unsigned (s : list ascii) : bool :=
  match s with
  | d :: r =>
      if Ascii.eqb d "0" then valid_fraction r
      else is_digit d && valid_fraction (skip_digits r)
  | [] => false
  end.

(** ... after an optional minus sign. *)
Definition valid_number (s : list ascii) : bool :=
  match s with
  | c :: r => if Ascii.eqb c "-" then valid_unsigned r else valid_unsigned s
  | [] => false
  end.

Definition hex_value (c : ascii) : option nat :=
  let n := nat_of_ascii c in
  if (48 <=? n)%nat && (n <=? 57)%nat then Some (n - 48)%nat
  else if (97 <=? n)%nat && (n <=? 102)%nat then Some (n - 87)%nat
  else if (65 <=? n)%nat && (n <=? 70)%nat then Some (n - 55)%nat
  else None.

(** The characters of a string literal after its opening quote; an escape
    [\uXXXX] above U+007F has no single byte and is not read. *)
Fixpoint parse_chars (s : list ascii) : option (list ascii * list ascii) :=
  match s with
  | [] => None
  | c :: r =>
      if Ascii.eqb c quote_char then Some ([], r)
      else if Ascii.eqb c backslash then
        match r with
        | e :: r' =>
            let simple (c' : ascii) :=
              let? (cs, rest) := parse_chars r' in Some (c' :: cs, rest) in
            if Ascii.eqb e quote_char then simple quote_char
            else if Ascii.eqb e backslash then simple backslash
            else if Ascii.eqb e "/" then simple "/"%char
            else if Ascii.eqb e "b" then simple "008"%char
            else if Ascii.eqb e "f" then simple "012"%char
            else if Ascii.eqb e "n" then simple "010"%char
            else if Ascii.eqb e "r" then simple "013"%char
            else if Ascii.eqb e "t" then simple "009"%char
            else if Ascii.eqb e "u" then
              match r' with
              | h1 :: h2 :: h3 :: h4 :: r'' =>
                  match hex_value h1, hex_value h2, hex_value h3, hex_value h4 with
                  | Some a, Some b, Some c3, Some d =>
                      let code := (((a * 16 + b) * 16 + c3) * 16 + d)%nat in
                      if (code <? 128)%nat then
                        let? (cs, rest) := parse_chars r'' in
                        Some (ascii_of_nat code :: cs, rest)
                      else None
                  | _, _, _, _ => None
                  end
              | _ => None
              end
            else None
        | [] => None
        end
      else if (nat_of_ascii c <? 32)%nat then None
      else let? (cs, rest) := parse_chars r in Some (c :: cs, rest)
  end.

Fixpoint expect (word s : list ascii) : option (list ascii) :=
  match word, s with
  | [], _ => Some s
  | w :: word', c :: s' => if Ascii.eqb w c then expect word' s' else None
  | _ :: _, [] => None
  end.

Fixpoint parse_value (fuel : nat) (s : list ascii) {struct fuel}
  : option (value * list ascii) :=
  match fuel with
  | O => None
  | S fuel' =>
      match skip_ws s with
      | [] => None
      | c :: r =>
          if Ascii.eqb c "n" then
            let? rest := expect (chars "ull") r in Some (JNull, rest)
          else if Ascii.eqb c "t" then
            let? rest := expect (chars "rue") r in Some (JBool true, rest)
          else if Ascii.eqb c "f" then
            let? rest := expect (chars "alse") r in Some (JBool false, rest)
          else if Ascii.eqb c quote_char then
            let? (cs, rest) := parse_chars r in
            Some (JString (string_of_list_ascii cs), rest)
          else if Ascii.eqb c "[" then
            match skip_ws r with
            | c' :: rest =>
                if Ascii.eqb c' "]" then Some (JArray [], rest)
                else
                  let? (items, rest') := parse_items fuel' r in
                  Some (JArray items, rest')
            | [] => None
            end
          else if Ascii.eqb c "{" then
            match skip_ws r with
            | c' :: rest =>
                if Ascii.eqb c' "}" then Some (JObject [], rest)
                else
                  let? (members, rest') := parse_members fuel' r in
                  Some (JObject members, rest')
            | [] => None
            end
          else if Ascii.eqb c "-" || is_digit c then
            let (tok, rest) := span_number (c :: r) in
            if valid_number tok
            then Some (JNumber (string_of_list_ascii tok), rest)
            else None
          else None
      end
  end
with parse_items (fuel : nat) (s : list ascii) {struct fuel}
  : option (list value * list ascii) :=
  match fuel with
  | O => None
  | S fuel' =>
      let? (v, r) := parse_value fuel' s in
      match skip_ws r with
      | c :: r' =>
          if Ascii.eqb c "," then
            let? (vs, rest) := parse_items fuel' r' in Some (v :: vs, rest)
          else if Ascii.eqb c "]" then Some ([v], r')
          else None
      | [] => None
      end
  end
with parse_members (fuel : nat) (s : list ascii) {struct fuel}
  : option (list (string * value) * list ascii) :=
  match fuel with
  | O => None
  | S fuel' =>
      match skip_ws s with
      | q :: r =>
          if Ascii.eqb q quote_char then
            let? (k, r1) := parse_chars r in
            match skip_ws r1 with
            | colon :: r2 =>
                if Ascii.eqb colon ":" then
                  let? (v, r3) := parse_value fuel' r2 in
                  match skip_ws r3 with
                  | c :: r4 =>
                      if Ascii.eqb c "," then
                        let? (ms, rest) := parse_members fuel' r4 in
                        Some ((string_of_list_ascii k, v) :: ms, rest)
                      else if Ascii.eqb c "}"
                      then Some ([(string_of_list_ascii k, v)], r4)
                      else None
                  | [] => None
                  end
                else None
            | [] => None
            end
          else None
      | [] => None
      end
  end.

(** [JSON.parse] *)
Definition parse (text : string) : option value :=
  let? (v, rest) := parse_value (S (String.length text)) (chars text) in
  match skip_ws rest with
  | [] => Some v
  | _ :: _ => None
  end.

(** *** Well-formed trees *)

(** Every number literal of the tree is a number token. *)
Fixpoint wf (v : value) : bool :=
  match v with
  | JNumber literal => valid_number (chars literal)
  | JArray items => forallb wf items
  | JObject members =>
      forallb (fun m => match m with (_, y) => wf y end) members
  | _ => true
  end.

(** The number of calls the parser nests to read the tree back. *)
Fixpoint size (v : value) : nat :=
  match v with
  | JArray items => S (list_sum (map (fun x => S (size x)) items))
  | JObject members =>
      S (list_sum (map (fun m => match m with (_, y) => S (size y) end) members))
  | _ => 1
  end.

(** What may follow a value: the end of the text, or a character no
    number is written with. *)
Definition delimited (rest : list ascii) : Prop :=
  match rest with
  | [] => True
  | c :: _ => is_number_char c = false
  end.

End Json.

(** [String(z)] for an integer, and the integer a literal denotes. *)
Definition Z_to_string (z : Z) : string := NilZero.string_of_int (Z.to_int z).

Definition Z_of_string (s : string) : option Z :=
  option_map Z.of_int (NilZero.int_of_string s).

(** Reading a parsed tree: [v[key]], and the casts to the types of the
    data model. *)
Module Read.
Import Json.

(** [v[key]]: of two members of one name the later one counts. *)
Definition member (key : string) (v : value) : option value :=
  match v with
  | JObject members =>
      option_map snd (find (fun m => String.eqb (fst m) key) (rev members))
  | _ => None
  end.

Definition as_string (v : value) : option string :=
  match v with JString s => Some s | _ => None end.

Definition as_integer (v : value) : option Z :=
  match v with JNumber literal => Z_of_string literal | _ => None end.

Definition as_array (v : value) : option (list value) :=
  match v with JArray items => Some items | _ => None end.

Definition field {A : Type} (cast : value -> option A) (key : string)
    (v : value) : option A :=
  match member key v with
  | Some x => cast x
  | None => None
  end.

Fixpoint all {A : Type} (read : value -> option A) (items : list value)
  : option (list A) :=
  match items with
  | [] => Some []
  | x :: rest =>
      match read x, all read rest with
      | Some a, Some l => Some (a :: l)
      | _, _ => None
      end
  end.

Definition as_type (v : value) : option NodeType :=
  match v with
  | JString s =>
      if String.eqb s "origin" then Some origin
      else if String.eqb s "intermediary" then Some intermediary
      else None
  | _ => None
  end.

Definition node (v : value) : option Node :=
  match field as_string "address" v, field as_integer "depth" v,
        field as_type "type" v with
  | Some a, Some d, Some t => Some (mkNode a d t)
  | _, _, _ => None
  end.

Definition edge (v : value) : option Edge :=
  match field as_string "from" v, field as_string "to" v,
        field as_string "value" v, field as_string "hash" v,
        field as_integer "timestamp" v with
  | Some f, Some t, Some x, Some h, Some ts => Some (mkEdge f t x h ts)
  | _, _, _, _, _ => None
  end.

(** [parsed.nodes] and [parsed.edges] as lists of the data model. *)
Definition nodes (v : value) : option (list Node) :=
  match field as_array "nodes" v with
  | Some items => all node items
  | None => None
  end.

Definition edges (v : value) : option (list Edge) :=
  match field as_array "edges" v with
  | Some items => all edge items
  | None => None
  end.

End Read.

(** ** The constructor *)

(** The argument of [new BlockchainTracer(config)]: an object that may
    have each of the four properties the tracer reads ([None]: the object
    has no such property).  [new BlockchainTracer()] is the argument with
    none of them. *)
Record ConfigArg : Type := mkConfigArg {
  arg_network : option string;
  arg_maxDepth : option Z;
  arg_maxTransactionsPerAddress : option Z;
  arg_maxTransactionsForPaths : option Z
}.

(** A property of the literal [{ key: written, ...config }]: the spread
    comes last, so a property [config] has replaces the one written
    before it. *)
Definition spread {A : Type} (written : A) (given : option A) : A :=
  match given with
  | Some x => x
  | None => written
  end.

(** [constructor]: what [this.config] is set to. *)
Definition constructor (config : ConfigArg) : Config :=
  mkConfig
    (spread (or_string (arg_network config) "ethereum") (arg_network config))
    (spread (or_Z (arg_maxDepth config) 5) (arg_maxDepth config))
    (spread (or_Z (arg_maxTransactionsPerAddress config) 10)
       (arg_maxTransactionsPerAddress config))
    (spread (or_Z (arg_maxTransactionsForPaths config) 5)
       (arg_maxTransactionsForPaths config)).

(** ** The transaction trace *)

(** What [_fetchTransactionDetails] returns. *)
Record TxDetails : Type := mkTxDetails {
  td_hash : string;
  td_from : string;
  td_to : string;
  td_value : string;
  td_timestamp : Z;
  td_status : string;
  td_blockNumber : Z;
  td_gasUsed : Z;
  td_fee : string
}.

(** The [trace] object of [traceTransaction]. *)
Record Trace : Type := mkTrace {
  tr_hash : string;
  tr_from : string;
  tr_to : string;
  tr_value : string;
  tr_timestamp : Z;
  tr_status : string;
  tr_network : string;
  tr_blockNumber : Z;
  tr_gasUsed : Z;
  tr_fee : string
}.

(** What [traceTransaction] returns. *)
Record TransactionGraph : Type := mkTransactionGraph {
  transaction : Trace;
  fromAddressFlow : Flow;
  toAddressFlow : Flow
}.

(** [_validateTransactionHash]: only the empty string is refused (the
    format test writes a warning and nothing else). *)
Definition _validateTransactionHash (txHash : string) : result unit :=
  if negb (truthy_string txHash)
  then Err "Transaction hash must be a non-empty string"
  else Ok tt.

(** [s.repeat(n)] *)
Fixpoint String_repeat (s : string) (n : nat) : string :=
  match n with
  | O => ""
  | S n' => s +:+ String_repeat s n'
  end.

(** [_fetchTransactionDetails]: the details are the same for every hash;
    [now] is the reading of the clock, [Date.now()]. *)
Definition _fetchTransactionDetails (txHash : string) (now : Z) : TxDetails :=
  mkTxDetails txHash
    ("0x" +:+ String_repeat "1" 40)
    ("0x" +:+ String_repeat "2" 40)
    "1.5" now "success" 12345678 21000 "0.001".

(** ** The command line (src/src/cli.js) *)

(** [s.startsWith(prefix)] and [s.substring(start)]. *)
Definition startsWith (s prefix : string) : bool := String.prefix prefix s.

Definition substring_from (start : nat) (s : string) : string :=
  String.substring start (String.length s) s.

(** The options object is the map of its own properties.
    [options[key] = value] on an object created by [{}] writes an own
    property, except under the key [__proto__], whose setter ignores a
    string. *)
Definition set_option (options : gmap string string) (key value : string)
  : gmap string string :=
  if String.eqb key "__proto__" then options else <[key := value]> options.

(** The loop of [parseOptions] from the index at which [args] starts: a
    flag takes the next argument as its value when that one is not empty
    and is no flag itself, and the loop then steps over the value. *)
Fixpoint parseOptions_from (args : list string) (options : gmap string string)
  : gmap string string :=
  match args with
  | [] => options
  | arg :: rest =>
      if startsWith arg "--" then
        let key := substring_from 2 arg in
        match rest with
        | value :: rest' =>
            if truthy_string value && negb (startsWith value "--")
            then parseOptions_from rest' (set_option options key value)
            else parseOptions_from rest options
        | [] => options
        end
      else parseOptions_from rest options
  end.

(** [parseOptions] *)
Definition parseOptions (args : list string) : gmap string string :=
  parseOptions_from args ∅.

(** The arguments that spell the options [kvs] out, flag by flag. *)
Definition flags (kvs : list (string * string)) : list string :=
  flat_map (fun kv => ["--" +:+ fst kv; snd kv]) kvs.

(** A string a flag can take as its value, and a key a flag can set. *)
Definition is_value (value : string) : bool :=
  truthy_string value && negb (startsWith value "--").

Definition is_key (key : string) : bool :=
  negb (String.eqb key "__proto__").

(** The argument at index [i] is the flag of [key] and the next one is a
    value it takes. *)
Definition sets (args : list string) (i : nat) (key value : string) : Prop :=
  args !! i = Some ("--" +:+ key) /\ args !! S i = Some value /\
  is_value value = true.

(** ** The ledger of the repository *)

(** The body of [_fetchAddressTransactions] in the repository draws its
    transactions at random.  [Math.random] and [Date.now] read the world;
    [toString16] is [Number.prototype.toString] with radix 16 and
    [toFixed4] is [Number.prototype.toFixed] with 4 digits. *)
Module Mock.
Section Hosts.

Variable World : Type.
Variable Math_random : World -> float * World.
Variable Date_now : World -> Z * World.
Variable toString16 : float -> string.
Variable toFixed4 : float -> string.

(** [s.slice(start, end)] for [0 <= start <= end]. *)
Definition slice (s : string) (start end_ : nat) : string :=
  String.substring start (end_ - start) s.

(** The object pushed at index [i]; its properties are evaluated in the
    order they are written. *)
Definition transaction (address : string) (i : Z) (w : World) : Tx * World :=
  let (r1, w1) := Math_random w in
  let hash := "0x" +:+ slice (toString16 r1) 2 66 in
  let (r2, w2) := Math_random w1 in
  let to := "0x" +:+ slice (toString16 r2) 2 42 in
  let (r3, w3) := Math_random w2 in
  let value := toFixed4 (PrimFloat.mul r3 10%float) in
  let (t, w4) := Date_now w3 in
  (mkTx hash (Some address) (Some to) value (t - i * 3600000)
     (Some (12345678 - i)),
   w4).

(** The [count] rounds of the loop from index [i] on. *)
Fixpoint transactions (address : string) (count : nat) (i : Z) (w : World)
  : list Tx * World :=
  match count with
  | O => ([], w)
  | S count' =>
      let (tx, w1) := transaction address i w in
      let (rest, w2) := transactions address count' (i + 1) w1 in
      (tx :: rest, w2)
  end.

(** [_fetchAddressTransactions]: [Math.min(limit, 5)] transactions, and
    never an exception. *)
Definition _fetchAddressTransactions (address : string) (limit : Z) (w : World)
  : option (list Tx) * World :=
  let (txs, w') := transactions address (Z.to_nat (Z.min limit 5)) 0 w in
  (Some txs, w').

End Hosts.
End Mock.

(** ** The requests a ledger gets *)

(** The ledger [fetch] with a log beside its world: each request is noted,
    address and limit, after those noted before. *)
Definition logged {World : Type}
    (fetch : string -> Z -> World -> option (list Tx) * World)
  : string -> Z -> World * list (string * Z)
    -> option (list Tx) * (World * list (string * Z)) :=
  fun address limit st =>
    let (answer, w') := fetch address limit (fst st) in
    (answer, (w', snd st ++ [(address, limit)])).

(** The requests for the nodes [new], in their order. *)
Definition requests (new : list (string * Node)) : list (string * Z) :=
  map (fun kv => (node_address (snd kv), 1)) new.

(** A call over the logged ledger does what the call over the ledger does,
    and notes one request for each node it adds. *)
Definition follows {World : Type}
    (visit_l : string -> Graph * (World * list (string * Z))
               -> option (Graph * (World * list (string * Z))))
    (visit : string -> Graph * World -> option (Graph * World)) : Prop :=
  forall b g w log g' w' log',
    visit_l b (g, (w, log)) = Some (g', (w', log')) ->
    visit b (g, w) = Some (g', w') /\
    exists new, nodes g' = nodes g ++ new /\ log' = log ++ requests new.

(** ** Ledgers *)


(** Concrete collaborators, for running the tracer on examples. *)
Module Fixture.

(** [toLowerCase] on ASCII text. *)
Definition lower_ascii (c : ascii) : ascii :=
  let n := nat_of_ascii c in
  if (65 <=? n)%nat && (n <=? 90)%nat then ascii_of_nat (n + 32) else c.

Fixpoint lower (s : string) : string :=
  match s with
  | EmptyString => EmptyString
  | String c rest => String (lower_ascii c) (lower rest)
  end.

(** A ledger read from a table: an address is answered by its entry
    ([None]: the fetch throws), an unlisted address has no transactions.
    The world counts the fetches. *)
Definition ledger (table : list (string * option (list Tx)))
  : string -> Z -> nat -> option (list Tx) * nat :=
  fun address _ fetches =>
    (match find (fun entry => String.eqb (fst entry) address) table with
     | Some (_, answer) => answer
     | None => Some []
     end,
     S fetches).

(** [parseFloat] on the values the examples use. *)
Definition parse_value (s : string) : float :=
  if String.eqb s "1.5" then 1.5%float
  else if String.eqb s "2" then 2%float
  else if String.eqb s "5.0000" then 5%float
  else nan.

(** The configuration [new BlockchainTracer()] builds. *)
Definition default_config : Config := mkConfig "ethereum" 5 10 5.

(** A transfer of 1.5 from [from] to [to]. *)
Definition transfer (hash from to : string) : Tx :=
  mkTx hash (Some from) (Some to) "1.5" 1700000000000 None.

Definition a : string := "0xa1".
Definition b : string := "0xb2".
Definition c : string := "0xc3".
Definition now : string := "2026-01-01T00:00:00.000Z".

(** [a] pays [b] and [c]; the fetch for [b] throws. *)
Definition fork_table : list (string * option (list Tx)) :=
  [(a, Some [transfer "0x01" a b; transfer "0x02" a c]); (b, None)].

(** The graph of [fork_table] from [a] to depth 2. *)
Definition fork_graph : FormattedGraph :=
  mkFormattedGraph
    [mkNode a 0 origin; mkNode b 1 intermediary; mkNode c 1 intermediary]
    [edge_of a b (transfer "0x01" a b); edge_of a c (transfer "0x02" a c)]
    a (mkMetadata "ethereum" 2 now) (mkSummary 3 2 3%float).

(** An account pays the same account, written in capitals. *)
Definition case_table : list (string * option (list Tx)) :=
  [("0xab", Some [transfer "0x01" "0xab" "0xAB"])].

(** [a] pays [c] and [b]; [b] pays [c]. *)
Definition path_table : list (string * option (list Tx)) :=
  [(a, Some [transfer "0x01" a c; transfer "0x02" a b]);
   (b, Some [transfer "0x03" b c])].

(** The paths of [path_table] from [a] to [c]. *)
Definition path_result : PathResult :=
  mkPathResult a c [[a; c]; [a; b; c]] 2 "ethereum".

(** [String(x)] on the totals the examples reach. *)
Definition number_text (x : float) : string :=
  if PrimFloat.eqb x 3%float then "3"
  else if PrimFloat.eqb x 1.5%float then "1.5"
  else "0".

(** The ledger lists the one transfer from [a] to [b] under its sender and
    under its receiver. *)
Definition echo_table : list (string * option (list Tx)) :=
  [(a, Some [transfer "0x01" a b]); (b, Some [transfer "0x01" a b])].

(** Hosts for the ledger of the repository: every draw is one half, the
    clock stands still, and the two renderings are constant. *)
Definition random (w : nat) : float * nat := (0.5%float, S w).
Definition clock (w : nat) : Z * nat := (1700000000000, w).
Definition hex (x : float) : string := "0.8".
Definition fixed (x : float) : string := "5.0000".

(** The ledger of the repository over these hosts. *)
Definition repository_ledger : string -> Z -> nat -> option (list Tx) * nat :=
  Mock._fetchAddressTransactions nat random clock hex fixed.

(** [fork_graph] without its nodes. *)
Definition fork_edges : FormattedGraph :=
  mkFormattedGraph [] (fg_edges fork_graph) a (mkMetadata "ethereum" 2 now)
    (mkSummary 0 2 3%float).

(** [fork_graph] with every node two levels down, and other hashes and
    timestamps. *)
Definition fork_shifted : FormattedGraph :=
  mkFormattedGraph
    [mkNode a 2 origin; mkNode b 3 intermediary; mkNode c 3 intermediary]
    [mkEdge a b "1.5" "0x0a" 0; mkEdge a c "1.5" "0x0b" 1]
    a (mkMetadata "bitcoin" 4 now) (mkSummary 0 0 0%float).

(** One edge whose [from] holds a comma, and one whose [to] does. *)
Definition comma_from : FormattedGraph :=
  mkFormattedGraph [] [mkEdge "x,y" "z" "1.5" "0x01" 1700000000000] a
    (mkMetadata "ethereum" 2 now) (mkSummary 0 1 1.5%float).

Definition comma_to : FormattedGraph :=
  mkFormattedGraph [] [mkEdge "x" "y,z" "1.5" "0x01" 1700000000000] a
    (mkMetadata "ethereum" 2 now) (mkSummary 0 1 1.5%float).

(** A command line, and options written twice. *)
Definition command_line : list string :=
  ["--depth"; "3"; "--verbose"; "--format"; "csv"; "--depth"; "4"; "--output"].

Definition option_pairs : list (string * string) :=
  [("depth", "3"); ("format", "dot"); ("depth", "2")].

End Fixture.

(** ** The tracer over a ledger *)

Section Tracer.

(** [String.prototype.toLowerCase]. *)
Variable toLowerCase : string -> string.

(** The state of everything outside the tracer, and the ledger:
    [_fetchAddressTransactions address limit] either returns the
    transactions ([Some]) or throws ([None]), and moves the world on. *)
Variable World : Type.
Variable _fetchAddressTransactions :
  string -> Z -> World -> option (list Tx) * World.

(** [parseFloat], on the strings of transaction values. *)
Variable parseFloat : string -> float.

Variable config : Config.

Set Default Proof Using "Type".

(** [x && x.toLowerCase() === address.toLowerCase()] *)
Definition matches (x : option string) (address : string) : bool :=
  match x with
  | Some s => truthy_string s && String.eqb (toLowerCase s) (toLowerCase address)
  | None => false
  end.

(** *** Graph Builder *)

Section TraceLoop.

(** The recursive call [_traceRecursive(a, graph, currentDepth + 1, ...)];
    [None] is a call that ran out of fuel. *)
Variable visit : string -> Graph * World -> option (Graph * World).
Variables (address : string) (currentDepth maxDepth : Z) (direction : string).

(** The first [if] of the loop body: the outgoing match. *)
Definition trace_out (tx : Tx) (st : Graph * World) : option (Graph * World) :=
  if String.eqb direction "out" || String.eqb direction "both" then
    match tx_from tx, tx_to tx with
    | Some from, Some to =>
        if matches (Some from) address && truthy_string to then
          let st' := (push_edge (fst st) (edge_of from to tx), snd st) in
          if (currentDepth + 1 <? maxDepth)%Z then visit to st' else Some st'
        else Some st
    | _, _ => Some st
    end
  else Some st.

(** The second [if] of the loop body: the incoming match. *)
Definition trace_in (tx : Tx) (st : Graph * World) : option (Graph * World) :=
  if String.eqb direction "in" || String.eqb direction "both" then
    match tx_to tx, tx_from tx with
    | Some to, Some from =>
        if matches (Some to) address && truthy_string from then
          let st' := (push_edge (fst st) (edge_of from to tx), snd st) in
          if (currentDepth + 1 <? maxDepth)%Z then visit from st' else Some st'
        else Some st
    | _, _ => Some st
    end
  else Some st.

(** [for (const tx of transactions.slice(...)) { ... }] *)
Fixpoint trace_loop (txs : list Tx) (st : Graph * World)
  : option (Graph * World) :=
  match txs with
  | [] => Some st
  | tx :: rest =>
      let? st1 := trace_out tx st in
      let? st2 := trace_in tx st1 in
      trace_loop rest st2
  end.

End TraceLoop.

(** [_traceRecursive]; the calls nest at most [fuel] deep. *)
Fixpoint _traceRecursive (fuel : nat) (address : string) (st : Graph * World)
    (currentDepth maxDepth : Z) (direction : string) {struct fuel}
  : option (Graph * World) :=
  match fuel with
  | O => None
  | S fuel' =>
      if (currentDepth >=? maxDepth)%Z then Some st
      else if NodeMap.has (nodes (fst st)) address then Some st
      else
        let g1 := set_node (fst st) address
                    (mkNode address currentDepth
                       (if (currentDepth =? 0)%Z then origin else intermediary)) in
        match _fetchAddressTransactions address 1 (snd st) with
        | (Some transactions, w') =>
            trace_loop
              (fun a st' =>
                 _traceRecursive fuel' a st' (currentDepth + 1) maxDepth direction)
              address currentDepth maxDepth direction
              (slice0 transactions (maxTransactionsPerAddress config))
              (g1, w')
        | (None, w') => Some (g1, w')
        end
  end.

(** [_formatGraph] *)
Definition _formatGraph (graph : Graph) : FormattedGraph :=
  mkFormattedGraph
    (NodeMap.values (nodes graph))
    (edges graph)
    (startAddress graph)
    (metadata graph)
    (mkSummary
       (NodeMap.size (nodes graph))
       (Z.of_nat (List.length (edges graph)))
       (fold_left (fun sum edge => PrimFloat.add sum (or_zero (parseFloat (edge_value edge))))
          (edges graph) 0%float)).

(** The recursion of [traceFromAddress] is at most [depth] calls deep. *)
Definition trace_fuel (depth : Z) : nat := S (Z.to_nat depth).

(** [traceFromAddress]; [now] is the reading of the clock,
    [new Date().toISOString()].  [None] is a run out of fuel. *)
Definition traceFromAddress (address : string) (options : Options)
    (now : string) (w : World) : option (result FormattedGraph * World) :=
  match _validateAddress address with
  | Err e => Some (Err e, w)
  | Ok _ =>
      let depth := or_Z (opt_depth options) (maxDepth config) in
      let direction := or_string (opt_direction options) "both" in
      let graph := mkGraph [] [] address (mkMetadata (network config) depth now) in
      let? (graph', w') :=
        _traceRecursive (trace_fuel depth) address (graph, w) 0 depth direction in
      Some (Ok (_formatGraph graph'), w')
  end.


(** *** The Graph Builder with its history *)

(** What [_traceRecursive] does to the graph, in the order in which it does
    it.  [Inserted a n] is [graph.nodes.set(a, n)]; [Appended a tx e] is
    [graph.edges.push(e)] for the transaction [tx], in the loop of the call
    on the address [a]. *)
Inductive Event : Type :=
| Inserted (address : string) (node : Node)
| Appended (address : string) (tx : Tx) (edge : Edge).

(** The graph and the world of [_traceRecursive], and the events so far. *)
Definition History : Type := (Graph * World) * list Event.

Section TraceLoopEvents.

Variable visit : string -> History -> option History.
Variables (address : string) (currentDepth maxDepth : Z) (direction : string).

(** The first [if] of the loop body, which records its [push]. *)
Definition trace_out_events (tx : Tx) (h : History) : option History :=
  if String.eqb direction "out" || String.eqb direction "both" then
    match tx_from tx, tx_to tx with
    | Some from, Some to =>
        if matches (Some from) address && truthy_string to then
          let edge := edge_of from to tx in
          let h' := ((push_edge (fst (fst h)) edge, snd (fst h)),
                     snd h ++ [Appended address tx edge]) in
          if (currentDepth + 1 <? maxDepth)%Z then visit to h' else Some h'
        else Some h
    | _, _ => Some h
    end
  else Some h.

(** The second [if] of the loop body, which records its [push]. *)
Definition trace_in_events (tx : Tx) (h : History) : option History :=
  if String.eqb direction "in" || String.eqb direction "both" then
    match tx_to tx, tx_from tx with
    | Some to, Some from =>
        if matches (Some to) address && truthy_string from then
          let edge := edge_of from to tx in
          let h' := ((push_edge (fst (fst h)) edge, snd (fst h)),
                     snd h ++ [Appended address tx edge]) in
          if (currentDepth + 1 <? maxDepth)%Z then visit from h' else Some h'
        else Some h
    | _, _ => Some h
    end
  else Some h.

(** [for (const tx of transactions.slice(...)) { ... }] *)
Fixpoint trace_loop_events (txs : list Tx) (h : History) : option History :=
  match txs with
  | [] => Some h
  | tx :: rest =>
      let? h1 := trace_out_events tx h in
      let? h2 := trace_in_events tx h1 in
      trace_loop_events rest h2
  end.

End TraceLoopEvents.

(** [_traceRecursive], which records its [set] and, in the loop, each
    [push]. *)
Fixpoint _traceRecursive_events (fuel : nat) (address : string) (h : History)
    (currentDepth maxDepth : Z) (direction : string) {struct fuel}
  : option History :=
  match fuel with
  | O => None
  | S fuel' =>
      if (currentDepth >=? maxDepth)%Z then Some h
      else if NodeMap.has (nodes (fst (fst h))) address then Some h
      else
        let node := mkNode address currentDepth
                      (if (currentDepth =? 0)%Z then origin else intermediary) in
        let g1 := set_node (fst (fst h)) address node in
        let events1 := snd h ++ [Inserted address node] in
        match _fetchAddressTransactions address 1 (snd (fst h)) with
        | (Some transactions, w') =>
            trace_loop_events
              (fun a h' =>
                 _traceRecursive_events fuel' a h' (currentDepth + 1) maxDepth
                   direction)
              address currentDepth maxDepth direction
              (slice0 transactions (maxTransactionsPerAddress config))
              ((g1, w'), events1)
        | (None, w') => Some ((g1, w'), events1)
        end
  end.

(** The update of the graph an event stands for. *)
Definition apply_event (g : Graph) (ev : Event) : Graph :=
  match ev with
  | Inserted a n => set_node g a n
  | Appended _ _ e => push_edge g e
  end.

(** The graph after the events, from the graph [g]. *)
Definition replay (events : list Event) (g : Graph) : Graph :=
  fold_left apply_event events g.


(** *** Path Finder *)

(** The literal [10] of [paths.length >= 10]. *)
Definition maxPaths : Z := 10.

(** What the search shares between its calls: the revisit [Set], the
    array of found paths, and the world. *)
Record Search : Type := mkSearch {
  visited : gset string;
  paths : list (list string);
  world : World
}.

Section FindLoop.

(** The recursive call [_findPaths(next, target, [...path, next], ...)]. *)
Variable search : string -> list string -> Search -> option Search.
Variables (current : string) (path : list string).

(** The body of the loop of [_findPaths]. *)
Definition find_step (tx : Tx) (st : Search) : option Search :=
  match tx_from tx, tx_to tx with
  | Some from, Some to =>
      if matches (Some from) current && truthy_string to then
        let next := to in
        if decide (toLowerCase next ∈ visited st) then Some st
        else search next (path ++ [next]) st
      else Some st
  | _, _ => Some st
  end.

Fixpoint find_loop (txs : list Tx) (st : Search) : option Search :=
  match txs with
  | [] => Some st
  | tx :: rest =>
      let? st1 := find_step tx st in
      find_loop rest st1
  end.

End FindLoop.

(** [_findPaths]; the calls nest at most [fuel] deep. *)
Fixpoint _findPaths (fuel : nat) (current target : string) (path : list string)
    (st : Search) (depth maxDepth : Z) {struct fuel} : option Search :=
  match fuel with
  | O => None
  | S fuel' =>
      if (depth >=? maxDepth)%Z || (Z.of_nat (List.length (paths st)) >=? maxPaths)%Z
      then Some st
      else if String.eqb (toLowerCase current) (toLowerCase target)
      then Some (mkSearch (visited st) (paths st ++ [path]) (world st))
      else
        let visited1 := {[toLowerCase current]} ∪ visited st in
        let explored :=
          match _fetchAddressTransactions current 1 (world st) with
          | (Some transactions, w') =>
              find_loop
                (fun next path' st' =>
                   _findPaths fuel' next target path' st' (depth + 1) maxDepth)
                current path
                (slice0 transactions (maxTransactionsForPaths config))
                (mkSearch visited1 (paths st) w')
          | (None, w') => Some (mkSearch visited1 (paths st) w')
          end in
        let? st' := explored in
        Some (mkSearch (visited st' ∖ {[toLowerCase current]}) (paths st') (world st'))
  end.

(** [tracePath]: the search runs from depth 0 with the literal bound 5. *)
Definition tracePath (fromAddress toAddress : string) (w : World)
  : option (result PathResult * World) :=
  match _validateAddress fromAddress with
  | Err e => Some (Err e, w)
  | Ok _ =>
      match _validateAddress toAddress with
      | Err e => Some (Err e, w)
      | Ok _ =>
          let? st := _findPaths 6 fromAddress toAddress [fromAddress]
                       (mkSearch ∅ [] w) 0 5 in
          Some (Ok (mkPathResult fromAddress toAddress (paths st)
                      (Z.of_nat (List.length (paths st))) (network config)),
                world st)
      end
  end.

(** *** Flow Aggregator *)

(** The body of [transactions.forEach(tx => ...)]. *)
Definition flow_step (address : string) (flow : Flow) (tx : Tx) : Flow :=
  let flow1 :=
    if matches (tx_to tx) address then
      mkFlow (flow_address flow) (incoming flow ++ [tx]) (outgoing flow)
        (PrimFloat.add (totalIn flow) (or_zero (parseFloat (tx_value tx))))
        (totalOut flow) (transactionCount flow) (netFlow flow)
    else flow in
  if matches (tx_from tx) address then
    mkFlow (flow_address flow1) (incoming flow1) (outgoing flow1 ++ [tx])
      (totalIn flow1)
      (PrimFloat.add (totalOut flow1) (or_zero (parseFloat (tx_value tx))))
      (transactionCount flow1) (netFlow flow1)
  else flow1.

(** [_getAddressFlow] *)
Definition _getAddressFlow (address : string) (depth : Z) (w : World)
  : Flow * World :=
  let flow := mkFlow address [] [] 0%float 0%float 0 None in
  match _fetchAddressTransactions address depth w with
  | (Some transactions, w') =>
      let flow' := fold_left (flow_step address) transactions flow in
      (mkFlow (flow_address flow') (incoming flow') (outgoing flow')
         (totalIn flow') (totalOut flow')
         (Z.of_nat (List.length transactions))
         (Some (PrimFloat.sub (totalIn flow') (totalOut flow'))),
       w')
  | (None, w') => (flow, w')
  end.


(** *** Graph Formatter *)

(** [String(x)] for a finite number. *)
Variable Number_toString : float -> string.

Definition json_of_Z (z : Z) : Json.value := Json.JNumber (Z_to_string z).

(** A number that is not finite is written [null]. *)
Definition json_of_number (x : float) : Json.value :=
  if is_finite x then Json.JNumber (Number_toString x) else Json.JNull.

Definition type_name (t : NodeType) : string :=
  match t with
  | origin => "origin"
  | intermediary => "intermediary"
  end.

Definition json_of_node (n : Node) : Json.value :=
  Json.JObject
    [("address", Json.JString (node_address n));
     ("depth", json_of_Z (node_depth n));
     ("type", Json.JString (type_name (node_type n)))].

Definition json_of_edge (e : Edge) : Json.value :=
  Json.JObject
    [("from", Json.JString (edge_from e));
     ("to", Json.JString (edge_to e));
     ("value", Json.JString (edge_value e));
     ("hash", Json.JString (edge_hash e));
     ("timestamp", json_of_Z (edge_timestamp e))].

(** The formatted graph as [JSON.stringify] walks it, property by
    property in the order [_formatGraph] wrote them. *)
Definition json_of_graph (graph : FormattedGraph) : Json.value :=
  Json.JObject
    [("nodes", Json.JArray (map json_of_node (fg_nodes graph)));
     ("edges", Json.JArray (map json_of_edge (fg_edges graph)));
     ("startAddress", Json.JString (fg_startAddress graph));
     ("metadata",
      Json.JObject
        [("network", Json.JString (meta_network (fg_metadata graph)));
         ("depth", json_of_Z (meta_depth (fg_metadata graph)));
         ("timestamp", Json.JString (meta_timestamp (fg_metadata graph)))]);
     ("summary",
      Json.JObject
        [("nodeCount", json_of_Z (nodeCount (fg_summary graph)));
         ("edgeCount", json_of_Z (edgeCount (fg_summary graph)));
         ("totalValue", json_of_number (totalValue (fg_summary graph)))])].

Definition dq : string := String Json.quote_char EmptyString.
Definition nl : string := String Json.newline EmptyString.

(** [_exportToDot] *)
Definition _exportToDot (graph : FormattedGraph) : string :=
  let dot := "digraph TransactionFlow {" +:+ nl in
  let dot := dot +:+ "  rankdir=LR;" +:+ nl in
  let dot := dot +:+ "  node [shape=box, style=rounded];" +:+ nl +:+ nl in
  let dot :=
    fold_left
      (fun dot node =>
         let label := String.substring 0 10 (node_address node) +:+ "..." in
         let color :=
           match node_type node with
           | origin => "lightblue"
           | intermediary => "lightgray"
           end in
         dot +:+ "  " +:+ dq +:+ node_address node +:+ dq +:+ " [label=" +:+ dq
             +:+ label +:+ dq +:+ ", fillcolor=" +:+ color
             +:+ ", style=filled];" +:+ nl)
      (fg_nodes graph) dot in
  let dot := dot +:+ nl in
  let dot :=
    fold_left
      (fun dot edge =>
         let label := edge_value edge in
         dot +:+ "  " +:+ dq +:+ edge_from edge +:+ dq +:+ " -> " +:+ dq
             +:+ edge_to edge +:+ dq +:+ " [label=" +:+ dq +:+ label +:+ dq
             +:+ "];" +:+ nl)
      (fg_edges graph) dot in
  dot +:+ "}" +:+ nl.

(** [_exportToCsv] *)
Definition _exportToCsv (graph : FormattedGraph) : string :=
  let csv := "From,To,Value,Hash,Timestamp" +:+ nl in
  fold_left
    (fun csv edge =>
       csv +:+ edge_from edge +:+ "," +:+ edge_to edge +:+ ","
           +:+ edge_value edge +:+ "," +:+ edge_hash edge +:+ ","
           +:+ Z_to_string (edge_timestamp edge) +:+ nl)
    (fg_edges graph) csv.

(** [exportGraph]; an omitted [format] is ['json']. *)
Definition exportGraph (graph : FormattedGraph) (format : option string)
  : result string :=
  let format := match format with Some f => f | None => "json" end in
  if String.eqb format "json" then Ok (Json.stringify (json_of_graph graph))
  else if String.eqb format "dot" then Ok (_exportToDot graph)
  else if String.eqb format "csv" then Ok (_exportToCsv graph)
  else Err ("Unsupported format: " +:+ format).

(** *** The predicates of the statements *)

(** [g'] has every key of [g]. *)
Definition keeps_nodes (g g' : Graph) : Prop :=
  forall k, NodeMap.has (nodes g) k = true -> NodeMap.has (nodes g') k = true.

(** What a call at depth [d] keeps, for a property [Inv] of graphs and a
    property [Q] of the address and depth of a call. *)
Definition visit_keeps (Q : string -> Z -> Prop) (Inv : Graph -> Prop) (d : Z)
    (visit : string -> Graph * World -> option (Graph * World)) : Prop :=
  forall b g w g' w',
    Q b d -> Inv g -> visit b (g, w) = Some (g', w') ->
    Inv g' /\ keeps_nodes g g'.

(** The graph [traceFromAddress] starts from. *)
Definition empty_graph (address : string) (options : Options) (now : string)
  : Graph :=
  mkGraph [] [] address
    (mkMetadata (network config)
       (or_Z (opt_depth options) (maxDepth config)) now).

(** The seed's node comes first, at depth 0 and of kind origin; the other
    nodes are intermediaries at depths 1 to [k - 1]; no key occurs twice. *)
Definition seeded (seed : string) (k : Z) (g : Graph) : Prop :=
  exists rest,
    nodes g = (seed, mkNode seed 0 origin) :: rest /\
    NoDup (map fst (nodes g)) /\
    forall key n, In (key, n) rest ->
      node_address n = key /\ 1 <= node_depth n < k /\ node_type n = intermediary.

(** [e] is the edge of [tx], and [tx] leaves the address [a]: the test of
    the first [if] of the loop. *)
Definition leaves (a : string) (tx : Tx) (e : Edge) : Prop :=
  exists from to,
    tx_from tx = Some from /\ tx_to tx = Some to /\ e = edge_of from to tx /\
    matches (Some from) a = true.

(** [e] is the edge of [tx], and [tx] arrives at the address [a]: the test
    of the second [if] of the loop. *)
Definition arrives (a : string) (tx : Tx) (e : Edge) : Prop :=
  exists from to,
    tx_from tx = Some from /\ tx_to tx = Some to /\ e = edge_of from to tx /\
    matches (Some to) a = true.

(** In the graph [g], an edge may be appended by the call on [a] when [P]
    holds of it and [a] is a key of the node map. *)
Definition permitted (P : string -> Tx -> Edge -> Prop) (ev : Event)
    (g : Graph) : Prop :=
  match ev with
  | Inserted _ _ => True
  | Appended a tx e => P a tx e /\ NodeMap.has (nodes g) a = true
  end.

(** Every event is permitted in the graph the events before it give. *)
Fixpoint obeys (P : string -> Tx -> Edge -> Prop) (events : list Event)
    (g : Graph) : Prop :=
  match events with
  | [] => True
  | ev :: rest => permitted P ev g /\ obeys P rest (apply_event g ev)
  end.

(** The graph of a history is the replay of its events from [g0], and the
    events obey [P]. *)
Definition kept (P : string -> Tx -> Edge -> Prop) (g0 : Graph) (h : History)
  : Prop :=
  fst (fst h) = replay (snd h) g0 /\ obeys P (snd h) g0.

(** What a call keeps of a history. *)
Definition visit_kept (P : string -> Tx -> Edge -> Prop) (g0 : Graph)
    (visit : string -> History -> option History) : Prop :=
  forall b h h',
    kept P g0 h -> visit b h = Some h' ->
    kept P g0 h' /\ keeps_nodes (fst (fst h)) (fst (fst h')).

(** Every edge has its [endpoint] at a node, up to case. *)
Definition anchored (endpoint : Edge -> string)
    (ns : list Node) (es : list Edge) : Prop :=
  forall e, In e es ->
    exists n, In n ns /\ toLowerCase (endpoint e) = toLowerCase (node_address n).

(** No address occurs twice in [p], up to case. *)
Definition simple (p : list string) : Prop := NoDup (map toLowerCase p).

(** The revisit set holds exactly the case-folded addresses of [pre]. *)
Definition tracks (v : gset string) (pre : list string) : Prop :=
  forall x, x ∈ v <-> In x (map toLowerCase pre).

(** What a search from [next], reached along [pre], guarantees. *)
Definition search_ok
    (search : string -> list string -> Search -> option Search) : Prop :=
  forall next pre st st',
    search next (pre ++ [next]) st = Some st' ->
    tracks (visited st) pre -> simple (pre ++ [next]) ->
    Forall simple (paths st) ->
    visited st' = visited st /\ Forall simple (paths st').

(** *** Transaction trace *)

(** [traceTransaction]; [now] is the reading of the clock in
    [_fetchTransactionDetails]. *)
Definition traceTransaction (txHash : string) (now : Z) (w : World)
  : result TransactionGraph * World :=
  match _validateTransactionHash txHash with
  | Err e => (Err e, w)
  | Ok _ =>
      let txDetails := _fetchTransactionDetails txHash now in
      let trace :=
        mkTrace txHash (td_from txDetails) (td_to txDetails)
          (td_value txDetails) (td_timestamp txDetails) (td_status txDetails)
          (network config) (td_blockNumber txDetails) (td_gasUsed txDetails)
          (td_fee txDetails) in
      let (fromFlow, w1) := _getAddressFlow (td_from txDetails) 2 w in
      let (toFlow, w2) := _getAddressFlow (td_to txDetails) 2 w1 in
      (Ok (mkTransactionGraph trace fromFlow toFlow), w2)
  end.

(** *** More predicates of the statements *)

(** [g'] has every node and every edge of [g]. *)
Definition grows (g g' : Graph) : Prop :=
  (forall n, In n (NodeMap.values (nodes g)) -> In n (NodeMap.values (nodes g'))) /\
  (forall e, In e (edges g) -> In e (edges g')).

(** The node of [address] at [depth] hangs on a node one level up: some
    edge has one end at [address] and the other end, up to case, at a node
    of depth [depth - 1]. *)
Definition hangs (ns : list Node) (es : list Edge) (address : string)
    (depth : Z) : Prop :=
  exists e p,
    In e es /\ In p ns /\ node_depth p = depth - 1 /\
    ((edge_to e = address /\
      toLowerCase (edge_from e) = toLowerCase (node_address p)) \/
     (edge_from e = address /\
      toLowerCase (edge_to e) = toLowerCase (node_address p))).

(** The ledger has a transfer from [x] to [y] that the path search reads:
    some fetch for [x] answers with a page that holds, among the
    transactions the search looks at, one sent by [x] (up to case) to
    [y]. *)
Definition transfers (x y : string) : Prop :=
  exists w txs w' tx,
    _fetchAddressTransactions x 1 w = (Some txs, w') /\
    In tx (slice0 txs (maxTransactionsForPaths config)) /\
    matches (tx_from tx) x = true /\ tx_to tx = Some y.

(** Each address of [p] transfers to the next one. *)
Fixpoint chained (p : list string) : Prop :=
  match p with
  | x :: (y :: _) as rest => transfers x y /\ chained rest
  | _ => True
  end.

(** A field that holds no comma and no line break. *)
Definition plain (s : string) : bool :=
  forallb (fun c => negb (Ascii.eqb c ","%char) && negb (Ascii.eqb c Json.newline))
    (list_ascii_of_string s).

Definition plain_edge (e : Edge) : bool :=
  plain (edge_from e) && plain (edge_to e) && plain (edge_value e)
  && plain (edge_hash e).

(** How many nodes and edges a state holds, and how many edges one
    transaction can add on each side under a direction. *)
Definition node_total (st : Graph * World) : Z :=
  Z.of_nat (List.length (nodes (fst st))).

Definition edge_total (st : Graph * World) : Z :=
  Z.of_nat (List.length (edges (fst st))).

Definition out_edges (direction : string) : Z :=
  if String.eqb direction "out" || String.eqb direction "both" then 1 else 0.

Definition in_edges (direction : string) : Z :=
  if String.eqb direction "in" || String.eqb direction "both" then 1 else 0.

(** A call adds no more than [C] edges for each node it adds. *)
Definition visit_counts (C : Z)
    (visit : string -> Graph * World -> option (Graph * World)) : Prop :=
  forall b st st', visit b st = Some st' ->
    node_total st <= node_total st' /\
    edge_total st' - edge_total st <= C * (node_total st' - node_total st).

(** The ledger honours the limit 1 the tracer asks with: a page holds at
    most one transaction. *)
Definition single_pages : Prop :=
  forall a w txs w',
    _fetchAddressTransactions a 1 w = (Some txs, w') ->
    (List.length txs <= 1)%nat.

(** Moreover the transaction of a page is one the address asked for
    sent. *)
Definition own_pages : Prop :=
  forall a w txs w',
    _fetchAddressTransactions a 1 w = (Some txs, w') ->
    (List.length txs <= 1)%nat /\
    forall tx, In tx txs -> tx_from tx = Some a.

(** The edge [e] copies a transaction the ledger returned for [address],
    one of those the Graph Builder reads of a page. *)
Definition copies (address : string) (e : Edge) : Prop :=
  exists w txs w' tx from to,
    _fetchAddressTransactions address 1 w = (Some txs, w') /\
    In tx (slice0 txs (maxTransactionsPerAddress config)) /\
    tx_from tx = Some from /\ tx_to tx = Some to /\
    e = edge_of from to tx.

(** Every node below depth 1 of the graph hangs; and what a call on [b]
    at depth [d + 1] keeps when it finds [b] hanging. *)
Definition hung (g : Graph) : Prop :=
  forall n, In n (NodeMap.values (nodes g)) -> 1 <= node_depth n ->
    hangs (NodeMap.values (nodes g)) (edges g) (node_address n) (node_depth n).

Definition visit_hangs (d : Z)
    (visit : string -> Graph * World -> option (Graph * World)) : Prop :=
  forall b g w g' w',
    hung g -> hangs (NodeMap.values (nodes g)) (edges g) b (d + 1) ->
    visit b (g, w) = Some (g', w') ->
    hung g' /\ grows g g'.

(** Every edge of the graph copies a transaction fetched for one of its
    nodes; and what a call keeps. *)
Definition sourced (g : Graph) : Prop :=
  forall e, In e (edges g) ->
    exists n, In n (NodeMap.values (nodes g)) /\ copies (node_address n) e.

Definition visit_sourced
    (visit : string -> Graph * World -> option (Graph * World)) : Prop :=
  forall b g w g' w',
    sourced g -> visit b (g, w) = Some (g', w') -> sourced g' /\ grows g g'.

(** A path added by a search from [current] at [depth]: the path so far,
    followed by a walk from [current] to the target of fewer than
    [maxDepth - depth] steps. *)
Definition walk (target : string) (maxDepth : Z) (current : string)
    (path : list string) (depth : Z) (p : list string) : Prop :=
  exists suffix,
    p = path ++ suffix /\
    chained (current :: suffix) /\
    toLowerCase (List.last suffix current) = toLowerCase target /\
    Z.of_nat (List.length suffix) < maxDepth - depth.

Definition search_walks (target : string) (maxDepth depth : Z)
    (search : string -> list string -> Search -> option Search) : Prop :=
  forall next path st st',
    search next path st = Some st' ->
    exists new,
      paths st' = paths st ++ new /\
      Forall (walk target maxDepth next path depth) new.

(** [1 + b + ... + b ^ (levels - 1)]: the nodes of a tree of [levels]
    levels in which every node has [b] children. *)
Fixpoint reach (b : Z) (levels : nat) : Z :=
  match levels with
  | O => 0
  | S levels' => 1 + b * reach b levels'
  end.

(** A call adds no more than [V] nodes. *)
Definition visit_adds (V : Z)
    (visit : string -> Graph * World -> option (Graph * World)) : Prop :=
  forall b st st', visit b st = Some st' ->
    node_total st <= node_total st' /\ node_total st' - node_total st <= V.

(** ** Properties of the node map *)

Lemma NodeMap_has_true m k :
  NodeMap.has m k = true <-> exists v, In (k, v) m.
Proof.
  unfold NodeMap.has. rewrite existsb_exists. split.
  - intros [[k' v] [Hin Heq]]. apply String.eqb_eq in Heq. simpl in Heq.
    subst. eauto.
  - intros [v Hin]. exists (k, v). split; [done|]. apply String.eqb_refl.
Qed.

Lemma NodeMap_has_false m k :
  NodeMap.has m k = false <-> ~ In k (map fst m).
Proof.
  rewrite <- not_true_iff_false, NodeMap_has_true, in_map_iff. split.
  - intros H [[k' v] [Hk Hin]]. simpl in Hk. subst. eauto.
  - intros H [v Hin]. apply H. exists (k, v). eauto.
Qed.

Lemma NodeMap_set_fresh m k v :
  NodeMap.has m k = false -> NodeMap.set m k v = m ++ [(k, v)].
Proof.
  induction m as [|[k' v'] m IH]; simpl; [done|].
  intros H. apply orb_false_iff in H as [Hk Hm]. rewrite Hk.
  by rewrite IH.
Qed.

Lemma NodeMap_has_app m m' k :
  NodeMap.has (m ++ m') k = NodeMap.has m k || NodeMap.has m' k.
Proof. unfold NodeMap.has. apply existsb_app. Qed.

Lemma NodeMap_has_set_same m k v :
  NodeMap.has m k = false -> NodeMap.has (NodeMap.set m k v) k = true.
Proof.
  intros H. rewrite NodeMap_set_fresh, NodeMap_has_app by done.
  simpl. rewrite String.eqb_refl. by rewrite orb_true_r.
Qed.

(** ** The Graph Builder keeps every invariant of its three updates *)


Lemma keeps_nodes_refl g : keeps_nodes g g.
Proof. by intros k. Qed.

Lemma keeps_nodes_trans g1 g2 g3 :
  keeps_nodes g1 g2 -> keeps_nodes g2 g3 -> keeps_nodes g1 g3.
Proof. intros H1 H2 k Hk. by apply H2, H1. Qed.

Lemma keeps_nodes_set g k v :
  NodeMap.has (nodes g) k = false -> keeps_nodes g (set_node g k v).
Proof.
  intros H k' Hk'. simpl. rewrite NodeMap_set_fresh, NodeMap_has_app by done.
  by rewrite Hk'.
Qed.

Section Invariant.

Variables (maxDepth : Z) (direction : string).

(** [Q a d]: what is known of a call on address [a] at depth [d];
    [Inv g]: the property of the graph. *)
Variable Q : string -> Z -> Prop.
Variable Inv : Graph -> Prop.

Hypothesis Q_next : forall a d b, Q a d -> d + 1 < maxDepth -> Q b (d + 1).

Hypothesis Inv_node : forall g a d,
  Inv g -> Q a d -> d < maxDepth -> NodeMap.has (nodes g) a = false ->
  Inv (set_node g a (mkNode a d (if (d =? 0)%Z then origin else intermediary))).

Hypothesis Inv_out : forall g a from to tx,
  Inv g -> NodeMap.has (nodes g) a = true ->
  direction = "out" \/ direction = "both" ->
  matches (Some from) a = true -> truthy_string to = true ->
  Inv (push_edge g (edge_of from to tx)).

Hypothesis Inv_in : forall g a from to tx,
  Inv g -> NodeMap.has (nodes g) a = true ->
  direction = "in" \/ direction = "both" ->
  matches (Some to) a = true -> truthy_string from = true ->
  Inv (push_edge g (edge_of from to tx)).


Lemma direction_cases (x y : string) :
  String.eqb direction x || String.eqb direction y = true ->
  direction = x \/ direction = y.
Proof.
  intros H. apply orb_true_iff in H as [H|H]; apply String.eqb_eq in H; auto.
Qed.

Lemma trace_out_invariant visit a d tx g w g' w' :
  visit_keeps Q Inv (d + 1) visit ->
  (d + 1 < maxDepth -> forall b, Q b (d + 1)) ->
  Inv g -> NodeMap.has (nodes g) a = true ->
  trace_out visit a d maxDepth direction tx (g, w) = Some (g', w') ->
  Inv g' /\ keeps_nodes g g'.
Proof using Inv_out.
  intros Hvisit HQ HI Ha. unfold trace_out.
  destruct (String.eqb direction "out" || String.eqb direction "both") eqn:Hdir;
    [|intros [= <- <-]; auto using keeps_nodes_refl].
  apply direction_cases in Hdir.
  destruct (tx_from tx) as [from|]; [|intros [= <- <-]; auto using keeps_nodes_refl].
  destruct (tx_to tx) as [to|]; [|intros [= <- <-]; auto using keeps_nodes_refl].
  destruct (matches (Some from) a && truthy_string to) eqn:Hm;
    [|intros [= <- <-]; auto using keeps_nodes_refl].
  apply andb_true_iff in Hm as [Hm Hto]. simpl fst; simpl snd.
  assert (Inv (push_edge g (edge_of from to tx))) as HI' by eauto.
  destruct (d + 1 <? maxDepth)%Z eqn:Hd.
  - intros Hv. apply Z.ltb_lt in Hd.
    apply Hvisit in Hv as [? Hk]; [|by auto|done]. split; [done|].
    intros k Hk'. by apply Hk.
  - intros [= <- <-]. split; [done|]. by intros k.
Qed.

Lemma trace_in_invariant visit a d tx g w g' w' :
  visit_keeps Q Inv (d + 1) visit ->
  (d + 1 < maxDepth -> forall b, Q b (d + 1)) ->
  Inv g -> NodeMap.has (nodes g) a = true ->
  trace_in visit a d maxDepth direction tx (g, w) = Some (g', w') ->
  Inv g' /\ keeps_nodes g g'.
Proof using Inv_in.
  intros Hvisit HQ HI Ha. unfold trace_in.
  destruct (String.eqb direction "in" || String.eqb direction "both") eqn:Hdir;
    [|intros [= <- <-]; auto using keeps_nodes_refl].
  apply direction_cases in Hdir.
  destruct (tx_to tx) as [to|]; [|intros [= <- <-]; auto using keeps_nodes_refl].
  destruct (tx_from tx) as [from|]; [|intros [= <- <-]; auto using keeps_nodes_refl].
  destruct (matches (Some to) a && truthy_string from) eqn:Hm;
    [|intros [= <- <-]; auto using keeps_nodes_refl].
  apply andb_true_iff in Hm as [Hm Hfrom]. simpl fst; simpl snd.
  assert (Inv (push_edge g (edge_of from to tx))) as HI' by eauto.
  destruct (d + 1 <? maxDepth)%Z eqn:Hd.
  - intros Hv. apply Z.ltb_lt in Hd.
    apply Hvisit in Hv as [? Hk]; [|by auto|done]. split; [done|].
    intros k Hk'. by apply Hk.
  - intros [= <- <-]. split; [done|]. by intros k.
Qed.

Lemma trace_loop_invariant visit a d txs :
  visit_keeps Q Inv (d + 1) visit ->
  (d + 1 < maxDepth -> forall b, Q b (d + 1)) ->
  forall g w g' w',
    Inv g -> NodeMap.has (nodes g) a = true ->
    trace_loop visit a d maxDepth direction txs (g, w) = Some (g', w') ->
    Inv g' /\ keeps_nodes g g'.
Proof using Inv_out Inv_in.
  intros Hvisit HQ. induction txs as [|tx txs IH]; intros g w g' w' HI Ha; simpl.
  - intros [= <- <-]. auto using keeps_nodes_refl.
  - destruct (trace_out visit a d maxDepth direction tx (g, w))
      as [[g1 w1]|] eqn:Hout; [|done].
    apply trace_out_invariant in Hout as [HI1 Hk1]; [|done..].
    destruct (trace_in visit a d maxDepth direction tx (g1, w1))
      as [[g2 w2]|] eqn:Hin; [|done].
    apply trace_in_invariant in Hin as [HI2 Hk2]; [|by auto..].
    intros Hloop. apply IH in Hloop as [HI3 Hk3]; [|by auto..].
    split; [done|]. eauto using keeps_nodes_trans.
Qed.

Lemma traceRecursive_invariant fuel :
  forall a d g w g' w',
    Q a d -> Inv g ->
    _traceRecursive fuel a (g, w) d maxDepth direction = Some (g', w') ->
    Inv g' /\ keeps_nodes g g'.
Proof using Q_next Inv_node Inv_out Inv_in.
  induction fuel as [|fuel IH]; intros a d g w g' w' HQ HI; simpl; [done|].
  destruct (d >=? maxDepth)%Z eqn:Hd;
    [intros [= <- <-]; auto using keeps_nodes_refl|].
  destruct (NodeMap.has (nodes g) a) eqn:Ha;
    [intros [= <- <-]; auto using keeps_nodes_refl|].
  assert (d < maxDepth) as Hlt by lia.
  pose proof (Inv_node g a d HI HQ Hlt Ha) as HI1.
  pose proof (keeps_nodes_set g a
    (mkNode a d (if (d =? 0)%Z then origin else intermediary)) Ha) as Hk1.
  destruct (_fetchAddressTransactions a 1 w) as [[txs|] w1].
  - intros Hloop. apply trace_loop_invariant in Hloop as [HI2 Hk2]; try done.
    + eauto using keeps_nodes_trans.
    + intros b g0 w0 g0' w0' HQb HI0 Hv. by eapply IH.
    + eauto.
    + simpl. by apply NodeMap_has_set_same.
  - intros [= <- <-]. auto.
Qed.

End Invariant.


(** ** The Graph Builder returns *)

Lemma trace_loop_total visit a d k dir txs :
  (d + 1 < k -> forall b st, is_Some (visit b st)) ->
  forall st, is_Some (trace_loop visit a d k dir txs st).
Proof.
  intros Hvisit. induction txs as [|tx txs IH]; intros st; simpl; [done|].
  assert (is_Some (trace_out visit a d k dir tx st)) as [st1 ->].
  { unfold trace_out. repeat case_match; try done.
    apply Hvisit. by apply Z.ltb_lt. }
  assert (is_Some (trace_in visit a d k dir tx st1)) as [st2 ->].
  { unfold trace_in. repeat case_match; try done.
    apply Hvisit. by apply Z.ltb_lt. }
  apply IH.
Qed.

(** A call at depth [d] nests at most [maxDepth - d] calls. *)
Lemma traceRecursive_total fuel :
  forall a st d k dir,
    (1 <= fuel)%nat -> k - d <= Z.of_nat fuel ->
    is_Some (_traceRecursive fuel a st d k dir).
Proof.
  induction fuel as [|fuel IH]; intros a st d k dir Hpos Hfuel; [lia|].
  simpl.
  destruct (d >=? k)%Z eqn:Hd; [done|].
  destruct (NodeMap.has (nodes st.1) a); [done|].
  destruct (_fetchAddressTransactions a 1 st.2) as [[txs|] w1]; [|done].
  apply trace_loop_total. intros Hlt b st'. apply IH; lia.
Qed.

Lemma traceFromAddress_total address options now w :
  truthy_string address = true ->
  exists fg w', traceFromAddress address options now w = Some (Ok fg, w').
Proof.
  intros Ha. unfold traceFromAddress, _validateAddress. rewrite Ha. cbn [negb].
  set (k := or_Z (opt_depth options) (maxDepth config)).
  destruct (traceRecursive_total (trace_fuel k) address
              (mkGraph [] [] address (mkMetadata (network config) k now), w)
              0 k (or_string (opt_direction options) "both"))
    as [[g' w'] Hrun].
  - unfold trace_fuel. lia.
  - unfold trace_fuel. lia.
  - rewrite Hrun. eauto.
Qed.


(** ** Reading a run of [traceFromAddress] *)


Lemma traceFromAddress_inv address options now w fg w' :
  traceFromAddress address options now w = Some (Ok fg, w') ->
  exists g',
    fg = _formatGraph g' /\
    _traceRecursive (trace_fuel (or_Z (opt_depth options) (maxDepth config)))
      address (empty_graph address options now, w) 0
      (or_Z (opt_depth options) (maxDepth config))
      (or_string (opt_direction options) "both") = Some (g', w').
Proof.
  unfold traceFromAddress, empty_graph.
  destruct (_validateAddress address); [|by intros [= ]].
  destruct (_traceRecursive _ _ _ _ _ _) as [[g' w'']|]; [|done].
  intros [= <- <-]. eauto.
Qed.

(** A call that passes both guards inserts its node and runs the loop. *)
Lemma traceRecursive_expand fuel a g w d k dir g' w' :
  _traceRecursive (S fuel) a (g, w) d k dir = Some (g', w') ->
  d < k -> NodeMap.has (nodes g) a = false ->
  let g1 := set_node g a (mkNode a d (if (d =? 0)%Z then origin else intermediary)) in
  match _fetchAddressTransactions a 1 w with
  | (Some txs, w1) =>
      trace_loop (fun b st => _traceRecursive fuel b st (d + 1) k dir)
        a d k dir (slice0 txs (maxTransactionsPerAddress config)) (g1, w1)
      = Some (g', w')
  | (None, w1) => g' = g1 /\ w' = w1
  end.
Proof.
  intros Hrun Hd Ha. simpl in Hrun.
  replace (d >=? k)%Z with false in Hrun by lia.
  simpl in Ha. rewrite Ha in Hrun. simpl.
  destruct (_fetchAddressTransactions a 1 w) as [[txs|] w1]; [done|].
  by injection Hrun as <- <-.
Qed.

(** ** Depth and kind of the nodes *)


Lemma seeded_set_node seed k g a d :
  seeded seed k g -> 1 <= d < k -> NodeMap.has (nodes g) a = false ->
  seeded seed k
    (set_node g a (mkNode a d (if (d =? 0)%Z then origin else intermediary))).
Proof.
  intros (rest & Hnodes & Hnodup & Hrest) Hd Ha.
  exists (rest ++ [(a, mkNode a d intermediary)]). simpl.
  rewrite NodeMap_set_fresh by done. replace (d =? 0)%Z with false by lia.
  split; [by rewrite Hnodes|]. split.
  - rewrite map_app. simpl. apply NoDup_app. split; [done|]. split.
    + intros x Hx Hx'. apply NodeMap_has_false in Ha.
      apply list_elem_of_In in Hx. apply list_elem_of_singleton in Hx'.
      by subst.
    + apply NoDup_singleton.
  - intros key n Hin. apply in_app_iff in Hin as [Hin|[[= <- <-]|[]]]; auto.
Qed.

Lemma seeded_nodes seed k g n :
  seeded seed k g -> In n (NodeMap.values (nodes g)) ->
  0 <= node_depth n /\
  (0 < k -> node_depth n < k) /\
  (node_address n = seed -> node_depth n = 0 /\ node_type n = origin) /\
  (node_address n <> seed -> node_type n = intermediary).
Proof.
  intros (rest & Hnodes & Hnodup & Hrest) Hin.
  unfold NodeMap.values in Hin. apply in_map_iff in Hin as [[key n'] [<- Hin]].
  rewrite Hnodes in Hin, Hnodup. simpl in *.
  destruct Hin as [[= <- <-]|Hin]; simpl; [repeat split; (lia || done)|].
  destruct (Hrest _ _ Hin) as (Hkey & Hd & Hty).
  assert (node_address n' <> seed) as Hne.
  { intros Hseed. apply NoDup_cons in Hnodup as [Hnot _].
    apply Hnot. apply list_elem_of_In, in_map_iff. exists (key, n').
    simpl. split; [congruence|done]. }
  repeat split; try lia; try done.
Qed.

Lemma seeded_push_edge seed k g e :
  seeded seed k g -> seeded seed k (push_edge g e).
Proof. done. Qed.

Lemma traceRecursive_seeded seed k dir fuel a d g w g' w' :
  1 <= d -> seeded seed k g ->
  _traceRecursive fuel a (g, w) d k dir = Some (g', w') ->
  seeded seed k g'.
Proof.
  intros Hd Hg Hrun.
  apply (traceRecursive_invariant k dir (fun _ d => 1 <= d) (seeded seed k))
    in Hrun as [Hinv _]; try done.
  - intros; lia.
  - intros g2 a2 d2 Hg2 Hd2 Hlt Ha. apply seeded_set_node; [done|lia|done].
Qed.

Lemma traceFromAddress_depths address options now w fg w' :
  traceFromAddress address options now w = Some (Ok fg, w') ->
  let k := or_Z (opt_depth options) (maxDepth config) in
  (forall n, In n (fg_nodes fg) ->
     0 <= node_depth n < k /\
     (node_address n = address -> node_depth n = 0 /\ node_type n = origin) /\
     (node_address n <> address -> node_type n = intermediary)) /\
  (0 < k -> In (mkNode address 0 origin) (fg_nodes fg)).
Proof.
  intros Hrun k. apply traceFromAddress_inv in Hrun as (g' & -> & Hrun).
  fold k in Hrun. unfold trace_fuel in Hrun.
  destruct (Z.ltb_spec 0 k) as [Hk|Hk].
  - assert (seeded address k g') as Hseeded.
    { apply traceRecursive_expand in Hrun; [|done..].
      set (g1 := set_node _ _ _) in Hrun.
      assert (seeded address k g1) as Hg1.
      { exists []. simpl. split; [done|]. split; [apply NoDup_singleton|].
        by intros ? ? []. }
      destruct (_fetchAddressTransactions address 1 w) as [[txs|] w1];
        [|by destruct Hrun as [-> _]].
      apply (trace_loop_invariant k _ (fun _ d => 1 <= d) (seeded address k))
        in Hrun as [Hinv _]; try done.
      - intros b g w0 g0 w0' Hb Hg Hv. split.
        + by eapply traceRecursive_seeded.
        + apply (traceRecursive_invariant k _ (fun _ _ => True) (fun _ => True))
            in Hv as [_ ?]; done.
      - by apply NodeMap_has_set_same. }
    split.
    + intros n Hin.
      destruct (seeded_nodes _ _ _ _ Hseeded Hin) as (Hlo & Hhi & Hseed & Hother).
      specialize (Hhi Hk). auto.
    + intros _. destruct Hseeded as (rest & Hnodes & _). simpl.
      unfold NodeMap.values. rewrite Hnodes. simpl. by left.
  - simpl in Hrun. replace (0 >=? k)%Z with true in Hrun by lia.
    injection Hrun as <- <-. simpl. split; [done|lia].
Qed.

(** C5 (depth bound): [traceFromAddress] on a non-empty seed address, with
    depth bound [k], returns a graph in which every node has a depth from 0
    to [k - 1]; the node of the seed address is at depth 0 and of kind
    origin, every other node is an intermediary; and when [0 < k] the seed's
    node is in the graph. *)
Theorem traceFromAddress_depth_bound address options now w :
  truthy_string address = true ->
  exists fg w',
    traceFromAddress address options now w = Some (Ok fg, w') /\
    let k := or_Z (opt_depth options) (maxDepth config) in
    (forall n, In n (fg_nodes fg) ->
       0 <= node_depth n < k /\
       (node_address n = address -> node_depth n = 0 /\ node_type n = origin) /\
       (node_address n <> address -> node_type n = intermediary)) /\
    (0 < k -> In (mkNode address 0 origin) (fg_nodes fg)).
Proof.
  intros Haddress.
  destruct (traceFromAddress_total address options now w Haddress)
    as (fg & w' & Hrun).
  exists fg, w'. split; [done|]. by eapply traceFromAddress_depths.
Qed.


Lemma traceRecursive_keeps_nodes fuel a d k dir g w g' w' :
  _traceRecursive fuel a (g, w) d k dir = Some (g', w') -> keeps_nodes g g'.
Proof.
  intros Hrun.
  by apply (traceRecursive_invariant k dir (fun _ _ => True) (fun _ => True))
    in Hrun as [_ ?].
Qed.

(** ** No key of the node map occurs twice *)

Lemma traceFromAddress_keys_NoDup address options now w fg w' :
  traceFromAddress address options now w = Some (Ok fg, w') ->
  NoDup (map node_address (fg_nodes fg)).
Proof.
  intros Hrun. apply traceFromAddress_inv in Hrun as (g' & -> & Hrun).
  apply (traceRecursive_invariant _ _ (fun _ _ => True)
           (fun g => NoDup (map fst (nodes g)) /\
                     forall key n, In (key, n) (nodes g) -> node_address n = key))
    in Hrun as [[Hnodup Hkeys] _]; try done.
  - simpl. unfold NodeMap.values. rewrite map_map.
    erewrite map_ext_in; [done|]. intros [key n] Hin. simpl. eauto.
  - intros g a d [Hnodup Hkeys] _ _ Ha. simpl.
    rewrite NodeMap_set_fresh by done. split.
    + rewrite map_app. simpl. apply NoDup_app. split; [done|]. split.
      * intros x Hx Hx'. apply NodeMap_has_false in Ha.
        apply list_elem_of_In in Hx. apply list_elem_of_singleton in Hx'.
        by subst.
      * apply NoDup_singleton.
    + intros key n Hin. apply in_app_iff in Hin as [Hin|[[= <- <-]|[]]]; auto.
  - split; [apply NoDup_nil_2|]. by intros ? ? [].
Qed.

(** ** Edges are appended at the address being expanded *)

Lemma matches_case_equal x a :
  matches (Some x) a = true -> toLowerCase x = toLowerCase a.
Proof.
  unfold matches. intros H. apply andb_true_iff in H as [_ H].
  by apply String.eqb_eq.
Qed.

(** *** The run with its history is the run *)

Lemma trace_out_events_erase visit_e visit a d k dir tx st events :
  (forall b st' events',
     option_map fst (visit_e b (st', events')) = visit b st') ->
  option_map fst (trace_out_events visit_e a d k dir tx (st, events)) =
  trace_out visit a d k dir tx st.
Proof.
  intros Hvisit. unfold trace_out_events, trace_out. cbn [fst snd].
  destruct (String.eqb dir "out" || String.eqb dir "both"); [|done].
  destruct (tx_from tx) as [from|]; [|done].
  destruct (tx_to tx) as [to|]; [|done].
  destruct (matches (Some from) a && truthy_string to); [|done].
  destruct (d + 1 <? k)%Z; [apply Hvisit|done].
Qed.

Lemma trace_in_events_erase visit_e visit a d k dir tx st events :
  (forall b st' events',
     option_map fst (visit_e b (st', events')) = visit b st') ->
  option_map fst (trace_in_events visit_e a d k dir tx (st, events)) =
  trace_in visit a d k dir tx st.
Proof.
  intros Hvisit. unfold trace_in_events, trace_in. cbn [fst snd].
  destruct (String.eqb dir "in" || String.eqb dir "both"); [|done].
  destruct (tx_to tx) as [to|]; [|done].
  destruct (tx_from tx) as [from|]; [|done].
  destruct (matches (Some to) a && truthy_string from); [|done].
  destruct (d + 1 <? k)%Z; [apply Hvisit|done].
Qed.

Lemma trace_loop_events_erase visit_e visit a d k dir txs :
  (forall b st' events',
     option_map fst (visit_e b (st', events')) = visit b st') ->
  forall st events,
    option_map fst (trace_loop_events visit_e a d k dir txs (st, events)) =
    trace_loop visit a d k dir txs st.
Proof.
  intros Hvisit. induction txs as [|tx txs IH]; intros st events; [done|].
  cbn [trace_loop_events trace_loop].
  rewrite <- (trace_out_events_erase visit_e visit a d k dir tx st events Hvisit).
  destruct (trace_out_events visit_e a d k dir tx (st, events))
    as [[st1 events1]|]; [|done].
  cbn [option_map fst].
  rewrite <- (trace_in_events_erase visit_e visit a d k dir tx st1 events1 Hvisit).
  destruct (trace_in_events visit_e a d k dir tx (st1, events1))
    as [[st2 events2]|]; [|done].
  cbn [option_map fst]. apply IH.
Qed.

(** Without its events, the run with its history is [_traceRecursive]. *)
Lemma traceRecursive_events_erase fuel :
  forall a st events d k dir,
    option_map fst (_traceRecursive_events fuel a (st, events) d k dir) =
    _traceRecursive fuel a st d k dir.
Proof.
  induction fuel as [|fuel IH]; intros a st events d k dir; [done|].
  cbn [_traceRecursive_events _traceRecursive fst snd].
  destruct (d >=? k)%Z; [done|].
  destruct (NodeMap.has (nodes (fst st)) a); [done|].
  destruct (_fetchAddressTransactions a 1 (snd st)) as [[txs|] w1]; [|done].
  apply trace_loop_events_erase. intros b st' events'. apply IH.
Qed.

(** *** The events of a run *)

Lemma replay_snoc events ev g :
  replay (events ++ [ev]) g = apply_event (replay events g) ev.
Proof. unfold replay. by rewrite fold_left_app. Qed.

Lemma replay_app events events' g :
  replay (events ++ events') g = replay events' (replay events g).
Proof. unfold replay. by rewrite fold_left_app. Qed.

Lemma obeys_snoc P events ev :
  forall g,
    obeys P (events ++ [ev]) g <->
    obeys P events g /\ permitted P ev (replay events g).
Proof.
  induction events as [|ev' events IH]; intros g; cbn [app obeys].
  - unfold replay. cbn [fold_left]. tauto.
  - rewrite IH. unfold replay. cbn [fold_left]. tauto.
Qed.

(** An event of a list that obeys [P] is permitted in the graph of the
    events before it. *)
Lemma obeys_split P before ev after :
  forall g,
    obeys P (before ++ ev :: after) g -> permitted P ev (replay before g).
Proof.
  induction before as [|ev' before IH]; intros g; cbn [app obeys].
  - by intros [? _].
  - intros [_ H]. by apply IH in H.
Qed.

Section Histories.

Variables (maxDepth : Z) (direction : string).
Variable P : string -> Tx -> Edge -> Prop.
Variable g0 : Graph.

Hypothesis P_out : forall a tx from to,
  direction = "out" \/ direction = "both" ->
  tx_from tx = Some from -> tx_to tx = Some to ->
  matches (Some from) a = true -> P a tx (edge_of from to tx).

Hypothesis P_in : forall a tx from to,
  direction = "in" \/ direction = "both" ->
  tx_from tx = Some from -> tx_to tx = Some to ->
  matches (Some to) a = true -> P a tx (edge_of from to tx).

Lemma kept_appended a tx e g w events :
  kept P g0 ((g, w), events) -> P a tx e -> NodeMap.has (nodes g) a = true ->
  kept P g0 ((push_edge g e, w), events ++ [Appended a tx e]).
Proof.
  unfold kept. cbn [fst snd]. intros [Hg Hobeys] HP Ha. split.
  - rewrite replay_snoc. cbn [apply_event]. by rewrite Hg.
  - apply obeys_snoc. split; [done|]. cbn [permitted]. by rewrite <- Hg.
Qed.

Lemma kept_inserted a n g w w1 events :
  kept P g0 ((g, w), events) ->
  kept P g0 ((set_node g a n, w1), events ++ [Inserted a n]).
Proof.
  unfold kept. cbn [fst snd]. intros [Hg Hobeys]. split.
  - rewrite replay_snoc. cbn [apply_event]. by rewrite Hg.
  - apply obeys_snoc. by split.
Qed.

Lemma trace_out_events_kept visit a d tx h h' :
  visit_kept P g0 visit ->
  kept P g0 h -> NodeMap.has (nodes (fst (fst h))) a = true ->
  trace_out_events visit a d maxDepth direction tx h = Some h' ->
  kept P g0 h' /\ keeps_nodes (fst (fst h)) (fst (fst h')).
Proof using P_out.
  intros Hvisit Hkept Ha. unfold trace_out_events.
  destruct (String.eqb direction "out" || String.eqb direction "both") eqn:Hdir;
    [|intros [= <-]; auto using keeps_nodes_refl].
  apply direction_cases in Hdir.
  destruct (tx_from tx) as [from|] eqn:Hfrom;
    [|intros [= <-]; auto using keeps_nodes_refl].
  destruct (tx_to tx) as [to|] eqn:Hto;
    [|intros [= <-]; auto using keeps_nodes_refl].
  destruct (matches (Some from) a && truthy_string to) eqn:Hm;
    [|intros [= <-]; auto using keeps_nodes_refl].
  apply andb_true_iff in Hm as [Hm _].
  destruct h as [[g w] events]. cbn [fst snd] in *.
  assert (kept P g0 ((push_edge g (edge_of from to tx), w),
                     events ++ [Appended a tx (edge_of from to tx)])) as Hkept'.
  { apply kept_appended; eauto. }
  destruct (d + 1 <? maxDepth)%Z.
  - intros Hv. apply Hvisit in Hv as [? Hk]; [|done]. split; [done|].
    intros key Hkey. by apply Hk.
  - intros [= <-]. split; [done|]. by intros key.
Qed.

Lemma trace_in_events_kept visit a d tx h h' :
  visit_kept P g0 visit ->
  kept P g0 h -> NodeMap.has (nodes (fst (fst h))) a = true ->
  trace_in_events visit a d maxDepth direction tx h = Some h' ->
  kept P g0 h' /\ keeps_nodes (fst (fst h)) (fst (fst h')).
Proof using P_in.
  intros Hvisit Hkept Ha. unfold trace_in_events.
  destruct (String.eqb direction "in" || String.eqb direction "both") eqn:Hdir;
    [|intros [= <-]; auto using keeps_nodes_refl].
  apply direction_cases in Hdir.
  destruct (tx_to tx) as [to|] eqn:Hto;
    [|intros [= <-]; auto using keeps_nodes_refl].
  destruct (tx_from tx) as [from|] eqn:Hfrom;
    [|intros [= <-]; auto using keeps_nodes_refl].
  destruct (matches (Some to) a && truthy_string from) eqn:Hm;
    [|intros [= <-]; auto using keeps_nodes_refl].
  apply andb_true_iff in Hm as [Hm _].
  destruct h as [[g w] events]. cbn [fst snd] in *.
  assert (kept P g0 ((push_edge g (edge_of from to tx), w),
                     events ++ [Appended a tx (edge_of from to tx)])) as Hkept'.
  { apply kept_appended; eauto. }
  destruct (d + 1 <? maxDepth)%Z.
  - intros Hv. apply Hvisit in Hv as [? Hk]; [|done]. split; [done|].
    intros key Hkey. by apply Hk.
  - intros [= <-]. split; [done|]. by intros key.
Qed.

Lemma trace_loop_events_kept visit a d txs :
  visit_kept P g0 visit ->
  forall h h',
    kept P g0 h -> NodeMap.has (nodes (fst (fst h))) a = true ->
    trace_loop_events visit a d maxDepth direction txs h = Some h' ->
    kept P g0 h' /\ keeps_nodes (fst (fst h)) (fst (fst h')).
Proof using P_out P_in.
  intros Hvisit. induction txs as [|tx txs IH]; intros h h' Hkept Ha;
    cbn [trace_loop_events].
  - intros [= <-]. auto using keeps_nodes_refl.
  - destruct (trace_out_events visit a d maxDepth direction tx h)
      as [h1|] eqn:Hout; [|done].
    apply trace_out_events_kept in Hout as [Hkept1 Hk1]; [|done..].
    destruct (trace_in_events visit a d maxDepth direction tx h1)
      as [h2|] eqn:Hin; [|done].
    apply trace_in_events_kept in Hin as [Hkept2 Hk2]; [|by auto..].
    intros Hloop. apply IH in Hloop as [Hkept3 Hk3]; [|by auto..].
    split; [done|]. eauto using keeps_nodes_trans.
Qed.

(** The graph of the run is the replay of its events, each of which is
    permitted at its moment. *)
Lemma traceRecursive_events_kept fuel :
  forall a d h h',
    kept P g0 h ->
    _traceRecursive_events fuel a h d maxDepth direction = Some h' ->
    kept P g0 h' /\ keeps_nodes (fst (fst h)) (fst (fst h')).
Proof using P_out P_in.
  induction fuel as [|fuel IH]; intros a d h h' Hkept;
    cbn [_traceRecursive_events]; [done|].
  destruct (d >=? maxDepth)%Z;
    [intros [= <-]; auto using keeps_nodes_refl|].
  destruct (NodeMap.has (nodes (fst (fst h))) a) eqn:Ha;
    [intros [= <-]; auto using keeps_nodes_refl|].
  destruct h as [[g w] events]. cbn [fst snd] in *.
  set (n := mkNode a d (if (d =? 0)%Z then origin else intermediary)).
  pose proof (keeps_nodes_set g a n Ha) as Hk1.
  destruct (_fetchAddressTransactions a 1 w) as [[txs|] w1].
  - intros Hloop. apply trace_loop_events_kept in Hloop as [Hkept2 Hk2].
    + split; [done|]. eauto using keeps_nodes_trans.
    + intros b h1 h1' Hkept1 Hv. by eapply IH.
    + by apply (kept_inserted a n g w).
    + cbn [fst snd nodes set_node]. by apply NodeMap_has_set_same.
  - intros [= <-]. split; [|done]. by apply (kept_inserted a n g w).
Qed.

End Histories.

(** Under a one-sided direction filter every edge has its end at a node. *)
Lemma traceRecursive_anchored endpoint dir fuel a d k g w g' w' :
  (dir = "out" /\ endpoint = edge_from) \/ (dir = "in" /\ endpoint = edge_to) ->
  (forall key n, In (key, n) (nodes g) -> node_address n = key) ->
  anchored endpoint (NodeMap.values (nodes g)) (edges g) ->
  _traceRecursive fuel a (g, w) d k dir = Some (g', w') ->
  anchored endpoint (NodeMap.values (nodes g')) (edges g').
Proof.
  intros Hdir Hkeys Hanch Hrun.
  apply (traceRecursive_invariant k dir (fun _ _ => True)
           (fun g => anchored endpoint (NodeMap.values (nodes g)) (edges g) /\
                     forall key n, In (key, n) (nodes g) -> node_address n = key))
    in Hrun as [[? _] _]; try done.
  - intros g1 a1 d1 [Hanch1 Hk1] _ _ Ha1. cbn [nodes edges set_node].
    rewrite NodeMap_set_fresh by done. split.
    + intros e Hin. destruct (Hanch1 e Hin) as (n & Hn & He). exists n.
      split; [|done]. unfold NodeMap.values in *. rewrite map_app.
      apply in_app_iff. by left.
    + intros key n Hin. apply in_app_iff in Hin as [Hin|[[= <- <-]|[]]]; auto.
  - intros g1 a1 from to tx [Hanch1 Hk1] Ha1 Hd Hm _. split; [|done].
    destruct Hdir as [[-> ->]|[-> ->]]; [|by destruct Hd].
    apply NodeMap_has_true in Ha1 as [n Hn].
    intros e Hin. cbn [edges push_edge] in Hin.
    apply in_app_iff in Hin as [Hin|[<-|[]]]; [by apply Hanch1|].
    exists n. split.
    + unfold NodeMap.values. apply in_map_iff. by exists (a1, n).
    + cbn. rewrite (Hk1 _ _ Hn). by apply matches_case_equal.
  - intros g1 a1 from to tx [Hanch1 Hk1] Ha1 Hd Hm _. split; [|done].
    destruct Hdir as [[-> ->]|[-> ->]]; [by destruct Hd|].
    apply NodeMap_has_true in Ha1 as [n Hn].
    intros e Hin. cbn [edges push_edge] in Hin.
    apply in_app_iff in Hin as [Hin|[<-|[]]]; [by apply Hanch1|].
    exists n. split.
    + unfold NodeMap.values. apply in_map_iff. by exists (a1, n).
    + cbn. rewrite (Hk1 _ _ Hn). by apply matches_case_equal.
Qed.

(** The events of a run under the direction [dir], read one by one. *)
Lemma traceRecursive_events_filter P dir fuel a k g0 w g' w' events :
  (forall a tx from to,
     dir = "out" \/ dir = "both" ->
     tx_from tx = Some from -> tx_to tx = Some to ->
     matches (Some from) a = true -> P a tx (edge_of from to tx)) ->
  (forall a tx from to,
     dir = "in" \/ dir = "both" ->
     tx_from tx = Some from -> tx_to tx = Some to ->
     matches (Some to) a = true -> P a tx (edge_of from to tx)) ->
  _traceRecursive_events fuel a ((g0, w), []) 0 k dir = Some ((g', w'), events) ->
  g' = replay events g0 /\
  forall before b tx e after,
    events = before ++ Appended b tx e :: after ->
    P b tx e /\ NodeMap.has (nodes (replay before g0)) b = true.
Proof.
  intros Hout Hin Hrun.
  apply (traceRecursive_events_kept k dir P g0 Hout Hin) in Hrun as [[Hg Hobeys] _];
    [|by split].
  cbn [fst snd] in *. split; [done|].
  intros before b tx e after ->. by apply obeys_split in Hobeys.
Qed.

(** C6 (direction filter): [traceFromAddress] on a non-empty seed address
    returns a graph [g'], and the run with its history returns the same
    graph with the list of the insertions and appends in the order in which
    they were made, of which [g'] is the replay.  Under direction [out],
    every append of that list, made in the loop of the call on an address
    [a] for a transaction [tx], has [tx]'s sender matching [a] (so that no
    edge is appended for a transaction that only arrives at [a]), the edge's
    [from] case-equals [a], and [a] is a key of the node map replayed from
    the events before the append.  Under direction [in] the same holds of
    the receiver and [to].  In particular every edge of the result has that
    end at a node of the result. *)
Theorem traceFromAddress_direction_filter address options now w :
  truthy_string address = true ->
  exists fg w' g' events,
    traceFromAddress address options now w = Some (Ok fg, w') /\
    fg = _formatGraph g' /\
    _traceRecursive_events
      (trace_fuel (or_Z (opt_depth options) (maxDepth config))) address
      ((empty_graph address options now, w), []) 0
      (or_Z (opt_depth options) (maxDepth config))
      (or_string (opt_direction options) "both") = Some ((g', w'), events) /\
    g' = replay events (empty_graph address options now) /\
    (or_string (opt_direction options) "both" = "out" ->
       (forall before a tx e after,
          events = before ++ Appended a tx e :: after ->
          leaves a tx e /\
          toLowerCase (edge_from e) = toLowerCase a /\
          NodeMap.has
            (nodes (replay before (empty_graph address options now))) a = true) /\
       anchored edge_from (fg_nodes fg) (fg_edges fg)) /\
    (or_string (opt_direction options) "both" = "in" ->
       (forall before a tx e after,
          events = before ++ Appended a tx e :: after ->
          arrives a tx e /\
          toLowerCase (edge_to e) = toLowerCase a /\
          NodeMap.has
            (nodes (replay before (empty_graph address options now))) a = true) /\
       anchored edge_to (fg_nodes fg) (fg_edges fg)).
Proof.
  intros Haddress.
  destruct (traceFromAddress_total address options now w Haddress)
    as (fg & w' & Hrun).
  apply traceFromAddress_inv in Hrun as Hinv. destruct Hinv as (g' & -> & Hrec).
  pose proof (traceRecursive_events_erase
                (trace_fuel (or_Z (opt_depth options) (maxDepth config))) address
                (empty_graph address options now, w) [] 0
                (or_Z (opt_depth options) (maxDepth config))
                (or_string (opt_direction options) "both")) as Herase.
  rewrite Hrec in Herase.
  destruct (_traceRecursive_events _ _ _ _ _ _) as [[[g1 w1] events]|] eqn:Hev;
    [|done].
  injection Herase as -> ->.
  exists (_formatGraph g'), w', g', events.
  split; [done|]. split; [done|]. split; [done|].
  split; [|split].
  - by apply (traceRecursive_events_filter (fun _ _ _ => True)) in Hev as [? _].
  - intros Hdir. rewrite Hdir in Hev, Hrec. split.
    + intros before a tx e after Hsplit.
      apply (traceRecursive_events_filter leaves) in Hev as [_ Hev].
      * destruct (Hev _ _ _ _ _ Hsplit) as [Hout Ha]. split; [done|].
        split; [|done].
        destruct Hout as (from & to & _ & _ & -> & Hm).
        by apply matches_case_equal.
      * intros a1 tx1 from to _ Hfrom Hto Hm. by exists from, to.
      * by intros a1 tx1 from to [|].
    + eapply (traceRecursive_anchored edge_from); [| | |exact Hrec];
        [by left|by intros ? ? []|by intros ? []].
  - intros Hdir. rewrite Hdir in Hev, Hrec. split.
    + intros before a tx e after Hsplit.
      apply (traceRecursive_events_filter arrives) in Hev as [_ Hev].
      * destruct (Hev _ _ _ _ _ Hsplit) as [Hinc Ha]. split; [done|].
        split; [|done].
        destruct Hinc as (from & to & _ & _ & -> & Hm).
        by apply matches_case_equal.
      * by intros a1 tx1 from to [|].
      * intros a1 tx1 from to _ Hfrom Hto Hm. by exists from, to.
    + eapply (traceRecursive_anchored edge_to); [| | |exact Hrec];
        [by right|by intros ? ? []|by intros ? []].
Qed.


(** ** Edges found at the last depth *)

(** At depth [maxDepth - 1] the loop appends edges and does nothing else. *)
Lemma trace_loop_leaf visit a d k dir txs :
  k <= d + 1 ->
  forall g w g' w',
    trace_loop visit a d k dir txs (g, w) = Some (g', w') ->
    nodes g' = nodes g /\ w' = w /\ exists es, edges g' = edges g ++ es.
Proof.
  intros Hk. induction txs as [|tx txs IH]; intros g w g' w'; simpl.
  - intros [= <- <-]. repeat split. exists []. by rewrite app_nil_r.
  - assert (exists es1, trace_out visit a d k dir tx (g, w)
              = Some (mkGraph (nodes g) (edges g ++ es1) (startAddress g) (metadata g), w))
      as [es1 ->].
    { unfold trace_out. replace (d + 1 <? k)%Z with false by lia.
      repeat case_match; simpl;
        solve [ by exists []; rewrite app_nil_r; destruct g
              | by eexists [_] ]. }
    set (g1 := mkGraph _ _ _ _).
    assert (exists es2, trace_in visit a d k dir tx (g1, w)
              = Some (mkGraph (nodes g1) (edges g1 ++ es2) (startAddress g1) (metadata g1), w))
      as [es2 ->].
    { unfold trace_in. replace (d + 1 <? k)%Z with false by lia.
      repeat case_match; simpl;
        solve [ by exists []; rewrite app_nil_r
              | by eexists [_] ]. }
    intros Hloop. apply IH in Hloop as (Hn & Hw & es & He). simpl in *.
    repeat split; [done..|]. exists (es1 ++ es2 ++ es).
    rewrite He. by rewrite <- !app_assoc.
Qed.

(** C10 (edges without nodes): when the seed is expanded at the last depth
    (the depth bound is 1) and its first transaction is an outgoing one to
    another address [to], the graph has the edge to [to], its only node is
    the seed's, and so no node stands for [to]. *)
Theorem traceFromAddress_edge_without_node seed tx rest from to now w w1 :
  truthy_string seed = true ->
  _fetchAddressTransactions seed 1 w = (Some (tx :: rest), w1) ->
  1 <= maxTransactionsPerAddress config ->
  tx_from tx = Some from -> tx_to tx = Some to ->
  matches (Some from) seed = true -> truthy_string to = true ->
  to <> seed ->
  exists fg w',
    traceFromAddress seed (mkOptions (Some 1) (Some "out")) now w
      = Some (Ok fg, w') /\
    In (edge_of from to tx) (fg_edges fg) /\
    fg_nodes fg = [mkNode seed 0 origin] /\
    ~ (exists n, In n (fg_nodes fg) /\ node_address n = to).
Proof.
  intros Hseed Hfetch Hcap Hfrom Hto Hm Htruthy Hne.
  destruct (traceFromAddress_total seed (mkOptions (Some 1) (Some "out")) now w Hseed)
    as (fg & w' & Hrun).
  exists fg, w'. split; [done|].
  apply traceFromAddress_inv in Hrun as (g' & -> & Hrun).
  cbn [or_Z opt_depth opt_direction or_string] in Hrun.
  change (1 =? 0)%Z with false in Hrun.
  change (truthy_string "out") with true in Hrun. cbv iota in Hrun.
  unfold trace_fuel in Hrun.
  apply traceRecursive_expand in Hrun; [|done..].
  rewrite Hfetch in Hrun.
  assert (slice0 (tx :: rest) (maxTransactionsPerAddress config)
          = tx :: firstn (Z.to_nat (maxTransactionsPerAddress config - 1)) rest)
    as Hslice.
  { unfold slice0. replace (_ <? 0)%Z with false by lia.
    replace (Z.to_nat (maxTransactionsPerAddress config))
      with (S (Z.to_nat (maxTransactionsPerAddress config - 1))) by lia.
    done. }
  rewrite Hslice in Hrun. cbn [trace_loop] in Hrun.
  set (g1 := set_node _ _ _) in Hrun.
  assert (trace_out
            (fun b st => _traceRecursive (Z.to_nat 1) b st (0 + 1) 1 "out")
            seed 0 1 "out" tx (g1, w1)
          = Some (push_edge g1 (edge_of from to tx), w1)) as Hout.
  { unfold trace_out. rewrite Hfrom, Hto, Hm, Htruthy. done. }
  rewrite Hout in Hrun.
  assert (trace_in
            (fun b st => _traceRecursive (Z.to_nat 1) b st (0 + 1) 1 "out")
            seed 0 1 "out" tx (push_edge g1 (edge_of from to tx), w1)
          = Some (push_edge g1 (edge_of from to tx), w1)) as Hin by done.
  rewrite Hin in Hrun.
  apply trace_loop_leaf in Hrun as (Hnodes & _ & es & Hedges); [|lia].
  assert (fg_nodes (_formatGraph g') = [mkNode seed 0 origin]) as Hfg.
  { simpl. by rewrite Hnodes. }
  split; [|split; [done|]].
  - simpl. rewrite Hedges. simpl. by left.
  - rewrite Hfg. intros (n & Hn & Haddr). destruct Hn as [<-|[]].
    simpl in Haddr. congruence.
Qed.


(** ** The Path Finder *)




Lemma revisit_restore (a : string) (v : gset string) :
  a ∉ v -> ({[a]} ∪ v) ∖ {[a]} = v.
Proof.
  intros Ha. apply set_eq. intros x.
  rewrite elem_of_difference, elem_of_union, elem_of_singleton. split.
  - by intros [[->|?] ?].
  - intros Hx. split; [by right|]. by intros ->.
Qed.

Lemma simple_snoc pre next v :
  tracks v pre -> simple pre -> toLowerCase next ∉ v -> simple (pre ++ [next]).
Proof.
  unfold simple, tracks. intros Hv Hpre Hnext. rewrite map_app. simpl.
  apply NoDup_app. split; [done|]. split; [|apply NoDup_singleton].
  intros x Hx Hx'. apply list_elem_of_singleton in Hx'. subst.
  apply Hnext, Hv. by apply list_elem_of_In.
Qed.

Lemma find_loop_ok search current pre txs :
  search_ok search ->
  forall st st',
    find_loop search current (pre ++ [current]) txs st = Some st' ->
    tracks (visited st) (pre ++ [current]) -> simple (pre ++ [current]) ->
    Forall simple (paths st) ->
    visited st' = visited st /\ Forall simple (paths st').
Proof.
  intros Hsearch. induction txs as [|tx txs IH]; intros st st'; simpl.
  - by intros [= <-].
  - destruct (find_step search current (pre ++ [current]) tx st)
      as [st1|] eqn:Hstep; [|done].
    intros Hloop Hv Hsimple Hpaths.
    assert (visited st1 = visited st /\ Forall simple (paths st1)) as (Hv1 & Hp1).
    { unfold find_step in Hstep.
      destruct (tx_from tx) as [from|]; [|by injection Hstep as <-].
      destruct (tx_to tx) as [to|]; [|by injection Hstep as <-].
      destruct (matches (Some from) current && truthy_string to);
        [|by injection Hstep as <-].
      destruct (decide (toLowerCase to ∈ visited st)) as [|Hnew];
        [by injection Hstep as <-|].
      apply Hsearch in Hstep; eauto using simple_snoc. }
    apply IH in Hloop as (Hv2 & Hp2); [|by rewrite Hv1|done..].
    split; [congruence|done].
Qed.

Lemma findPaths_ok fuel target depth maxDepth :
  search_ok (fun next path st => _findPaths fuel next target path st depth maxDepth).
Proof.
  revert depth. induction fuel as [|fuel IH]; intros depth next pre st st'; [done|].
  simpl. intros Hrun Hv Hsimple Hpaths.
  destruct ((depth >=? maxDepth)%Z
            || (Z.of_nat (List.length (paths st)) >=? maxPaths)%Z);
    [by injection Hrun as <-|].
  destruct (String.eqb (toLowerCase next) (toLowerCase target)).
  { injection Hrun as <-. simpl. split; [done|].
    apply Forall_app. split; [done|]. by apply Forall_singleton. }
  assert (toLowerCase next ∉ visited st) as Hfresh.
  { intros Hin. apply Hv in Hin. unfold simple in Hsimple.
    rewrite map_app in Hsimple. simpl in Hsimple.
    apply NoDup_app in Hsimple as (_ & Hdisj & _).
    apply (Hdisj (toLowerCase next)); [by apply list_elem_of_In|].
    by apply list_elem_of_singleton. }
  assert (tracks ({[toLowerCase next]} ∪ visited st) (pre ++ [next])) as Hv1.
  { intros x. rewrite map_app, in_app_iff. simpl. rewrite <- (Hv x).
    rewrite elem_of_union, elem_of_singleton. split.
    - intros [->|?]; auto.
    - intros [?|[->|[]]]; auto. }
  destruct (_fetchAddressTransactions next 1 (world st)) as [[txs|] w1].
  - destruct (find_loop _ _ _ _ _) as [st1|] eqn:Hloop; [|done].
    injection Hrun as <-. simpl.
    apply find_loop_ok in Hloop as (Hv2 & Hp2); [|by apply IH|done..].
    simpl in Hv2. rewrite Hv2. split; [by apply revisit_restore|done].
  - injection Hrun as <-. simpl. split; [by apply revisit_restore|done].
Qed.

(** The array of paths grows by one path at a time, and only below the
    cap. *)
Lemma find_loop_cap search current path txs :
  (forall next path' st st',
     search next path' st = Some st' ->
     Z.of_nat (List.length (paths st)) <= maxPaths ->
     Z.of_nat (List.length (paths st')) <= maxPaths) ->
  forall st st',
    find_loop search current path txs st = Some st' ->
    Z.of_nat (List.length (paths st)) <= maxPaths ->
    Z.of_nat (List.length (paths st')) <= maxPaths.
Proof.
  intros Hsearch. induction txs as [|tx txs IH]; intros st st'; simpl.
  - by intros [= <-].
  - destruct (find_step search current path tx st) as [st1|] eqn:Hstep; [|done].
    intros Hloop Hcap. apply (IH st1 st' Hloop).
    unfold find_step in Hstep. repeat case_match; simplify_eq; eauto.
Qed.

Lemma findPaths_cap fuel :
  forall current target path st depth maxDepth st',
    _findPaths fuel current target path st depth maxDepth = Some st' ->
    Z.of_nat (List.length (paths st)) <= maxPaths ->
    Z.of_nat (List.length (paths st')) <= maxPaths.
Proof.
  induction fuel as [|fuel IH];
    intros current target path st depth maxDepth st'; [done|].
  simpl. intros Hrun Hcap.
  destruct ((depth >=? maxDepth)%Z
            || (Z.of_nat (List.length (paths st)) >=? maxPaths)%Z) eqn:Hguard;
    [by injection Hrun as <-|].
  apply orb_false_iff in Hguard as [_ Hfree].
  destruct (String.eqb (toLowerCase current) (toLowerCase target)).
  { injection Hrun as <-. simpl. rewrite length_app. simpl. lia. }
  destruct (_fetchAddressTransactions current 1 (world st)) as [[txs|] w1].
  - destruct (find_loop _ _ _ _ _) as [st1|] eqn:Hloop; [|done].
    injection Hrun as <-. simpl.
    apply find_loop_cap in Hloop; [done| |done].
    intros next path' st0 st0'. apply IH.
  - by injection Hrun as <-.
Qed.

Lemma find_loop_total search current path txs :
  (forall next path' st, is_Some (search next path' st)) ->
  forall st, is_Some (find_loop search current path txs st).
Proof.
  intros Hsearch. induction txs as [|tx txs IH]; intros st; simpl; [done|].
  assert (is_Some (find_step search current path tx st)) as [st1 ->].
  { unfold find_step. repeat case_match; done. }
  apply IH.
Qed.

(** A call at depth [d] nests at most [maxDepth - d + 1] calls. *)
Lemma findPaths_total fuel :
  forall current target path st depth maxDepth,
    (1 <= fuel)%nat -> maxDepth - depth + 1 <= Z.of_nat fuel ->
    is_Some (_findPaths fuel current target path st depth maxDepth).
Proof.
  induction fuel as [|fuel IH];
    intros current target path st depth maxDepth Hpos Hfuel; [lia|].
  simpl.
  destruct ((depth >=? maxDepth)%Z
            || (Z.of_nat (List.length (paths st)) >=? maxPaths)%Z) eqn:Hguard;
    [done|].
  apply orb_false_iff in Hguard as [Hd _].
  destruct (String.eqb (toLowerCase current) (toLowerCase target)); [done|].
  destruct (_fetchAddressTransactions current 1 (world st)) as [[txs|] w1];
    [|done].
  assert (forall next path' st',
            is_Some (_findPaths fuel next target path' st' (depth + 1) maxDepth))
    as Hsearch by (intros; apply IH; lia).
  by destruct (find_loop_total _ current path
                 (slice0 txs (maxTransactionsForPaths config)) Hsearch
                 (mkSearch ({[toLowerCase current]} ∪ visited st) (paths st) w1))
    as [st1 ->].
Qed.

Lemma tracePath_total fromAddress toAddress w :
  truthy_string fromAddress = true -> truthy_string toAddress = true ->
  exists r w', tracePath fromAddress toAddress w = Some (Ok r, w').
Proof.
  intros Hfrom Hto. unfold tracePath, _validateAddress.
  rewrite Hfrom, Hto. cbn [negb].
  destruct (findPaths_total 6 fromAddress toAddress [fromAddress]
              (mkSearch ∅ [] w) 0 5) as [st ->]; [lia..|]. eauto.
Qed.

Lemma tracePath_inv fromAddress toAddress w r w' :
  tracePath fromAddress toAddress w = Some (Ok r, w') ->
  exists st,
    _findPaths 6 fromAddress toAddress [fromAddress] (mkSearch ∅ [] w) 0 5
      = Some st /\
    pr_paths r = paths st /\
    pr_pathCount r = Z.of_nat (List.length (paths st)).
Proof.
  unfold tracePath.
  destruct (_validateAddress fromAddress); [|by intros [= ]].
  destruct (_validateAddress toAddress); [|by intros [= ]].
  destruct (_findPaths _ _ _ _ _ _ _) as [st|]; [|done].
  intros [= <- <-]. eauto.
Qed.

Lemma tracePath_ok fromAddress toAddress w r w' :
  tracePath fromAddress toAddress w = Some (Ok r, w') ->
  Forall simple (pr_paths r) /\
  Z.of_nat (List.length (pr_paths r)) <= maxPaths /\
  pr_pathCount r = Z.of_nat (List.length (pr_paths r)).
Proof.
  intros Hrun. apply tracePath_inv in Hrun as (st & Hrun & -> & ->).
  split; [|split; [|done]].
  - apply (findPaths_ok 6 toAddress 0 5 fromAddress []) in Hrun
      as (_ & Hsimple); try done.
    unfold simple. simpl. apply NoDup_singleton.
  - by apply findPaths_cap in Hrun.
Qed.

(** C3 (path cap): [tracePath] between two non-empty addresses returns at
    most [maxPaths] paths, the literal cap 10 of the search, and [pathCount]
    is their number; no call of [_findPaths] takes the shared array of paths
    above the cap; and a call that finds the array already at the cap
    returns at once with the search state, the world included, as it was:
    it fetches nothing and calls nothing. *)
Theorem tracePath_path_cap :
  (forall fromAddress toAddress w,
     truthy_string fromAddress = true -> truthy_string toAddress = true ->
     exists r w',
       tracePath fromAddress toAddress w = Some (Ok r, w') /\
       Z.of_nat (List.length (pr_paths r)) <= maxPaths /\
       pr_pathCount r = Z.of_nat (List.length (pr_paths r))) /\
  (forall fuel current target path st depth maxDepth st',
     _findPaths fuel current target path st depth maxDepth = Some st' ->
     Z.of_nat (List.length (paths st)) <= maxPaths ->
     Z.of_nat (List.length (paths st')) <= maxPaths) /\
  (forall fuel current target path st depth maxDepth,
     maxPaths <= Z.of_nat (List.length (paths st)) ->
     _findPaths (S fuel) current target path st depth maxDepth = Some st).
Proof.
  split; [|split].
  - intros fromAddress toAddress w Hfrom Hto.
    destruct (tracePath_total fromAddress toAddress w Hfrom Hto)
      as (r & w' & Hrun).
    exists r, w'. split; [done|]. by apply tracePath_ok in Hrun as (_ & ? & ?).
  - intros fuel. apply findPaths_cap.
  - intros fuel current target path st depth maxDepth Hcap. simpl.
    replace (Z.of_nat (List.length (paths st)) >=? maxPaths)%Z with true by lia.
    by rewrite orb_true_r.
Qed.

(** C4 (path simplicity): [tracePath] between two non-empty addresses
    returns paths in each of which no address occurs twice, up to case. *)
Theorem tracePath_paths_simple fromAddress toAddress w :
  truthy_string fromAddress = true -> truthy_string toAddress = true ->
  exists r w',
    tracePath fromAddress toAddress w = Some (Ok r, w') /\
    forall p, In p (pr_paths r) -> NoDup (map toLowerCase p).
Proof.
  intros Hfrom Hto.
  destruct (tracePath_total fromAddress toAddress w Hfrom Hto)
    as (r & w' & Hrun).
  exists r, w'. split; [done|]. intros p Hp.
  apply tracePath_ok in Hrun as (Hsimple & _).
  rewrite Forall_forall in Hsimple. apply Hsimple. by apply list_elem_of_In.
Qed.

(** ** The Flow Aggregator when the ledger fails *)

(** What [_getAddressFlow] returns when the fetch throws: the object as it
    was initialised, on which [netFlow] was never assigned. *)
Lemma getAddressFlow_fetch_failure address depth w w1 :
  _fetchAddressTransactions address depth w = (None, w1) ->
  _getAddressFlow address depth w
  = (mkFlow address [] [] 0%float 0%float 0 None, w1).
Proof. intros Hfetch. unfold _getAddressFlow. by rewrite Hfetch. Qed.

(** When the fetch answers, [netFlow] is the difference of the totals. *)
Lemma getAddressFlow_fetch_success address depth w txs w1 :
  _fetchAddressTransactions address depth w = (Some txs, w1) ->
  let flow := fst (_getAddressFlow address depth w) in
  netFlow flow = Some (PrimFloat.sub (totalIn flow) (totalOut flow)) /\
  transactionCount flow = Z.of_nat (List.length txs).
Proof. intros Hfetch. unfold _getAddressFlow. by rewrite Hfetch. Qed.

(** ** The formats of [exportGraph] *)

(** C8 (unsupported format): [exportGraph] fails exactly on a format token
    other than [json], [dot] and [csv]; it then returns the error
    [Unsupported format: ...] and no text, and on the three tokens it
    returns a text. *)
Theorem exportGraph_unsupported_format graph format :
  let supported := format = "json" \/ format = "dot" \/ format = "csv" in
  ((exists message, exportGraph graph (Some format) = Err message)
   <-> ~ supported) /\
  (supported -> exists text, exportGraph graph (Some format) = Ok text) /\
  (~ supported ->
   exportGraph graph (Some format) = Err ("Unsupported format: " +:+ format)).
Proof.
  assert (forall text : string,
            format = "json" \/ format = "dot" \/ format = "csv" ->
            ((exists message, Ok text = Err message)
             <-> ~ (format = "json" \/ format = "dot" \/ format = "csv")) /\
            ((format = "json" \/ format = "dot" \/ format = "csv") ->
             exists text', Ok text = Ok text') /\
            (~ (format = "json" \/ format = "dot" \/ format = "csv") ->
             Ok text = Err ("Unsupported format: " +:+ format))) as Hsupported.
  { intros text Hs. split; [split|split].
    - by intros [m Hm].
    - intros Hn. by destruct Hn.
    - eauto.
    - intros Hn. by destruct Hn. }
  unfold exportGraph.
  destruct (String.eqb_spec format "json") as [Hjson|Hjson]; [by auto|].
  destruct (String.eqb_spec format "dot") as [Hdot|Hdot]; [by auto|].
  destruct (String.eqb_spec format "csv") as [Hcsv|Hcsv]; [by auto|].
  assert (~ (format = "json" \/ format = "dot" \/ format = "csv")) as Hn.
  { by intros [?|[?|?]]. }
  split; [split|split]; eauto. by intros.
Qed.


(** ** Reading back what [JSON.stringify] wrote *)

Lemma skip_ws_spaces n s : Json.skip_ws (Json.spaces n ++ s) = Json.skip_ws s.
Proof. induction n; simpl; auto. Qed.

Lemma skip_ws_idem s : Json.skip_ws (Json.skip_ws s) = Json.skip_ws s.
Proof.
  induction s as [|c s IH]; [done|]. simpl.
  destruct (Json.is_ws c) eqn:Hc; [done|]. simpl. by rewrite Hc.
Qed.

Lemma parse_value_skip_ws fuel s :
  Json.parse_value fuel (Json.skip_ws s) = Json.parse_value fuel s.
Proof. destruct fuel; [done|]. simpl. by rewrite skip_ws_idem. Qed.

Lemma parse_members_skip_ws fuel s :
  Json.parse_members fuel (Json.skip_ws s) = Json.parse_members fuel s.
Proof. destruct fuel; [done|]. simpl. by rewrite skip_ws_idem. Qed.

(** One escaped character reads back as the character. *)
Lemma parse_chars_escape c rest :
  Json.parse_chars (Json.escape_char c ++ rest)
  = match Json.parse_chars rest with
    | Some (cs, rest') => Some (c :: cs, rest')
    | None => None
    end.
Proof. destruct c as [[] [] [] [] [] [] [] []]; reflexivity. Qed.

Lemma parse_chars_quote s rest :
  Json.parse_chars (tl (Json.quote s) ++ rest)
  = Some (list_ascii_of_string s, rest).
Proof.
  unfold Json.quote. simpl tl. rewrite <- app_assoc. simpl.
  induction (list_ascii_of_string s) as [|c cs IH]; [done|].
  simpl flat_map. rewrite <- app_assoc, parse_chars_escape. by rewrite IH.
Qed.

(** *** Number tokens *)

Lemma skip_digits_split s :
  exists ds, s = ds ++ Json.skip_digits s /\ forallb Json.is_digit ds = true.
Proof.
  induction s as [|c s (ds & Hs & Hds)]; [by exists []|]. simpl.
  destruct (Json.is_digit c) eqn:Hc.
  - exists (c :: ds). simpl. rewrite Hc, Hds. split; [by f_equal|done].
  - by exists [].
Qed.

Lemma digits_number_chars ds :
  forallb Json.is_digit ds = true -> forallb Json.is_number_char ds = true.
Proof.
  induction ds as [|c ds IH]; [done|]. simpl.
  intros H. apply andb_true_iff in H as [Hc Hds].
  unfold Json.is_number_char. rewrite Hc. simpl. auto.
Qed.

Lemma skip_digits_nil_number_chars s :
  Json.skip_digits s = [] -> forallb Json.is_number_char s = true.
Proof.
  intros Hnil. destruct (skip_digits_split s) as (ds & Hs & Hds).
  rewrite Hnil, app_nil_r in Hs. subst. by apply digits_number_chars.
Qed.

Lemma valid_exponent_chars s :
  Json.valid_exponent s = true -> forallb Json.is_number_char s = true.
Proof.
  destruct s as [|e r]; [done|]. unfold Json.valid_exponent.
  destruct (Ascii.eqb e "e" || Ascii.eqb e "E") eqn:He; [|done].
  assert (Json.is_number_char e = true) as Hchar.
  { unfold Json.is_number_char. apply orb_true_iff in He as [->| ->];
      by rewrite ?orb_true_r. }
  simpl. rewrite Hchar. simpl.
  assert (forall r', match r' with
                | d :: r'' =>
                    Json.is_digit d
                    && match Json.skip_digits r'' with [] => true | _ => false end
                | [] => false
                end = true -> forallb Json.is_number_char r' = true) as Hdigits.
  { intros [|d r'']; [done|]. intros H. apply andb_true_iff in H as [Hd Hr].
    simpl. unfold Json.is_number_char at 1. rewrite Hd. simpl.
    apply skip_digits_nil_number_chars. by destruct (Json.skip_digits r''). }
  destruct r as [|sign r'']; [done|].
  destruct (Ascii.eqb sign "+" || Ascii.eqb sign "-") eqn:Hsign;
    [|by apply (Hdigits (sign :: r''))].
  intros H. simpl. rewrite (Hdigits _ H).
  unfold Json.is_number_char. apply orb_true_iff in Hsign as [->| ->];
    by rewrite ?orb_true_r.
Qed.

Lemma valid_after_digits_chars (valid : list ascii -> bool) r :
  (forall s, valid s = true -> forallb Json.is_number_char s = true) ->
  valid (Json.skip_digits r) = true -> forallb Json.is_number_char r = true.
Proof.
  intros Hvalid H. destruct (skip_digits_split r) as (ds & Hr & Hds).
  rewrite Hr, forallb_app, (digits_number_chars _ Hds). simpl. auto.
Qed.

Lemma valid_fraction_chars s :
  Json.valid_fraction s = true -> forallb Json.is_number_char s = true.
Proof.
  destruct s as [|dot r]; [done|]. unfold Json.valid_fraction.
  destruct (Ascii.eqb dot ".") eqn:Hdot; [|apply valid_exponent_chars].
  destruct r as [|d r']; [done|]. intros H.
  apply andb_true_iff in H as [Hd Hr]. simpl.
  unfold Json.is_number_char at 1 2. rewrite Hdot, Hd, ?orb_true_r. simpl.
  by apply (valid_after_digits_chars Json.valid_exponent), Hr;
    [apply valid_exponent_chars].
Qed.

Lemma valid_unsigned_chars s :
  Json.valid_unsigned s = true ->
  forallb Json.is_number_char s = true /\
  exists d r, s = d :: r /\ Json.is_digit d = true.
Proof.
  destruct s as [|d r]; [done|]. unfold Json.valid_unsigned.
  destruct (Ascii.eqb_spec d "0") as [->|Hd].
  - intros H. split; [|by eauto]. simpl. by apply valid_fraction_chars.
  - intros H. apply andb_true_iff in H as [Hdigit Hr]. split; [|by eauto].
    simpl. unfold Json.is_number_char at 1. rewrite Hdigit. simpl.
    by apply (valid_after_digits_chars Json.valid_fraction), Hr;
      [apply valid_fraction_chars].
Qed.

(** A number token is made of number characters and starts with a digit
    or the minus sign. *)
Lemma valid_number_chars tok :
  Json.valid_number tok = true ->
  forallb Json.is_number_char tok = true /\
  exists c r, tok = c :: r /\ Ascii.eqb c "-" || Json.is_digit c = true.
Proof.
  destruct tok as [|c r]; [done|]. unfold Json.valid_number.
  destruct (Ascii.eqb_spec c "-") as [->|Hc].
  - intros H. apply valid_unsigned_chars in H as [H _]. simpl. rewrite H.
    split; [done|]. by eauto.
  - intros H. apply valid_unsigned_chars in H as [H (d & r' & [= <- <-] & Hd)].
    split; [done|]. exists c, r. by rewrite Hd, orb_true_r.
Qed.

Lemma span_number_token tok rest :
  forallb Json.is_number_char tok = true -> Json.delimited rest ->
  Json.span_number (tok ++ rest) = (tok, rest).
Proof.
  intros Htok Hrest. induction tok as [|c tok IH]; cbn -[Json.is_number_char].
  - destruct rest as [|c rest]; [done|]. cbn -[Json.is_number_char] in *.
    by rewrite Hrest.
  - cbn -[Json.is_number_char] in Htok. apply andb_true_iff in Htok as [Hc Htok].
    by rewrite Hc, IH.
Qed.

(** *** Values *)

Lemma number_head_dispatch c :
  Ascii.eqb c "-" || Json.is_digit c = true ->
  Json.is_ws c = false /\ Ascii.eqb c "]" = false /\
  forall fuel r,
    Json.parse_value (S fuel) (c :: r)
    = let (tok, rest) := Json.span_number (c :: r) in
      if Json.valid_number tok
      then Some (Json.JNumber (string_of_list_ascii tok), rest)
      else None.
Proof. destruct c as [[] [] [] [] [] [] [] []]; done. Qed.

(** The text of a value starts with a character that is neither a blank
    nor a closing bracket. *)
Lemma print_head indent v :
  Json.wf v = true ->
  exists c r,
    Json.print indent v = c :: r /\
    Json.is_ws c = false /\ Ascii.eqb c "]" = false.
Proof.
  destruct v as [|[]|literal|s|[|x xs]|[|[k x] ms]]; simpl; intros Hwf;
    try (by eexists _, _).
  apply valid_number_chars in Hwf as (_ & c & r & -> & Hc).
  apply number_head_dispatch in Hc as (? & ? & _). by eexists _, _.
Qed.

Lemma skip_ws_print indent v rest :
  Json.wf v = true ->
  Json.skip_ws (Json.print indent v ++ rest) = Json.print indent v ++ rest.
Proof.
  intros Hwf. destruct (print_head indent v Hwf) as (c & r & -> & Hc & _).
  simpl. by rewrite Hc.
Qed.

Lemma parse_items_eq fuel s :
  Json.parse_items (S fuel) s
  = match Json.parse_value fuel s with
    | Some (v, r) =>
        match Json.skip_ws r with
        | c :: r' =>
            if Ascii.eqb c ","
            then match Json.parse_items fuel r' with
                 | Some (vs, rest) => Some (v :: vs, rest)
                 | None => None
                 end
            else if Ascii.eqb c "]" then Some ([v], r')
            else None
        | [] => None
        end
    | None => None
    end.
Proof. done. Qed.

Lemma parse_members_eq fuel k s :
  Json.parse_members (S fuel) (Json.quote k ++ ":"%char :: " "%char :: s)
  = match Json.parse_value fuel s with
    | Some (v, r) =>
        match Json.skip_ws r with
        | c :: r' =>
            if Ascii.eqb c ","
            then match Json.parse_members fuel r' with
                 | Some (ms, rest) => Some ((k, v) :: ms, rest)
                 | None => None
                 end
            else if Ascii.eqb c "}" then Some ([(k, v)], r')
            else None
        | [] => None
        end
    | None => None
    end.
Proof.
  change (Json.quote k) with (Json.quote_char :: tl (Json.quote k)).
  cbn [app]. cbn [Json.parse_members Json.skip_ws].
  change (Json.is_ws Json.quote_char) with false. cbv iota.
  change (Ascii.eqb Json.quote_char Json.quote_char) with true. cbv iota.
  rewrite parse_chars_quote. rewrite string_of_list_ascii_of_string.
  change (Json.skip_ws (":"%char :: " "%char :: s))
    with (":"%char :: " "%char :: s).
  change (Ascii.eqb ":" ":") with true. cbv iota.
  rewrite <- (parse_value_skip_ws fuel (" "%char :: s)).
  change (Json.skip_ws (" "%char :: s)) with (Json.skip_ws s).
  by rewrite parse_value_skip_ws.
Qed.

Lemma delimited_comma r : Json.delimited (","%char :: r).
Proof. done. Qed.

Lemma delimited_newline r : Json.delimited (Json.newline :: r).
Proof. done. Qed.

Lemma print_rest_delimited {A} (f : A -> list ascii) indent l r :
  Json.delimited (Json.print_rest f indent l ++ Json.newline :: r).
Proof. by destruct l. Qed.

Lemma parse_value_indented fuel n s :
  Json.parse_value fuel (Json.newline :: Json.spaces n ++ s)
  = Json.parse_value fuel s.
Proof.
  rewrite <- parse_value_skip_ws.
  change (Json.skip_ws (Json.newline :: Json.spaces n ++ s))
    with (Json.skip_ws (Json.spaces n ++ s)).
  by rewrite skip_ws_spaces, parse_value_skip_ws.
Qed.

Lemma parse_members_indented fuel n s :
  Json.parse_members fuel (Json.newline :: Json.spaces n ++ s)
  = Json.parse_members fuel s.
Proof.
  rewrite <- parse_members_skip_ws.
  change (Json.skip_ws (Json.newline :: Json.spaces n ++ s))
    with (Json.skip_ws (Json.spaces n ++ s)).
  by rewrite skip_ws_spaces, parse_members_skip_ws.
Qed.

Lemma skip_ws_closing n c r :
  Json.is_ws c = false ->
  Json.skip_ws (Json.newline :: Json.spaces n ++ c :: r) = c :: r.
Proof.
  intros Hc.
  change (Json.skip_ws (Json.newline :: Json.spaces n ++ c :: r))
    with (Json.skip_ws (Json.spaces n ++ c :: r)).
  rewrite skip_ws_spaces. simpl. by rewrite Hc.
Qed.

(** Brings a text to the form [c :: ... ++ (c' :: ... ++ rest)]. *)
Ltac flatten_text :=
  repeat (rewrite <- app_assoc || rewrite <- app_comm_cons); cbn [app].

(** The parser reads back the text of a well-formed tree, and stops
    where the text stops. *)
Lemma parse_print fuel :
  forall v indent rest,
    (Json.size v <= fuel)%nat -> Json.wf v = true -> Json.delimited rest ->
    Json.parse_value fuel (Json.print indent v ++ rest) = Some (v, rest).
Proof.
  induction fuel as [fuel IH] using lt_wf_ind.
  intros v indent rest Hsize Hwf Hrest.
  destruct fuel as [|f]; [destruct v; simpl in Hsize; lia|].
  destruct v as [|[]|literal|s|[|x xs]|[|[k x] ms]]; try done.
  - (* a number *)
    simpl in Hwf. pose proof Hwf as Hvalid.
    apply valid_number_chars in Hwf as (Hchars & c & r & Htok & Hc).
    apply number_head_dispatch in Hc as (_ & _ & Heq).
    cbn [Json.print]. rewrite Htok. cbn [app]. rewrite Heq.
    change (c :: r ++ rest) with ((c :: r) ++ rest). rewrite <- Htok.
    rewrite span_number_token by done. rewrite Hvalid.
    by rewrite string_of_list_ascii_of_string.
  - (* a string *)
    change (Json.print indent (Json.JString s)) with (Json.quote s).
    change (Json.quote s) with (Json.quote_char :: tl (Json.quote s)).
    cbn [app]. cbn [Json.parse_value Json.skip_ws].
    change (Json.is_ws Json.quote_char) with false. cbv iota.
    change (Ascii.eqb Json.quote_char "n") with false.
    change (Ascii.eqb Json.quote_char "t") with false.
    change (Ascii.eqb Json.quote_char "f") with false.
    change (Ascii.eqb Json.quote_char Json.quote_char) with true. cbv iota.
    rewrite parse_chars_quote. by rewrite string_of_list_ascii_of_string.
  - (* an array *)
    assert (forall xs x f',
              (f' <= f)%nat ->
              (list_sum (map (fun y => S (Json.size y)) (x :: xs)) <= f')%nat ->
              forallb Json.wf (x :: xs) = true ->
              Json.parse_items f'
                (Json.newline :: Json.spaces (indent + 2)
                 ++ Json.print (indent + 2) x
                 ++ Json.print_rest (Json.print (indent + 2)) (indent + 2) xs
                 ++ Json.newline :: Json.spaces indent ++ "]"%char :: rest)
              = Some (x :: xs, rest)) as Hitems.
    { clear x xs Hsize Hwf. intros xs.
      induction xs as [|y ys IHxs]; intros x f' Hf' Hsize Hwf;
        (destruct f' as [|f'']; [simpl in Hsize; lia|]);
        cbn [map list_sum fold_right] in Hsize; cbn [forallb] in Hwf;
        apply andb_true_iff in Hwf as [Hx Hwf];
        rewrite parse_items_eq, parse_value_indented.
      - rewrite IH; [|lia|lia|done|apply delimited_newline].
        cbn [Json.print_rest app]. by rewrite skip_ws_closing.
      - rewrite IH; [|lia|lia|done|apply delimited_comma].
        cbn [Json.print_rest app Json.skip_ws].
        change (Json.is_ws ",") with false. cbv iota.
        change (Ascii.eqb "," ",") with true. cbv iota.
        flatten_text. rewrite IHxs; [done|lia| |done].
        cbn [map list_sum fold_right] in *. lia. }
    cbn [Json.print]. cbn [app].
    cbn [Json.parse_value Json.skip_ws].
    change (Json.is_ws "[") with false. cbv iota.
    change (Ascii.eqb "[" "n") with false.
    change (Ascii.eqb "[" "t") with false.
    change (Ascii.eqb "[" "f") with false.
    change (Ascii.eqb "[" Json.quote_char) with false.
    change (Ascii.eqb "[" "[") with true. cbv iota.
    flatten_text.
    cbn [Json.wf] in Hwf. pose proof Hwf as Hwf'. cbn [forallb] in Hwf'.
    apply andb_true_iff in Hwf' as [Hx _].
    destruct (print_head (indent + 2) x Hx) as (c & r & Hprint & Hws & Hclose).
    set (read := Json.parse_items _ _).
    change (Json.skip_ws (Json.newline :: ?s)) with (Json.skip_ws s).
    rewrite skip_ws_spaces, Hprint. cbn [app Json.skip_ws]. rewrite Hws, Hclose.
    subst read. rewrite Hitems; [done|lia| |done].
    cbn [Json.size map list_sum fold_right] in Hsize |- *. lia.
  - (* an object *)
    assert (forall ms k x f',
              (f' <= f)%nat ->
              (list_sum (map (fun m => match m with (_, y) => S (Json.size y) end)
                           ((k, x) :: ms)) <= f')%nat ->
              forallb (fun m => match m with (_, y) => Json.wf y end)
                ((k, x) :: ms) = true ->
              Json.parse_members f'
                (Json.newline :: Json.spaces (indent + 2)
                 ++ Json.quote k ++ ":"%char :: " "%char
                 :: Json.print (indent + 2) x
                 ++ Json.print_rest
                      (fun m => match m with
                                | (k', y) =>
                                    Json.quote k' ++ ":"%char :: " "%char
                                    :: Json.print (indent + 2) y
                                end)
                      (indent + 2) ms
                 ++ Json.newline :: Json.spaces indent ++ "}"%char :: rest)
              = Some ((k, x) :: ms, rest)) as Hmembers.
    { clear k x ms Hsize Hwf. intros ms.
      induction ms as [|[k' y] ms IHms]; intros k x f' Hf' Hsize Hwf;
        (destruct f' as [|f'']; [simpl in Hsize; lia|]);
        cbn [map list_sum fold_right] in Hsize; cbn [forallb] in Hwf;
        apply andb_true_iff in Hwf as [Hx Hwf];
        rewrite parse_members_indented, parse_members_eq.
      - rewrite IH; [|lia|lia|done|apply delimited_newline].
        cbn [Json.print_rest app]. by rewrite skip_ws_closing.
      - rewrite IH; [|lia|lia|done|apply delimited_comma].
        cbn [Json.print_rest app Json.skip_ws].
        change (Json.is_ws ",") with false. cbv iota.
        change (Ascii.eqb "," ",") with true. cbv iota.
        flatten_text. rewrite IHms; [done|lia| |done].
        cbn [map list_sum fold_right] in *. lia. }
    cbn [Json.print]. cbn [app].
    cbn [Json.parse_value Json.skip_ws].
    change (Json.is_ws "{") with false. cbv iota.
    change (Ascii.eqb "{" "n") with false.
    change (Ascii.eqb "{" "t") with false.
    change (Ascii.eqb "{" "f") with false.
    change (Ascii.eqb "{" Json.quote_char) with false.
    change (Ascii.eqb "{" "[") with false.
    change (Ascii.eqb "{" "{") with true. cbv iota.
    flatten_text.
    change (Json.skip_ws (Json.newline :: ?s)) with (Json.skip_ws s).
    rewrite skip_ws_spaces.
    change (Json.quote k) with (Json.quote_char :: tl (Json.quote k)).
    cbn [app Json.skip_ws].
    change (Json.is_ws Json.quote_char) with false. cbv iota.
    change (Ascii.eqb Json.quote_char "}") with false. cbv iota.
    change (Json.quote_char :: tl (Json.quote k) ++ ?s) with (Json.quote k ++ s).
    cbn [app] in Hmembers. rewrite Hmembers; [done|lia| |done].
    cbn [Json.size map list_sum fold_right] in Hsize |- *. lia.
Qed.

(** *** The whole text *)

Lemma list_sum_cons a l : list_sum (a :: l) = (a + list_sum l)%nat.
Proof. done. Qed.

Lemma print_nonempty indent v :
  Json.wf v = true -> (1 <= List.length (Json.print indent v))%nat.
Proof.
  intros Hwf. destruct (print_head indent v Hwf) as (c & r & -> & _).
  simpl. lia.
Qed.

(** The fuel [JSON.parse] starts with is enough for a printed text. *)
Lemma size_le_print n :
  forall v indent,
    (Json.size v <= n)%nat -> Json.wf v = true ->
    (Json.size v <= List.length (Json.print indent v))%nat.
Proof.
  induction n as [|n IH]; intros v indent Hsize Hwf;
    [destruct v; simpl in Hsize; lia|].
  destruct v as [| |literal|s|[|x xs]|[|[k x] ms]];
    try (by apply print_nonempty); try (simpl; lia).
  - assert (forall l,
              (list_sum (map (fun y => S (Json.size y)) l) <= n)%nat ->
              forallb Json.wf l = true ->
              (list_sum (map (fun y => S (Json.size y)) l)
               <= List.length
                    (Json.print_rest (Json.print (indent + 2)) (indent + 2) l))%nat)
      as Hrest.
    { induction l as [|y l IHl]; [done|].
      cbn [map forallb Json.print_rest]. rewrite list_sum_cons.
      intros Hl Hwfl. apply andb_true_iff in Hwfl as [Hy Hwfl].
      pose proof (IH y (indent + 2)%nat). cbn [List.length].
      rewrite !length_app. specialize (IHl ltac:(lia) Hwfl).
      specialize (H ltac:(lia) Hy). lia. }
    cbn [Json.size Json.wf map forallb] in *. rewrite list_sum_cons in *.
    apply andb_true_iff in Hwf as [Hx Hwf].
    cbn [Json.print List.length]. rewrite !length_app. cbn [List.length].
    specialize (Hrest xs ltac:(lia) Hwf).
    pose proof (IH x (indent + 2)%nat ltac:(lia) Hx). lia.
  - assert (forall l,
              (list_sum (map (fun m => match m with (_, y) => S (Json.size y) end) l)
               <= n)%nat ->
              forallb (fun m => match m with (_, y) => Json.wf y end) l = true ->
              (list_sum (map (fun m => match m with (_, y) => S (Json.size y) end) l)
               <= List.length
                    (Json.print_rest
                       (fun m => match m with
                                 | (k', y) =>
                                     Json.quote k' ++ ":"%char :: " "%char
                                     :: Json.print (indent + 2) y
                                 end)
                       (indent + 2) l))%nat)
      as Hrest.
    { induction l as [|[k' y] l IHl]; [done|].
      cbn [map forallb Json.print_rest]. rewrite list_sum_cons.
      intros Hl Hwfl. apply andb_true_iff in Hwfl as [Hy Hwfl].
      pose proof (IH y (indent + 2)%nat). cbn [List.length].
      rewrite !length_app. cbn [List.length]. specialize (IHl ltac:(lia) Hwfl).
      specialize (H ltac:(lia) Hy). lia. }
    cbn [Json.size Json.wf map forallb] in *. rewrite list_sum_cons in *.
    apply andb_true_iff in Hwf as [Hx Hwf].
    cbn [Json.print List.length]. rewrite !length_app. cbn [List.length].
    rewrite !length_app. cbn [List.length].
    specialize (Hrest ms ltac:(lia) Hwf).
    pose proof (IH x (indent + 2)%nat ltac:(lia) Hx) as Hlen.
    revert Hrest.
    generalize (list_sum (map (fun m : string * Json.value =>
                                 let (_, y) := m in S (Json.size y)) ms)).
    intros total Hrest. lia.
Qed.

Lemma length_string_of_list_ascii l :
  String.length (string_of_list_ascii l) = List.length l.
Proof. induction l; simpl; auto. Qed.

(** [JSON.parse(JSON.stringify(v, null, 2))] is [v]. *)
Lemma parse_stringify v :
  Json.wf v = true -> Json.parse (Json.stringify v) = Some v.
Proof.
  intros Hwf. unfold Json.parse, Json.stringify.
  rewrite list_ascii_of_string_of_list_ascii, length_string_of_list_ascii.
  pose proof (size_le_print (Json.size v) v 0 (le_n _) Hwf) as Hsize.
  pose proof (parse_print (S (List.length (Json.print 0 v))) v 0 []
                ltac:(lia) Hwf I) as Hparse.
  rewrite app_nil_r in Hparse. by rewrite Hparse.
Qed.

(** *** Integers as number tokens *)

Lemma Z_of_to_string z : Z_of_string (Z_to_string z) = Some z.
Proof.
  unfold Z_of_string, Z_to_string. rewrite NilZero.isi.
  - simpl. by rewrite DecimalZ.of_to.
  - destruct z; simpl; try done. intros [= H].
    by apply (Unsigned.to_uint_nonnil p).
  - destruct z; simpl; try done. intros [= H].
    by apply (Unsigned.to_uint_nonnil p).
Qed.

Lemma uint_digits d :
  forallb Json.is_digit (list_ascii_of_string (NilEmpty.string_of_uint d)) = true.
Proof. induction d; simpl; auto. Qed.

Lemma skip_digits_digits l :
  forallb Json.is_digit l = true -> Json.skip_digits l = [].
Proof.
  induction l as [|c l IH]; [done|]. simpl. intros H.
  apply andb_true_iff in H as [-> H]. auto.
Qed.

(** The decimal digits of a positive number do not start with [0]. *)
Lemma to_uint_head p :
  Decimal.nzhead (Pos.to_uint p) = Pos.to_uint p.
Proof.
  pose proof (Unsigned.to_of (Pos.to_uint p)) as Hnorm.
  rewrite Unsigned.of_to in Hnorm. simpl in Hnorm.
  unfold Decimal.unorm in Hnorm.
  destruct (Decimal.nzhead (Pos.to_uint p)) eqn:Hhead; try done.
  by apply Unsigned.to_uint_nonzero in Hnorm.
Qed.

Lemma valid_unsigned_to_uint p :
  Json.valid_unsigned
    (list_ascii_of_string (NilZero.string_of_uint (Pos.to_uint p))) = true.
Proof.
  pose proof (to_uint_head p) as Hhead.
  pose proof (Unsigned.to_uint_nonnil p) as Hnil.
  pose proof (nzhead_nonzero (Pos.to_uint p)) as Hzero.
  rewrite Hhead in Hzero.
  destruct (Pos.to_uint p) as [|d|d|d|d|d|d|d|d|d|d]; try done;
    try (by destruct (Hzero d)); simpl;
    by rewrite (skip_digits_digits _ (uint_digits d)).
Qed.

Lemma valid_number_Z z :
  Json.valid_number (list_ascii_of_string (Z_to_string z)) = true.
Proof.
  destruct z as [|p|p]; [done| |].
  - unfold Z_to_string. simpl Z.to_int. cbn [NilZero.string_of_int].
    pose proof (valid_unsigned_to_uint p) as Hvalid.
    unfold Json.valid_number.
    destruct (list_ascii_of_string _) as [|c r] eqn:Hchars; [done|].
    destruct (Ascii.eqb_spec c "-") as [->|_]; [|done].
    by destruct r.
  - unfold Z_to_string. simpl Z.to_int. cbn [NilZero.string_of_int].
    apply valid_unsigned_to_uint.
Qed.

(** *** The graph as a tree, and back *)

Lemma read_node n : Read.node (json_of_node n) = Some n.
Proof.
  destruct n as [a d t]. unfold Read.node, Read.field, json_of_node. simpl.
  rewrite Z_of_to_string. by destruct t.
Qed.

Lemma read_edge e : Read.edge (json_of_edge e) = Some e.
Proof.
  destruct e as [f t x h ts]. unfold Read.edge, Read.field, json_of_edge. simpl.
  by rewrite Z_of_to_string.
Qed.

Lemma read_all {A} (read : Json.value -> option A) (write : A -> Json.value) l :
  (forall a, read (write a) = Some a) ->
  Read.all read (map write l) = Some l.
Proof.
  intros Hread. induction l as [|a l IH]; [done|]. simpl.
  by rewrite Hread, IH.
Qed.

Lemma wf_json_of_graph graph :
  (is_finite (totalValue (fg_summary graph)) = true ->
   Json.valid_number
     (list_ascii_of_string (Number_toString (totalValue (fg_summary graph))))
   = true) ->
  Json.wf (json_of_graph graph) = true.
Proof.
  intros Htotal. unfold json_of_graph, json_of_number. cbn [Json.wf forallb].
  assert (forallb Json.wf (map json_of_node (fg_nodes graph)) = true) as ->.
  { induction (fg_nodes graph) as [|n l IH]; [done|].
    cbn [map forallb]. rewrite IH. unfold json_of_node, json_of_Z.
    cbn [Json.wf forallb]. by rewrite valid_number_Z. }
  assert (forallb Json.wf (map json_of_edge (fg_edges graph)) = true) as ->.
  { induction (fg_edges graph) as [|e l IH]; [done|].
    cbn [map forallb]. rewrite IH. unfold json_of_edge, json_of_Z.
    cbn [Json.wf forallb]. by rewrite valid_number_Z. }
  unfold json_of_Z. cbn [Json.wf]. rewrite !valid_number_Z.
  destruct (is_finite (totalValue (fg_summary graph))); [|done].
  cbn [Json.wf]. by rewrite Htotal.
Qed.

(** C9 (Json round trip): provided the total of the summary, when it is
    finite, is written as a number token, [exportGraph] with format [json]
    returns a text that [JSON.parse] reads, and the [nodes] and [edges] of
    what it reads are the node list and the edge list of the graph, in the
    same order. *)
Theorem exportGraph_json_round_trip graph :
  (is_finite (totalValue (fg_summary graph)) = true ->
   Json.valid_number
     (list_ascii_of_string (Number_toString (totalValue (fg_summary graph))))
   = true) ->
  exists text parsed,
    exportGraph graph (Some "json") = Ok text /\
    Json.parse text = Some parsed /\
    Read.nodes parsed = Some (fg_nodes graph) /\
    Read.edges parsed = Some (fg_edges graph).
Proof.
  intros Htotal. eexists _, _. split; [done|].
  split; [by apply parse_stringify, wf_json_of_graph|]. split.
  - unfold Read.nodes, Read.field. simpl. apply read_all, read_node.
  - unfold Read.edges, Read.field. simpl. apply read_all, read_edge.
Qed.

(** * More of the tracer *)

(** ** What [traceFromAddress] refuses, and what it accepts *)

(** X1: [traceFromAddress] throws exactly when the address is the empty
    string; it then throws [Address must be a non-empty string] before it
    reads the ledger, and otherwise it returns a graph. *)
Theorem traceFromAddress_error address options now w :
  if String.eqb address ""
  then traceFromAddress address options now w
       = Some (Err "Address must be a non-empty string", w)
  else exists fg w', traceFromAddress address options now w = Some (Ok fg, w').
Proof.
  destruct (String.eqb address "") eqn:Haddress.
  - apply String.eqb_eq in Haddress as ->. done.
  - apply traceFromAddress_total. unfold truthy_string. by rewrite Haddress.
Qed.

(** X2: a depth bound that is not positive (a negative [options.depth], or
    no [options.depth] and a [maxDepth] of the configuration that is not
    positive) is not refused: the graph is empty, its summary counts
    nothing, and the ledger is not read. *)
Theorem traceFromAddress_no_depth address options now w :
  truthy_string address = true ->
  or_Z (opt_depth options) (maxDepth config) <= 0 ->
  traceFromAddress address options now w
  = Some (Ok (mkFormattedGraph [] [] address
                (mkMetadata (network config)
                   (or_Z (opt_depth options) (maxDepth config)) now)
                (mkSummary 0 0 0%float)),
          w).
Proof.
  intros Haddress Hk. unfold traceFromAddress, _validateAddress.
  rewrite Haddress. cbn [negb]. unfold trace_fuel.
  cbn [_traceRecursive].
  by replace (0 >=? or_Z (opt_depth options) (maxDepth config))%Z with true by lia.
Qed.

(** Under a direction other than [in], [out] and [both] the loop appends
    nothing and calls nothing. *)
Lemma trace_loop_no_direction visit a d k dir txs st :
  dir <> "in" -> dir <> "out" -> dir <> "both" ->
  trace_loop visit a d k dir txs st = Some st.
Proof.
  intros Hin Hout Hboth.
  apply String.eqb_neq in Hin, Hout, Hboth.
  induction txs as [|tx txs IH]; [done|]. simpl.
  unfold trace_out, trace_in. by rewrite Hin, Hout, Hboth.
Qed.

(** X3: a direction other than [in], [out] and [both] is not refused: with
    a positive depth bound the seed is fetched once, and the graph has the
    seed's node and no edge. *)
Theorem traceFromAddress_unknown_direction address options now w :
  truthy_string address = true ->
  0 < or_Z (opt_depth options) (maxDepth config) ->
  or_string (opt_direction options) "both" <> "in" ->
  or_string (opt_direction options) "both" <> "out" ->
  or_string (opt_direction options) "both" <> "both" ->
  exists fg,
    traceFromAddress address options now w
    = Some (Ok fg, snd (_fetchAddressTransactions address 1 w)) /\
    fg_nodes fg = [mkNode address 0 origin] /\ fg_edges fg = [].
Proof.
  intros Haddress Hk Hin Hout Hboth.
  unfold traceFromAddress, _validateAddress. rewrite Haddress. cbn [negb].
  unfold trace_fuel. cbn [_traceRecursive].
  replace (0 >=? or_Z (opt_depth options) (maxDepth config))%Z with false by lia.
  cbn [fst snd nodes NodeMap.has existsb].
  destruct (_fetchAddressTransactions address 1 w) as [[txs|] w1].
  - rewrite trace_loop_no_direction by done. by eexists.
  - by eexists.
Qed.

(** ** The summary and the metadata *)

(** X4: the summary of a returned graph counts its nodes and its edges,
    its total is the sum of the edge values from left to right (a value
    that is no number counts 0), and the graph carries the seed address,
    the network of the configuration, the depth bound and the time it was
    given. *)
Theorem traceFromAddress_summary address options now w :
  truthy_string address = true ->
  exists fg w',
    traceFromAddress address options now w = Some (Ok fg, w') /\
    nodeCount (fg_summary fg) = Z.of_nat (List.length (fg_nodes fg)) /\
    edgeCount (fg_summary fg) = Z.of_nat (List.length (fg_edges fg)) /\
    totalValue (fg_summary fg)
    = fold_left
        (fun sum edge => PrimFloat.add sum (or_zero (parseFloat (edge_value edge))))
        (fg_edges fg) 0%float /\
    fg_startAddress fg = address /\
    fg_metadata fg
    = mkMetadata (network config)
        (or_Z (opt_depth options) (maxDepth config)) now.
Proof.
  intros Haddress.
  destruct (traceFromAddress_total address options now w Haddress)
    as (fg & w' & Hrun).
  exists fg, w'. split; [done|].
  apply traceFromAddress_inv in Hrun as (g' & -> & Hrun).
  apply (traceRecursive_invariant _ _ (fun _ _ => True)
           (fun g => startAddress g = address /\
                     metadata g
                     = mkMetadata (network config)
                         (or_Z (opt_depth options) (maxDepth config)) now))
    in Hrun as [[Hstart Hmeta] _]; try done.
  simpl. unfold NodeMap.size, NodeMap.values. rewrite length_map.
  by rewrite Hstart, Hmeta.
Qed.

(** ** How many edges a graph has *)

Lemma length_slice0 {A : Type} (l : list A) n :
  0 <= n -> Z.of_nat (List.length (slice0 l n)) <= n.
Proof.
  intros Hn. unfold slice0. replace (n <? 0)%Z with false by lia.
  rewrite length_firstn. lia.
Qed.

Section EdgeCount.

Variables (k : Z) (dir : string) (C : Z).

Lemma trace_out_counts visit a d tx st st' :
  visit_counts C visit -> 0 <= C ->
  trace_out visit a d k dir tx st = Some st' ->
  node_total st <= node_total st' /\
  edge_total st' - edge_total st
  <= out_edges dir + C * (node_total st' - node_total st).
Proof.
  intros Hvisit HC. unfold trace_out, out_edges.
  destruct (String.eqb dir "out" || String.eqb dir "both");
    [|intros [= <-]; lia].
  destruct (tx_from tx) as [from|]; [|intros [= <-]; lia].
  destruct (tx_to tx) as [to|]; [|intros [= <-]; lia].
  destruct (matches (Some from) a && truthy_string to); [|intros [= <-]; lia].
  set (st1 := (push_edge st.1 (edge_of from to tx), st.2)).
  assert (node_total st1 = node_total st /\ edge_total st1 = edge_total st + 1)
    as [HN HE].
  { unfold node_total, edge_total, st1. simpl. rewrite length_app. simpl. lia. }
  destruct (d + 1 <? k)%Z.
  - intros Hv. apply Hvisit in Hv. lia.
  - intros [= <-]. lia.
Qed.

Lemma trace_in_counts visit a d tx st st' :
  visit_counts C visit -> 0 <= C ->
  trace_in visit a d k dir tx st = Some st' ->
  node_total st <= node_total st' /\
  edge_total st' - edge_total st
  <= in_edges dir + C * (node_total st' - node_total st).
Proof.
  intros Hvisit HC. unfold trace_in, in_edges.
  destruct (String.eqb dir "in" || String.eqb dir "both");
    [|intros [= <-]; lia].
  destruct (tx_to tx) as [to|]; [|intros [= <-]; lia].
  destruct (tx_from tx) as [from|]; [|intros [= <-]; lia].
  destruct (matches (Some to) a && truthy_string from); [|intros [= <-]; lia].
  set (st1 := (push_edge st.1 (edge_of from to tx), st.2)).
  assert (node_total st1 = node_total st /\ edge_total st1 = edge_total st + 1)
    as [HN HE].
  { unfold node_total, edge_total, st1. simpl. rewrite length_app. simpl. lia. }
  destruct (d + 1 <? k)%Z.
  - intros Hv. apply Hvisit in Hv. lia.
  - intros [= <-]. lia.
Qed.

Lemma trace_loop_counts visit a d txs :
  visit_counts C visit -> 0 <= C ->
  forall st st',
    trace_loop visit a d k dir txs st = Some st' ->
    node_total st <= node_total st' /\
    edge_total st' - edge_total st
    <= (out_edges dir + in_edges dir) * Z.of_nat (List.length txs)
       + C * (node_total st' - node_total st).
Proof.
  intros Hvisit HC. induction txs as [|tx txs IH]; intros st st'.
  - intros [= <-]. simpl. lia.
  - cbn [trace_loop].
    destruct (trace_out visit a d k dir tx st) as [st1|] eqn:Hout; [|done].
    destruct (trace_in visit a d k dir tx st1) as [st2|] eqn:Hin; [|done].
    intros Hloop.
    apply trace_out_counts in Hout; [|done..].
    apply trace_in_counts in Hin; [|done..].
    apply IH in Hloop. cbn [List.length]. lia.
Qed.

Lemma traceRecursive_counts fuel M :
  C = (out_edges dir + in_edges dir) * M -> 0 <= M ->
  (forall a w txs w',
     _fetchAddressTransactions a 1 w = (Some txs, w') ->
     Z.of_nat (List.length (slice0 txs (maxTransactionsPerAddress config))) <= M) ->
  forall d, visit_counts C (fun a st => _traceRecursive fuel a st d k dir).
Proof.
  intros HC HM Hpage.
  assert (0 <= out_edges dir + in_edges dir) as Hper.
  { unfold out_edges, in_edges. repeat case_match; lia. }
  assert (0 <= C) as HC0 by nia.
  induction fuel as [|fuel IH]; intros d a st st'; [done|]. simpl.
  destruct (d >=? k)%Z; [intros [= <-]; lia|].
  destruct (NodeMap.has (nodes st.1) a) eqn:Ha; [intros [= <-]; lia|].
  assert (forall w1 : World,
            node_total (set_node st.1 a
              (mkNode a d (if (d =? 0)%Z then origin else intermediary)), w1)
            = node_total st + 1 /\
            edge_total (set_node st.1 a
              (mkNode a d (if (d =? 0)%Z then origin else intermediary)), w1)
            = edge_total st) as Hset.
  { intros w1. unfold node_total, edge_total. simpl.
    rewrite NodeMap_set_fresh by done. rewrite length_app. simpl. lia. }
  destruct (_fetchAddressTransactions a 1 st.2) as [[txs|] w1] eqn:Hfetch.
  - intros Hloop. apply trace_loop_counts in Hloop; [|by apply IH|done].
    destruct (Hset w1) as [HN HE].
    pose proof (Hpage _ _ _ _ Hfetch). nia.
  - intros [= <-]. destruct (Hset w1) as [HN HE]. lia.
Qed.

End EdgeCount.

(** X5: when [maxTransactionsPerAddress] is not negative, a graph has at
    most twice that many edges for each of its nodes, and at most that many
    when the direction is not [both]. *)
Theorem traceFromAddress_edge_bound address options now w :
  truthy_string address = true ->
  0 <= maxTransactionsPerAddress config ->
  exists fg w',
    traceFromAddress address options now w = Some (Ok fg, w') /\
    Z.of_nat (List.length (fg_edges fg))
    <= 2 * maxTransactionsPerAddress config * Z.of_nat (List.length (fg_nodes fg)) /\
    (or_string (opt_direction options) "both" <> "both" ->
     Z.of_nat (List.length (fg_edges fg))
     <= maxTransactionsPerAddress config * Z.of_nat (List.length (fg_nodes fg))).
Proof.
  intros Haddress Hm.
  destruct (traceFromAddress_total address options now w Haddress)
    as (fg & w' & Hrun).
  exists fg, w'. split; [done|].
  apply traceFromAddress_inv in Hrun as (g' & -> & Hrun).
  set (dir := or_string (opt_direction options) "both") in *.
  apply (traceRecursive_counts _ dir _ _ _ eq_refl Hm) in Hrun as [HN HE];
    [|intros; by apply length_slice0].
  unfold node_total, edge_total, out_edges, in_edges in HN, HE.
  simpl in HN, HE. simpl. unfold NodeMap.values. rewrite length_map.
  split.
  - repeat case_match; nia.
  - intros Hboth. apply String.eqb_neq in Hboth. rewrite Hboth in HE.
    rewrite !orb_false_r in HE.
    destruct (String.eqb_spec dir "out") as [Hout|Hout].
    + rewrite Hout in HE. simpl in HE. nia.
    + destruct (String.eqb dir "in"); nia.
Qed.

(** ** How many nodes a graph has *)

Lemma reach_nonneg b levels : 0 <= b -> 0 <= reach b levels.
Proof. intros Hb. induction levels as [|n IH]; simpl; nia. Qed.

Lemma reach_mono b b' levels :
  0 <= b <= b' -> reach b levels <= reach b' levels.
Proof.
  intros Hb. induction levels as [|n IH]; simpl; [lia|].
  pose proof (reach_nonneg b n). nia.
Qed.

Section NodeCount.

Variables (k : Z) (dir : string) (V : Z).

Lemma trace_out_adds visit a d tx st st' :
  visit_adds V visit -> 0 <= V ->
  trace_out visit a d k dir tx st = Some st' ->
  node_total st <= node_total st' /\
  node_total st' - node_total st <= out_edges dir * V.
Proof.
  intros Hvisit HV. unfold trace_out, out_edges.
  destruct (String.eqb dir "out" || String.eqb dir "both");
    [|intros [= <-]; lia].
  destruct (tx_from tx) as [from|]; [|intros [= <-]; lia].
  destruct (tx_to tx) as [to|]; [|intros [= <-]; lia].
  destruct (matches (Some from) a && truthy_string to); [|intros [= <-]; lia].
  destruct (d + 1 <? k)%Z.
  - intros Hv. apply Hvisit in Hv. unfold node_total in *. simpl in *. lia.
  - intros [= <-]. unfold node_total. simpl. lia.
Qed.

Lemma trace_in_adds visit a d tx st st' :
  visit_adds V visit -> 0 <= V ->
  trace_in visit a d k dir tx st = Some st' ->
  node_total st <= node_total st' /\
  node_total st' - node_total st <= in_edges dir * V.
Proof.
  intros Hvisit HV. unfold trace_in, in_edges.
  destruct (String.eqb dir "in" || String.eqb dir "both");
    [|intros [= <-]; lia].
  destruct (tx_to tx) as [to|]; [|intros [= <-]; lia].
  destruct (tx_from tx) as [from|]; [|intros [= <-]; lia].
  destruct (matches (Some to) a && truthy_string from); [|intros [= <-]; lia].
  destruct (d + 1 <? k)%Z.
  - intros Hv. apply Hvisit in Hv. unfold node_total in *. simpl in *. lia.
  - intros [= <-]. unfold node_total. simpl. lia.
Qed.

Lemma trace_loop_adds visit a d txs :
  visit_adds V visit -> 0 <= V ->
  forall st st',
    trace_loop visit a d k dir txs st = Some st' ->
    node_total st <= node_total st' /\
    node_total st' - node_total st
    <= (out_edges dir + in_edges dir) * Z.of_nat (List.length txs) * V.
Proof.
  intros Hvisit HV. induction txs as [|tx txs IH]; intros st st'.
  - intros [= <-]. simpl. lia.
  - cbn [trace_loop].
    destruct (trace_out visit a d k dir tx st) as [st1|] eqn:Hout; [|done].
    destruct (trace_in visit a d k dir tx st1) as [st2|] eqn:Hin; [|done].
    intros Hloop.
    apply trace_out_adds in Hout; [|done..].
    apply trace_in_adds in Hin; [|done..].
    apply IH in Hloop. cbn [List.length]. nia.
Qed.

End NodeCount.

Lemma traceRecursive_adds k dir b fuel :
  b = (out_edges dir + in_edges dir) * maxTransactionsPerAddress config ->
  0 <= maxTransactionsPerAddress config ->
  forall d,
    visit_adds (reach b (Z.to_nat (k - d)))
      (fun a st => _traceRecursive fuel a st d k dir).
Proof.
  intros Hb Hm.
  assert (0 <= out_edges dir + in_edges dir) as Hper.
  { unfold out_edges, in_edges. repeat case_match; lia. }
  assert (0 <= b) as Hb0 by nia.
  induction fuel as [|fuel IH]; intros d a st st'; [done|]. simpl.
  pose proof (reach_nonneg b (Z.to_nat (k - d)) Hb0) as Hreach.
  destruct (d >=? k)%Z eqn:Hd; [intros [= <-]; lia|].
  destruct (NodeMap.has (nodes st.1) a) eqn:Ha; [intros [= <-]; lia|].
  replace (Z.to_nat (k - d)) with (S (Z.to_nat (k - (d + 1)))) in * by lia.
  cbn [reach] in *.
  pose proof (reach_nonneg b (Z.to_nat (k - (d + 1))) Hb0) as Hreach'.
  assert (forall w1 : World,
            node_total (set_node st.1 a
              (mkNode a d (if (d =? 0)%Z then origin else intermediary)), w1)
            = node_total st + 1) as Hset.
  { intros w1. unfold node_total. simpl.
    rewrite NodeMap_set_fresh by done. rewrite length_app. simpl. lia. }
  destruct (_fetchAddressTransactions a 1 st.2) as [[txs|] w1].
  - intros Hloop.
    apply (trace_loop_adds k dir (reach b (Z.to_nat (k - (d + 1))))) in Hloop;
      [|by apply IH|done].
    specialize (Hset w1).
    pose proof (length_slice0 txs _ Hm) as Hlen.
    set (L := Z.of_nat (List.length (slice0 txs (maxTransactionsPerAddress config))))
      in *.
    set (R := reach b (Z.to_nat (k - (d + 1)))) in *.
    assert ((out_edges dir + in_edges dir) * L <= b) as Hwidth by nia.
    assert ((out_edges dir + in_edges dir) * L * R <= b * R) as Hsub
      by (apply Z.mul_le_mono_nonneg_r; lia).
    lia.
  - intros [= <-]. specialize (Hset w1). nia.
Qed.

(** X6: when [maxTransactionsPerAddress] is not negative, a graph traced
    to the depth bound [k] has at most [1 + b + ... + b ^ (k - 1)] nodes,
    where [b] is twice [maxTransactionsPerAddress], and
    [maxTransactionsPerAddress] itself when the direction is not [both]. *)
Theorem traceFromAddress_node_bound address options now w :
  truthy_string address = true ->
  0 <= maxTransactionsPerAddress config ->
  exists fg w',
    traceFromAddress address options now w = Some (Ok fg, w') /\
    let levels := Z.to_nat (or_Z (opt_depth options) (maxDepth config)) in
    Z.of_nat (List.length (fg_nodes fg))
    <= reach (2 * maxTransactionsPerAddress config) levels /\
    (or_string (opt_direction options) "both" <> "both" ->
     Z.of_nat (List.length (fg_nodes fg))
     <= reach (maxTransactionsPerAddress config) levels).
Proof.
  intros Haddress Hm.
  destruct (traceFromAddress_total address options now w Haddress)
    as (fg & w' & Hrun).
  exists fg, w'. split; [done|].
  apply traceFromAddress_inv in Hrun as (g' & -> & Hrun).
  set (dir := or_string (opt_direction options) "both") in *.
  apply (traceRecursive_adds _ dir _ _ eq_refl Hm) in Hrun as [_ HN].
  unfold node_total in HN. simpl in HN. rewrite !Z.sub_0_r in HN.
  simpl. unfold NodeMap.values. rewrite length_map.
  split.
  - etransitivity; [exact HN|]. apply reach_mono.
    unfold out_edges, in_edges. repeat case_match; nia.
  - intros Hboth. etransitivity; [exact HN|]. apply reach_mono.
    apply String.eqb_neq in Hboth. unfold out_edges, in_edges.
    rewrite Hboth, !orb_false_r.
    destruct (String.eqb_spec dir "out") as [->|]; [simpl; nia|].
    destruct (String.eqb dir "in"); nia.
Qed.

(** ** Every node below the seed hangs on a node one level up *)

Lemma grows_refl g : grows g g.
Proof. by split. Qed.

Lemma grows_trans g1 g2 g3 : grows g1 g2 -> grows g2 g3 -> grows g1 g3.
Proof. intros [Hn1 He1] [Hn2 He2]. split; auto. Qed.

Lemma grows_push_edge g e : grows g (push_edge g e).
Proof. split; [done|]. intros e' He'. simpl. apply in_app_iff. by left. Qed.

Lemma grows_set_node g a n :
  NodeMap.has (nodes g) a = false -> grows g (set_node g a n).
Proof.
  intros Ha. split; [|done]. intros n' Hn'. simpl.
  rewrite NodeMap_set_fresh by done. unfold NodeMap.values in *.
  rewrite map_app. apply in_app_iff. by left.
Qed.

Lemma hangs_grows g g' a d :
  grows g g' ->
  hangs (NodeMap.values (nodes g)) (edges g) a d ->
  hangs (NodeMap.values (nodes g')) (edges g') a d.
Proof.
  intros [Hn He] (e & p & Hine & Hinp & Hd & Hends).
  exists e, p. auto.
Qed.

Section Hanging.

Variables (k : Z) (dir : string).

Lemma trace_out_hangs visit a d ty tx g w g' w' :
  visit_hangs d visit ->
  hung g -> In (mkNode a d ty) (NodeMap.values (nodes g)) ->
  trace_out visit a d k dir tx (g, w) = Some (g', w') ->
  hung g' /\ grows g g'.
Proof.
  intros Hvisit Hg Ha. unfold trace_out.
  destruct (String.eqb dir "out" || String.eqb dir "both");
    [|intros [= <- <-]; auto using grows_refl].
  destruct (tx_from tx) as [from|]; [|intros [= <- <-]; auto using grows_refl].
  destruct (tx_to tx) as [to|]; [|intros [= <- <-]; auto using grows_refl].
  destruct (matches (Some from) a && truthy_string to) eqn:Hm;
    [|intros [= <- <-]; auto using grows_refl].
  apply andb_true_iff in Hm as [Hm _]. apply matches_case_equal in Hm.
  simpl fst; simpl snd.
  set (g1 := push_edge g (edge_of from to tx)).
  assert (grows g g1) as Hg1 by apply grows_push_edge.
  assert (hung g1) as Hhung1.
  { intros n Hn Hd. eapply hangs_grows; [done|]. by apply Hg. }
  destruct (d + 1 <? k)%Z.
  - intros Hv. apply Hvisit in Hv as [? ?]; [eauto using grows_trans|done|].
    exists (edge_of from to tx), (mkNode a d ty). simpl.
    split; [apply in_app_iff; right; by left|].
    split; [done|]. split; [lia|]. by left.
  - by intros [= <- <-].
Qed.

Lemma trace_in_hangs visit a d ty tx g w g' w' :
  visit_hangs d visit ->
  hung g -> In (mkNode a d ty) (NodeMap.values (nodes g)) ->
  trace_in visit a d k dir tx (g, w) = Some (g', w') ->
  hung g' /\ grows g g'.
Proof.
  intros Hvisit Hg Ha. unfold trace_in.
  destruct (String.eqb dir "in" || String.eqb dir "both");
    [|intros [= <- <-]; auto using grows_refl].
  destruct (tx_to tx) as [to|]; [|intros [= <- <-]; auto using grows_refl].
  destruct (tx_from tx) as [from|]; [|intros [= <- <-]; auto using grows_refl].
  destruct (matches (Some to) a && truthy_string from) eqn:Hm;
    [|intros [= <- <-]; auto using grows_refl].
  apply andb_true_iff in Hm as [Hm _]. apply matches_case_equal in Hm.
  simpl fst; simpl snd.
  set (g1 := push_edge g (edge_of from to tx)).
  assert (grows g g1) as Hg1 by apply grows_push_edge.
  assert (hung g1) as Hhung1.
  { intros n Hn Hd. eapply hangs_grows; [done|]. by apply Hg. }
  destruct (d + 1 <? k)%Z.
  - intros Hv. apply Hvisit in Hv as [? ?]; [eauto using grows_trans|done|].
    exists (edge_of from to tx), (mkNode a d ty). simpl.
    split; [apply in_app_iff; right; by left|].
    split; [done|]. split; [lia|]. by right.
  - by intros [= <- <-].
Qed.

Lemma trace_loop_hangs visit a d ty txs :
  visit_hangs d visit ->
  forall g w g' w',
    hung g -> In (mkNode a d ty) (NodeMap.values (nodes g)) ->
    trace_loop visit a d k dir txs (g, w) = Some (g', w') ->
    hung g' /\ grows g g'.
Proof.
  intros Hvisit. induction txs as [|tx txs IH]; intros g w g' w' Hg Ha.
  - intros [= <- <-]. auto using grows_refl.
  - cbn [trace_loop].
    destruct (trace_out visit a d k dir tx (g, w)) as [[g1 w1]|] eqn:Hout;
      [|done].
    destruct (trace_in visit a d k dir tx (g1, w1)) as [[g2 w2]|] eqn:Hin;
      [|done].
    intros Hloop.
    eapply trace_out_hangs in Hout as [Hg1 Hgr1]; [|done..].
    eapply trace_in_hangs in Hin as [Hg2 Hgr2]; [|done|done|by apply Hgr1].
    eapply IH in Hloop as [Hg3 Hgr3]; [|done|by apply Hgr2, Hgr1].
    eauto using grows_trans.
Qed.

Lemma traceRecursive_hangs fuel :
  forall a d g w g' w',
    hung g ->
    (1 <= d -> hangs (NodeMap.values (nodes g)) (edges g) a d) ->
    _traceRecursive fuel a (g, w) d k dir = Some (g', w') ->
    hung g' /\ grows g g'.
Proof.
  induction fuel as [|fuel IH]; intros a d g w g' w' Hg Ha; [done|]. simpl.
  destruct (d >=? k)%Z; [intros [= <- <-]; auto using grows_refl|].
  destruct (NodeMap.has (nodes g) a) eqn:Hfresh;
    [intros [= <- <-]; auto using grows_refl|].
  set (ty := if (d =? 0)%Z then origin else intermediary).
  set (g1 := set_node g a (mkNode a d ty)).
  assert (grows g g1) as Hgr1 by by apply grows_set_node.
  assert (In (mkNode a d ty) (NodeMap.values (nodes g1))) as Hin1.
  { unfold g1. simpl. rewrite NodeMap_set_fresh by done.
    unfold NodeMap.values. rewrite map_app. apply in_app_iff. right. by left. }
  assert (hung g1) as Hg1.
  { intros n Hn Hd. unfold g1 in Hn. simpl in Hn.
    rewrite NodeMap_set_fresh in Hn by done. unfold NodeMap.values in Hn.
    rewrite map_app in Hn. apply in_app_iff in Hn as [Hn|[<-|[]]].
    - eapply hangs_grows; [done|]. by apply Hg.
    - eapply hangs_grows; [done|]. by apply Ha. }
  destruct (_fetchAddressTransactions a 1 w) as [[txs|] w1].
  - intros Hloop. eapply trace_loop_hangs in Hloop as [? ?]; [| |done..].
    + eauto using grows_trans.
    + intros b g0 w0 g0' w0' Hg0 Hb Hv. eapply IH; [done| |done]. by intros _.
  - by intros [= <- <-].
Qed.

End Hanging.

(** X7: in a returned graph every node at a depth [d] of 1 or more is the
    end of an edge whose other end is, up to case, the address of a node at
    depth [d - 1]. *)
Theorem traceFromAddress_nodes_hang address options now w :
  truthy_string address = true ->
  exists fg w',
    traceFromAddress address options now w = Some (Ok fg, w') /\
    forall n, In n (fg_nodes fg) -> 1 <= node_depth n ->
      hangs (fg_nodes fg) (fg_edges fg) (node_address n) (node_depth n).
Proof.
  intros Haddress.
  destruct (traceFromAddress_total address options now w Haddress)
    as (fg & w' & Hrun).
  exists fg, w'. split; [done|].
  apply traceFromAddress_inv in Hrun as (g' & -> & Hrun).
  apply traceRecursive_hangs in Hrun as [Hhung _]; [done| |lia].
  by intros n [].
Qed.

(** ** Every edge copies a fetched transaction *)

Section Copies.

Variables (k : Z) (dir : string).

Lemma sourced_grows g g' :
  grows g g' -> sourced g ->
  (forall e, In e (edges g') -> In e (edges g) \/
     exists n, In n (NodeMap.values (nodes g')) /\ copies (node_address n) e) ->
  sourced g'.
Proof.
  intros [Hn _] Hg Hnew e He. destruct (Hnew e He) as [Hold|]; [|done].
  destruct (Hg e Hold) as (n & Hin & Hc). exists n. auto.
Qed.

Lemma sourced_push_edge g a d ty from to tx :
  sourced g -> In (mkNode a d ty) (NodeMap.values (nodes g)) ->
  copies a (edge_of from to tx) ->
  sourced (push_edge g (edge_of from to tx)).
Proof.
  intros Hg Ha Hc. apply (sourced_grows g); [apply grows_push_edge|done|].
  intros e He. simpl in He. apply in_app_iff in He as [He|[<-|[]]]; [by left|].
  right. by exists (mkNode a d ty).
Qed.

Lemma trace_out_sourced visit a d ty tx g w g' w' :
  visit_sourced visit ->
  (forall from to, tx_from tx = Some from -> tx_to tx = Some to ->
     copies a (edge_of from to tx)) ->
  sourced g -> In (mkNode a d ty) (NodeMap.values (nodes g)) ->
  trace_out visit a d k dir tx (g, w) = Some (g', w') ->
  sourced g' /\ grows g g'.
Proof.
  intros Hvisit Htx Hg Ha. unfold trace_out.
  destruct (String.eqb dir "out" || String.eqb dir "both");
    [|intros [= <- <-]; auto using grows_refl].
  destruct (tx_from tx) as [from|]; [|intros [= <- <-]; auto using grows_refl].
  destruct (tx_to tx) as [to|]; [|intros [= <- <-]; auto using grows_refl].
  destruct (matches (Some from) a && truthy_string to);
    [|intros [= <- <-]; auto using grows_refl].
  simpl fst; simpl snd.
  assert (sourced (push_edge g (edge_of from to tx))) as Hg1
    by (eapply sourced_push_edge; eauto).
  pose proof (grows_push_edge g (edge_of from to tx)) as Hgr1.
  destruct (d + 1 <? k)%Z.
  - intros Hv. apply Hvisit in Hv as [? ?]; [|done]. eauto using grows_trans.
  - by intros [= <- <-].
Qed.

Lemma trace_in_sourced visit a d ty tx g w g' w' :
  visit_sourced visit ->
  (forall from to, tx_from tx = Some from -> tx_to tx = Some to ->
     copies a (edge_of from to tx)) ->
  sourced g -> In (mkNode a d ty) (NodeMap.values (nodes g)) ->
  trace_in visit a d k dir tx (g, w) = Some (g', w') ->
  sourced g' /\ grows g g'.
Proof.
  intros Hvisit Htx Hg Ha. unfold trace_in.
  destruct (String.eqb dir "in" || String.eqb dir "both");
    [|intros [= <- <-]; auto using grows_refl].
  destruct (tx_to tx) as [to|]; [|intros [= <- <-]; auto using grows_refl].
  destruct (tx_from tx) as [from|]; [|intros [= <- <-]; auto using grows_refl].
  destruct (matches (Some to) a && truthy_string from);
    [|intros [= <- <-]; auto using grows_refl].
  simpl fst; simpl snd.
  assert (sourced (push_edge g (edge_of from to tx))) as Hg1
    by (eapply sourced_push_edge; eauto).
  pose proof (grows_push_edge g (edge_of from to tx)) as Hgr1.
  destruct (d + 1 <? k)%Z.
  - intros Hv. apply Hvisit in Hv as [? ?]; [|done]. eauto using grows_trans.
  - by intros [= <- <-].
Qed.

Lemma trace_loop_sourced visit a d ty txs :
  visit_sourced visit ->
  (forall tx from to, In tx txs -> tx_from tx = Some from -> tx_to tx = Some to ->
     copies a (edge_of from to tx)) ->
  forall g w g' w',
    sourced g -> In (mkNode a d ty) (NodeMap.values (nodes g)) ->
    trace_loop visit a d k dir txs (g, w) = Some (g', w') ->
    sourced g' /\ grows g g'.
Proof.
  intros Hvisit. induction txs as [|tx txs IH]; intros Htxs g w g' w' Hg Ha.
  - intros [= <- <-]. auto using grows_refl.
  - cbn [trace_loop].
    destruct (trace_out visit a d k dir tx (g, w)) as [[g1 w1]|] eqn:Hout;
      [|done].
    destruct (trace_in visit a d k dir tx (g1, w1)) as [[g2 w2]|] eqn:Hin;
      [|done].
    intros Hloop.
    assert (forall from to, tx_from tx = Some from -> tx_to tx = Some to ->
              copies a (edge_of from to tx)) as Htx
      by (intros from to; apply Htxs; by left).
    eapply trace_out_sourced in Hout as [Hg1 Hgr1]; [|done..].
    eapply trace_in_sourced in Hin as [Hg2 Hgr2]; [|done|done|done|by apply Hgr1].
    eapply IH in Hloop as [Hg3 Hgr3];
      [| |done|by apply Hgr2, Hgr1].
    + eauto using grows_trans.
    + intros tx' from to Hin'. apply Htxs. by right.
Qed.

Lemma traceRecursive_sourced fuel :
  forall d, visit_sourced (fun a st => _traceRecursive fuel a st d k dir).
Proof.
  induction fuel as [|fuel IH]; intros d a g w g' w' Hg; [done|]. simpl.
  destruct (d >=? k)%Z; [intros [= <- <-]; auto using grows_refl|].
  destruct (NodeMap.has (nodes g) a) eqn:Hfresh;
    [intros [= <- <-]; auto using grows_refl|].
  set (ty := if (d =? 0)%Z then origin else intermediary).
  set (g1 := set_node g a (mkNode a d ty)).
  assert (grows g g1) as Hgr1 by by apply grows_set_node.
  assert (In (mkNode a d ty) (NodeMap.values (nodes g1))) as Hin1.
  { unfold g1. simpl. rewrite NodeMap_set_fresh by done.
    unfold NodeMap.values. rewrite map_app. apply in_app_iff. right. by left. }
  assert (sourced g1) as Hg1.
  { apply (sourced_grows g); [done..|]. intros e He. by left. }
  destruct (_fetchAddressTransactions a 1 w) as [[txs|] w1] eqn:Hfetch.
  - intros Hloop. eapply trace_loop_sourced in Hloop as [? ?]; [| | |done..].
    + eauto using grows_trans.
    + apply IH.
    + intros tx from to Hin Hfrom Hto. by exists w, txs, w1, tx, from, to.
  - by intros [= <- <-].
Qed.

End Copies.

(** X8: every edge of a returned graph copies a transaction that the
    ledger returned for the address of one of the nodes of the graph, among
    the first [maxTransactionsPerAddress] of a page: its two ends, its
    value, its hash and its timestamp are those of the transaction. *)
Theorem traceFromAddress_edges_copied address options now w :
  truthy_string address = true ->
  exists fg w',
    traceFromAddress address options now w = Some (Ok fg, w') /\
    forall e, In e (fg_edges fg) ->
      exists n, In n (fg_nodes fg) /\ copies (node_address n) e.
Proof.
  intros Haddress.
  destruct (traceFromAddress_total address options now w Haddress)
    as (fg & w' & Hrun).
  exists fg, w'. split; [done|].
  apply traceFromAddress_inv in Hrun as (g' & -> & Hrun).
  apply traceRecursive_sourced in Hrun as [Hsourced _]; [done|].
  by intros e [].
Qed.

(** ** The order and the addresses of the nodes *)

(** X9: no two nodes of a returned graph have the same address, letter
    for letter; and when the depth bound is positive the first node is the
    seed's. *)
Theorem traceFromAddress_nodes_distinct address options now w :
  truthy_string address = true ->
  exists fg w',
    traceFromAddress address options now w = Some (Ok fg, w') /\
    NoDup (map node_address (fg_nodes fg)) /\
    (0 < or_Z (opt_depth options) (maxDepth config) ->
     exists rest, fg_nodes fg = mkNode address 0 origin :: rest).
Proof.
  intros Haddress.
  destruct (traceFromAddress_total address options now w Haddress)
    as (fg & w' & Hrun).
  exists fg, w'. split; [done|]. split.
  { by eapply traceFromAddress_keys_NoDup. }
  intros Hk. apply traceFromAddress_inv in Hrun as (g' & -> & Hrun).
  set (k := or_Z (opt_depth options) (maxDepth config)) in *.
  unfold trace_fuel in Hrun.
  apply traceRecursive_expand in Hrun; [|done..].
  set (g1 := set_node _ _ _) in Hrun.
  assert (seeded address k g1) as Hg1.
  { exists []. simpl. split; [done|]. split; [apply NoDup_singleton|].
    by intros ? ? []. }
  assert (seeded address k g') as (rest & Hnodes & _).
  { destruct (_fetchAddressTransactions address 1 w) as [[txs|] w1];
      [|by destruct Hrun as [-> _]].
    apply (trace_loop_invariant k _ (fun _ d => 1 <= d) (seeded address k))
      in Hrun as [Hinv _]; try done.
    - intros b g w0 g0 w0' Hb Hg Hv. split.
      + by eapply traceRecursive_seeded.
      + by eapply traceRecursive_keeps_nodes.
    - by apply NodeMap_has_set_same. }
  simpl. unfold NodeMap.values. rewrite Hnodes. simpl. by eexists.
Qed.

(** ** What [tracePath] refuses, and the paths it returns *)

(** X10: [tracePath] throws exactly when one of its two addresses is the
    empty string; it then throws [Address must be a non-empty string]
    before it reads the ledger, and otherwise it returns a result. *)
Theorem tracePath_error fromAddress toAddress w :
  if String.eqb fromAddress "" || String.eqb toAddress ""
  then tracePath fromAddress toAddress w
       = Some (Err "Address must be a non-empty string", w)
  else exists r w', tracePath fromAddress toAddress w = Some (Ok r, w').
Proof.
  destruct (String.eqb fromAddress "") eqn:Hfrom.
  - apply String.eqb_eq in Hfrom as ->. done.
  - destruct (String.eqb toAddress "") eqn:Hto; simpl.
    + apply String.eqb_eq in Hto as ->. unfold tracePath, _validateAddress.
      unfold truthy_string. by rewrite Hfrom.
    + apply tracePath_total; unfold truthy_string; by rewrite ?Hfrom, ?Hto.
Qed.

Lemma last_cons_default {A : Type} (x d : A) l :
  List.last (x :: l) d = List.last l x.
Proof.
  revert x d. induction l as [|y l IH]; intros x d; [done|].
  change (List.last (x :: y :: l) d) with (List.last (y :: l) d).
  by rewrite !IH.
Qed.

Section Walks.

Variables (target : string) (maxDepth : Z).

Lemma find_loop_walks search current path depth txs :
  search_walks target maxDepth (depth + 1) search ->
  (forall tx y, In tx txs -> matches (tx_from tx) current = true ->
     tx_to tx = Some y -> transfers current y) ->
  forall st st',
    find_loop search current path txs st = Some st' ->
    exists new,
      paths st' = paths st ++ new /\
      Forall (walk target maxDepth current path depth) new.
Proof.
  intros Hsearch. induction txs as [|tx txs IH]; intros Htxs st st'.
  - intros [= <-]. exists []. by rewrite app_nil_r.
  - cbn [find_loop].
    destruct (find_step search current path tx st) as [st1|] eqn:Hstep; [|done].
    intros Hloop.
    apply IH in Hloop as (new2 & Hp2 & Hnew2);
      [|intros tx' y Hin; apply Htxs; by right].
    assert (exists new1,
              paths st1 = paths st ++ new1 /\
              Forall (walk target maxDepth current path depth) new1)
      as (new1 & Hp1 & Hnew1).
    { unfold find_step in Hstep.
      destruct (tx_from tx) as [from|] eqn:Hfrom;
        [|injection Hstep as <-; exists []; by rewrite app_nil_r].
      destruct (tx_to tx) as [to|] eqn:Hto;
        [|injection Hstep as <-; exists []; by rewrite app_nil_r].
      destruct (matches (Some from) current && truthy_string to) eqn:Hm;
        [|injection Hstep as <-; exists []; by rewrite app_nil_r].
      apply andb_true_iff in Hm as [Hm _].
      destruct (decide (toLowerCase to ∈ visited st));
        [injection Hstep as <-; exists []; by rewrite app_nil_r|].
      apply Hsearch in Hstep as (new1 & Hp1 & Hnew1).
      exists new1. split; [done|].
      eapply Forall_impl; [exact Hnew1|].
      intros p (suffix & -> & Hchain & Hlast & Hlen).
      exists (to :: suffix). split; [by rewrite <- app_assoc|]. split; [|split].
      - split; [|done]. apply (Htxs tx); [by left|by rewrite Hfrom|done].
      - by rewrite last_cons_default.
      - cbn [List.length]. lia. }
    exists (new1 ++ new2). split.
    + by rewrite Hp2, Hp1, app_assoc.
    + apply Forall_app. by split.
Qed.

Lemma findPaths_walks fuel :
  forall depth,
    search_walks target maxDepth depth
      (fun next path st => _findPaths fuel next target path st depth maxDepth).
Proof.
  induction fuel as [|fuel IH]; intros depth current path st st'; [done|].
  simpl.
  destruct ((depth >=? maxDepth)%Z
            || (Z.of_nat (List.length (paths st)) >=? maxPaths)%Z) eqn:Hguard.
  { intros [= <-]. exists []. by rewrite app_nil_r. }
  apply orb_false_iff in Hguard as [Hdepth _].
  destruct (String.eqb (toLowerCase current) (toLowerCase target)) eqn:Heq.
  { intros [= <-]. simpl. exists [path]. split; [done|].
    apply Forall_singleton. exists []. rewrite app_nil_r.
    apply String.eqb_eq in Heq. simpl. repeat split; [done|lia]. }
  destruct (_fetchAddressTransactions current 1 (world st))
    as [[txs|] w1] eqn:Hfetch.
  - destruct (find_loop _ _ _ _ _) as [st1|] eqn:Hloop; [|done].
    intros [= <-]. simpl.
    apply (find_loop_walks _ _ _ depth) in Hloop; [done|apply IH|].
    intros tx y Hin Hm Hto. by exists (world st), txs, w1, tx.
  - intros [= <-]. exists []. by rewrite app_nil_r.
Qed.

End Walks.

Lemma tracePath_walks fromAddress toAddress w r w' :
  tracePath fromAddress toAddress w = Some (Ok r, w') ->
  forall p, In p (pr_paths r) ->
    exists suffix,
      p = fromAddress :: suffix /\
      chained (fromAddress :: suffix) /\
      toLowerCase (List.last suffix fromAddress) = toLowerCase toAddress /\
      Z.of_nat (List.length suffix) < 5.
Proof.
  intros Hrun p Hp. apply tracePath_inv in Hrun as (st & Hrun & Hpaths & _).
  apply findPaths_walks in Hrun as (new & Hnew & Hwalks).
  rewrite Hpaths, Hnew in Hp. simpl in Hp.
  rewrite Forall_forall in Hwalks.
  destruct (Hwalks p) as (suffix & -> & ? & ? & ?); [by apply list_elem_of_In|].
  exists suffix. repeat split; [done..|lia].
Qed.

(** X11: every path [tracePath] returns starts with the address it was
    asked to start from, ends with an address that is the destination up
    to case, and has at most 5 addresses, the literal bound of the search,
    whatever [maxDepth] the configuration has. *)
Theorem tracePath_ends fromAddress toAddress w :
  truthy_string fromAddress = true -> truthy_string toAddress = true ->
  exists r w',
    tracePath fromAddress toAddress w = Some (Ok r, w') /\
    forall p, In p (pr_paths r) ->
      (exists rest, p = fromAddress :: rest) /\
      toLowerCase (List.last p fromAddress) = toLowerCase toAddress /\
      (List.length p <= 5)%nat.
Proof.
  intros Hfrom Hto.
  destruct (tracePath_total fromAddress toAddress w Hfrom Hto)
    as (r & w' & Hrun).
  exists r, w'. split; [done|]. intros p Hp.
  destruct (tracePath_walks _ _ _ _ _ Hrun p Hp) as (suffix & -> & _ & Hlast & Hlen).
  split; [by eexists|]. split; [by rewrite last_cons_default|].
  cbn [List.length]. lia.
Qed.

(** X12: every path [tracePath] returns follows the ledger: each of its
    addresses sent, in a transaction some fetch returned among the first
    [maxTransactionsForPaths] of its page, to the address that comes
    next. *)
Theorem tracePath_follows_transfers fromAddress toAddress w :
  truthy_string fromAddress = true -> truthy_string toAddress = true ->
  exists r w',
    tracePath fromAddress toAddress w = Some (Ok r, w') /\
    forall p, In p (pr_paths r) -> chained p.
Proof.
  intros Hfrom Hto.
  destruct (tracePath_total fromAddress toAddress w Hfrom Hto)
    as (r & w' & Hrun).
  exists r, w'. split; [done|]. intros p Hp.
  by destruct (tracePath_walks _ _ _ _ _ Hrun p Hp) as (suffix & -> & ? & _).
Qed.

(** X13: when the two addresses are the same up to case, [tracePath]
    returns the one path that holds the start address alone, and does not
    read the ledger. *)
Theorem tracePath_same_address fromAddress toAddress w :
  truthy_string fromAddress = true -> truthy_string toAddress = true ->
  toLowerCase fromAddress = toLowerCase toAddress ->
  tracePath fromAddress toAddress w
  = Some (Ok (mkPathResult fromAddress toAddress [[fromAddress]] 1
                (network config)),
          w).
Proof.
  intros Hfrom Hto Hsame. unfold tracePath, _validateAddress.
  rewrite Hfrom, Hto. cbn [negb]. cbn [_findPaths].
  cbn [paths List.length orb]. rewrite Hsame, String.eqb_refl.
  change (0 >=? 5)%Z with false. change (Z.of_nat 0 >=? maxPaths)%Z with false.
  done.
Qed.

(** ** The lists and totals of the Flow Aggregator *)

Lemma flow_step_fold address txs : forall flow,
  fold_left (flow_step address) txs flow
  = mkFlow (flow_address flow)
      (incoming flow ++ List.filter (fun tx => matches (tx_to tx) address) txs)
      (outgoing flow ++ List.filter (fun tx => matches (tx_from tx) address) txs)
      (fold_left
         (fun sum tx => PrimFloat.add sum (or_zero (parseFloat (tx_value tx))))
         (List.filter (fun tx => matches (tx_to tx) address) txs) (totalIn flow))
      (fold_left
         (fun sum tx => PrimFloat.add sum (or_zero (parseFloat (tx_value tx))))
         (List.filter (fun tx => matches (tx_from tx) address) txs) (totalOut flow))
      (transactionCount flow) (netFlow flow).
Proof.
  induction txs as [|tx txs IH]; intros flow.
  - simpl. rewrite !app_nil_r. by destruct flow.
  - cbn [fold_left List.filter]. rewrite IH. unfold flow_step.
    destruct (matches (tx_to tx) address), (matches (tx_from tx) address);
      simpl; by rewrite <- ?app_assoc.
Qed.

(** X14: when the fetch answers, [incoming] holds the fetched
    transactions whose [to] is the address up to case and [outgoing] those
    whose [from] is, each in the order of the page (a transaction from the
    address to itself is in both); each total is the sum of the values of
    its list from left to right, [transactionCount] counts the whole page,
    and [netFlow] is the difference of the totals. *)
Theorem getAddressFlow_lists address depth w txs w1 :
  _fetchAddressTransactions address depth w = (Some txs, w1) ->
  let sum :=
    fold_left
      (fun sum tx => PrimFloat.add sum (or_zero (parseFloat (tx_value tx)))) in
  let ins := List.filter (fun tx => matches (tx_to tx) address) txs in
  let outs := List.filter (fun tx => matches (tx_from tx) address) txs in
  _getAddressFlow address depth w
  = (mkFlow address ins outs (sum ins 0%float) (sum outs 0%float)
       (Z.of_nat (List.length txs))
       (Some (PrimFloat.sub (sum ins 0%float) (sum outs 0%float))),
     w1).
Proof.
  intros Hfetch. unfold _getAddressFlow. rewrite Hfetch.
  by rewrite flow_step_fold.
Qed.

(** ** The transaction trace *)

Lemma flow_step_address address flow tx :
  flow_address (flow_step address flow tx) = flow_address flow.
Proof. unfold flow_step. by repeat case_match. Qed.

Lemma getAddressFlow_address address depth w :
  flow_address (fst (_getAddressFlow address depth w)) = address.
Proof.
  unfold _getAddressFlow.
  destruct (_fetchAddressTransactions address depth w) as [[txs|] w1]; [|done].
  simpl. by rewrite flow_step_fold.
Qed.

(** X15: [traceTransaction] throws exactly when the hash is the empty
    string, and then before it reads the ledger.  For every other hash it
    returns, whether the fetches fail or not: the transaction has the hash
    it was asked for and the two fixed ends of [_fetchTransactionDetails],
    and the two flows are those of these two ends, the sender's read first
    and the receiver's after it, each with the limit 2. *)
Theorem traceTransaction_flows txHash now w :
  if String.eqb txHash ""
  then traceTransaction txHash now w
       = (Err "Transaction hash must be a non-empty string", w)
  else
    exists g w',
      traceTransaction txHash now w = (Ok g, w') /\
      tr_hash (transaction g) = txHash /\
      tr_from (transaction g) = "0x1111111111111111111111111111111111111111" /\
      tr_to (transaction g) = "0x2222222222222222222222222222222222222222" /\
      tr_network (transaction g) = network config /\
      flow_address (fromAddressFlow g) = tr_from (transaction g) /\
      flow_address (toAddressFlow g) = tr_to (transaction g) /\
      let sender := _getAddressFlow (tr_from (transaction g)) 2 w in
      fromAddressFlow g = fst sender /\
      (toAddressFlow g, w') = _getAddressFlow (tr_to (transaction g)) 2 (snd sender).
Proof.
  destruct (String.eqb txHash "") eqn:Hhash.
  - apply String.eqb_eq in Hhash as ->. done.
  - unfold traceTransaction, _validateTransactionHash, truthy_string.
    rewrite Hhash. cbn [negb].
    set (details := _fetchTransactionDetails txHash now).
    pose proof (getAddressFlow_address (td_from details) 2 w) as Hfrom.
    destruct (_getAddressFlow (td_from details) 2 w) as [fromFlow w1] eqn:Hsender.
    pose proof (getAddressFlow_address (td_to details) 2 w1) as Hto.
    destruct (_getAddressFlow (td_to details) 2 w1) as [toFlow w2] eqn:Hreceiver.
    eexists _, _. split; [done|]. cbn [transaction fromAddressFlow toAddressFlow
      tr_hash tr_from tr_to tr_network].
    repeat split; try done.
    + by rewrite Hsender.
    + by rewrite Hsender.
Qed.

(** ** The rows of the CSV export *)

Lemma append_cons x (a b : string) : String x a +:+ b = String x (a +:+ b).
Proof. reflexivity. Qed.

Lemma append_assoc (a b c : string) : (a +:+ b) +:+ c = a +:+ (b +:+ c).
Proof.
  induction a as [|x a IH]; [done|]. by rewrite !append_cons, IH.
Qed.

Lemma append_nil_r (a : string) : a +:+ "" = a.
Proof.
  induction a as [|x a IH]; [done|]. by rewrite append_cons, IH.
Qed.

(** Two texts that agree and are cut at a character neither holds before
    the cut agree before it and after it. *)
Lemma append_cut c (a b x y : string) :
  ~ In c (list_ascii_of_string a) -> ~ In c (list_ascii_of_string b) ->
  a +:+ String c x = b +:+ String c y -> a = b /\ x = y.
Proof.
  revert b. induction a as [|d a IH]; intros [|e b] Ha Hb;
    rewrite ?append_cons; change ("" +:+ ?s) with s.
  - by intros [= ->].
  - intros [= <- _]. destruct Hb. by left.
  - intros [= -> _]. destruct Ha. by left.
  - intros [= <- Heq]. apply IH in Heq as [-> ->]; [done| |].
    + intros Hin. apply Ha. by right.
    + intros Hin. apply Hb. by right.
Qed.

Lemma plain_free s c :
  plain s = true -> c = ","%char \/ c = Json.newline ->
  ~ In c (list_ascii_of_string s).
Proof.
  unfold plain. rewrite forallb_forall. intros Hplain Hc Hin.
  apply Hplain in Hin. apply andb_true_iff in Hin as [Hcomma Hnl].
  destruct Hc as [->| ->].
  - by rewrite Ascii.eqb_refl in Hcomma.
  - by rewrite Ascii.eqb_refl in Hnl.
Qed.

Lemma string_of_uint_free d c :
  c = ","%char \/ c = Json.newline ->
  ~ In c (list_ascii_of_string (NilEmpty.string_of_uint d)).
Proof.
  intros Hc. induction d; cbn [NilEmpty.string_of_uint list_ascii_of_string In];
    [tauto|..]; (intros [Heq|Hin]; [|done]); by destruct Hc; subst.
Qed.

Lemma Z_to_string_free z c :
  c = ","%char \/ c = Json.newline ->
  ~ In c (list_ascii_of_string (Z_to_string z)).
Proof.
  intros Hc. unfold Z_to_string, NilZero.string_of_int, NilZero.string_of_uint.
  destruct (Z.to_int z) as [d|d].
  - destruct d; try by apply string_of_uint_free.
    simpl. intros [Heq|[]]. by destruct Hc; subst.
  - simpl. intros [Heq|Hin]; [by destruct Hc; subst|]. revert Hin.
    destruct d; try by apply string_of_uint_free.
    simpl. intros [Heq|[]]. by destruct Hc; subst.
Qed.

Lemma Z_to_string_inj z1 z2 : Z_to_string z1 = Z_to_string z2 -> z1 = z2.
Proof.
  intros Heq. apply (f_equal Z_of_string) in Heq.
  rewrite !Z_of_to_string in Heq. by injection Heq.
Qed.

(** The text one edge adds, and the text of a list of edges. *)
Lemma exportToCsv_rows graph :
  _exportToCsv graph
  = ("From,To,Value,Hash,Timestamp" +:+ nl)
    +:+ fold_right
          (fun edge rows =>
             (edge_from edge +:+ "," +:+ edge_to edge +:+ ","
              +:+ edge_value edge +:+ "," +:+ edge_hash edge +:+ ","
              +:+ Z_to_string (edge_timestamp edge) +:+ nl) +:+ rows)
          "" (fg_edges graph).
Proof.
  unfold _exportToCsv.
  generalize ("From,To,Value,Hash,Timestamp" +:+ nl).
  induction (fg_edges graph) as [|e l IH]; intros head; cbn [fold_left fold_right].
  - by rewrite append_nil_r.
  - rewrite IH. by rewrite !append_assoc.
Qed.

Lemma csv_rows_inj (l1 l2 : list Edge) :
  forallb plain_edge l1 = true -> forallb plain_edge l2 = true ->
  fold_right
    (fun edge rows =>
       (edge_from edge +:+ "," +:+ edge_to edge +:+ ","
        +:+ edge_value edge +:+ "," +:+ edge_hash edge +:+ ","
        +:+ Z_to_string (edge_timestamp edge) +:+ nl) +:+ rows) "" l1
  = fold_right
      (fun edge rows =>
         (edge_from edge +:+ "," +:+ edge_to edge +:+ ","
          +:+ edge_value edge +:+ "," +:+ edge_hash edge +:+ ","
          +:+ Z_to_string (edge_timestamp edge) +:+ nl) +:+ rows) "" l2 ->
  l1 = l2.
Proof.
  assert (forall (a x : string) c, a +:+ String c x <> "") as Hne.
  { by intros [|d a] x c. }
  revert l2. induction l1 as [|e1 l1 IH]; intros [|e2 l2] Hp1 Hp2; cbn [fold_right].
  - done.
  - rewrite !append_assoc. unfold nl. rewrite !append_cons.
    change ("" +:+ ?s) with s.
    intros Heq. symmetry in Heq. by apply Hne in Heq.
  - rewrite !append_assoc. unfold nl. rewrite !append_cons.
    change ("" +:+ ?s) with s. intros Heq. by apply Hne in Heq.
  - cbn [forallb] in Hp1, Hp2.
    apply andb_true_iff in Hp1 as [He1 Hp1], Hp2 as [He2 Hp2].
    unfold plain_edge in He1, He2.
    apply andb_true_iff in He1 as [He1 Hh1], He2 as [He2 Hh2].
    apply andb_true_iff in He1 as [He1 Hv1], He2 as [He2 Hv2].
    apply andb_true_iff in He1 as [Hf1 Ht1], He2 as [Hf2 Ht2].
    rewrite !append_assoc. unfold nl. rewrite !append_cons.
    change ("" +:+ ?s) with s. intros Heq.
    apply append_cut in Heq as [Hfrom Heq]; [|by apply plain_free; auto..].
    apply append_cut in Heq as [Hto Heq]; [|by apply plain_free; auto..].
    apply append_cut in Heq as [Hvalue Heq]; [|by apply plain_free; auto..].
    apply append_cut in Heq as [Hhash Heq]; [|by apply plain_free; auto..].
    apply append_cut in Heq as [Htime Heq]; [|by apply Z_to_string_free; auto..].
    apply Z_to_string_inj in Htime. apply IH in Heq; [|done..].
    destruct e1, e2. simpl in *. by subst.
Qed.

(** X16: the CSV text tells the edges and nothing else: two graphs with
    the same edges have the same CSV text, whatever their nodes, metadata
    and summary; and when the [from], [to], [value] and [hash] fields of
    both hold no comma and no line break, two graphs with the same CSV
    text have the same edges in the same order. *)
Theorem exportGraph_csv_injective graph1 graph2 :
  forallb plain_edge (fg_edges graph1) = true ->
  forallb plain_edge (fg_edges graph2) = true ->
  exportGraph graph1 (Some "csv") = exportGraph graph2 (Some "csv")
  <-> fg_edges graph1 = fg_edges graph2.
Proof.
  intros Hplain1 Hplain2. unfold exportGraph.
  change (String.eqb "csv" "json") with false.
  change (String.eqb "csv" "dot") with false.
  change (String.eqb "csv" "csv") with true. cbv iota.
  rewrite !exportToCsv_rows. split.
  - intros [= Heq]. apply String.app_inj in Heq. by apply csv_rows_inj.
  - by intros ->.
Qed.

(** X17: the CSV export quotes nothing: an edge from [a,b] to [c] and an
    edge from [a] to [b,c] are written as the same row. *)
Theorem exportGraph_csv_no_quoting graph1 graph2 a b c value hash timestamp :
  fg_edges graph1 = [mkEdge (a +:+ "," +:+ b) c value hash timestamp] ->
  fg_edges graph2 = [mkEdge a (b +:+ "," +:+ c) value hash timestamp] ->
  exportGraph graph1 (Some "csv") = exportGraph graph2 (Some "csv").
Proof.
  intros He1 He2. unfold exportGraph.
  change (String.eqb "csv" "json") with false.
  change (String.eqb "csv" "dot") with false.
  change (String.eqb "csv" "csv") with true. cbv iota.
  f_equal. rewrite !exportToCsv_rows, He1, He2. cbn [fold_right].
  cbn [edge_from edge_to edge_value edge_hash edge_timestamp].
  by rewrite !append_assoc.
Qed.

(** ** Over a ledger that honours the limit *)

Lemma length_slice0_le {A : Type} (l : list A) n :
  (List.length (slice0 l n) <= List.length l)%nat.
Proof. unfold slice0. destruct (n <? 0)%Z; rewrite length_firstn; lia. Qed.

Lemma In_slice0 {A : Type} (l : list A) n x : In x (slice0 l n) -> In x l.
Proof.
  assert (forall k, In x (firstn k l) -> In x l) as Hfirst.
  { intros k Hin. rewrite <- (firstn_skipn k l). apply in_app_iff. by left. }
  unfold slice0. destruct (n <? 0)%Z; apply Hfirst.
Qed.

(** A call on an address that has its node returns at once. *)
Lemma traceRecursive_present fuel a g w d k dir r :
  NodeMap.has (nodes g) a = true ->
  _traceRecursive fuel a (g, w) d k dir = Some r -> r = (g, w).
Proof.
  intros Ha. destruct fuel as [|fuel]; [done|]. simpl. rewrite Ha.
  destruct (d >=? k)%Z; by intros [= <-].
Qed.

Lemma findPaths_single fuel :
  single_pages ->
  forall current target path st depth maxDepth st',
    _findPaths fuel current target path st depth maxDepth = Some st' ->
    (List.length (paths st') <= List.length (paths st) + 1)%nat.
Proof.
  intros Hpage.
  induction fuel as [|fuel IH];
    intros current target path st depth maxDepth st'; [done|]. simpl.
  destruct ((depth >=? maxDepth)%Z
            || (Z.of_nat (List.length (paths st)) >=? maxPaths)%Z);
    [intros [= <-]; lia|].
  destruct (String.eqb (toLowerCase current) (toLowerCase target)).
  { intros [= <-]. simpl. rewrite length_app. simpl. lia. }
  destruct (_fetchAddressTransactions current 1 (world st))
    as [[txs|] w1] eqn:Hfetch; [|intros [= <-]; simpl; lia].
  apply Hpage in Hfetch.
  pose proof (length_slice0_le txs (maxTransactionsForPaths config)) as Hlen.
  destruct (slice0 txs (maxTransactionsForPaths config)) as [|tx [|tx' l]];
    [intros [= <-]; simpl; lia| |simpl in Hlen; lia].
  cbn [find_loop]. unfold find_step.
  destruct (tx_from tx) as [from|]; [|intros [= <-]; simpl; lia].
  destruct (tx_to tx) as [to|]; [|intros [= <-]; simpl; lia].
  destruct (matches (Some from) current && truthy_string to);
    [|intros [= <-]; simpl; lia].
  destruct (decide _); [intros [= <-]; simpl; lia|].
  destruct (_findPaths fuel _ _ _ _ _ _) as [st1|] eqn:Hrun; [|done].
  intros [= <-]. simpl. by apply IH in Hrun.
Qed.

Lemma tracePath_single_run fromAddress toAddress w r w' :
  single_pages ->
  tracePath fromAddress toAddress w = Some (Ok r, w') ->
  (List.length (pr_paths r) <= 1)%nat /\ pr_pathCount r <= 1.
Proof.
  intros Hpage Hrun.
  apply tracePath_inv in Hrun as (st & Hrun & -> & ->).
  apply findPaths_single in Hrun; [|done]. simpl in Hrun. lia.
Qed.

(** X18: over a ledger that honours the limit 1 of the search (no page
    holds more than one transaction) the search follows a single chain of
    transfers, and [tracePath] returns at most one path. *)
Theorem tracePath_single_path fromAddress toAddress w :
  truthy_string fromAddress = true -> truthy_string toAddress = true ->
  single_pages ->
  exists r w',
    tracePath fromAddress toAddress w = Some (Ok r, w') /\
    (List.length (pr_paths r) <= 1)%nat /\ pr_pathCount r <= 1.
Proof.
  intros Hfrom Hto Hpage.
  destruct (tracePath_total fromAddress toAddress w Hfrom Hto)
    as (r & w' & Hrun).
  exists r, w'. split; [done|]. by eapply tracePath_single_run.
Qed.

Lemma traceRecursive_chain k dir fuel :
  own_pages ->
  forall a d g w g' w',
    _traceRecursive fuel a (g, w) d k dir = Some (g', w') ->
    node_total (g, w) <= node_total (g', w') /\
    node_total (g', w') - node_total (g, w) <= Z.max 0 (k - d).
Proof.
  intros Hpage. unfold node_total. simpl.
  induction fuel as [|fuel IH]; intros a d g w g' w'; [done|].
  intros Hrun.
  destruct (Z.ltb_spec d k) as [Hd|Hd]; cycle 1.
  { simpl in Hrun. replace (d >=? k)%Z with true in Hrun by lia.
    injection Hrun as <- <-. lia. }
  destruct (NodeMap.has (nodes g) a) eqn:Ha.
  { apply traceRecursive_present in Hrun; [|done]. injection Hrun as <- <-. lia. }
  apply traceRecursive_expand in Hrun; [|done..].
  set (g1 := set_node g a _) in Hrun.
  assert (Z.of_nat (List.length (nodes g1)) = Z.of_nat (List.length (nodes g)) + 1)
    as Hg1.
  { unfold g1. simpl. rewrite NodeMap_set_fresh by done.
    rewrite length_app. simpl. lia. }
  assert (NodeMap.has (nodes g1) a = true) as Ha1
    by by apply NodeMap_has_set_same.
  destruct (_fetchAddressTransactions a 1 w) as [[txs|] w1] eqn:Hfetch;
    [|destruct Hrun as [-> ->]; lia].
  destruct (Hpage _ _ _ _ Hfetch) as [Hlen Hown].
  pose proof (length_slice0_le txs (maxTransactionsPerAddress config)) as Hlen'.
  pose proof (In_slice0 txs (maxTransactionsPerAddress config)) as Hin.
  destruct (slice0 txs (maxTransactionsPerAddress config)) as [|tx [|tx' l]];
    [injection Hrun as <- <-; lia| |simpl in Hlen'; lia].
  specialize (Hown tx (Hin tx (or_introl eq_refl))).
  cbn [trace_loop] in Hrun.
  destruct (trace_out _ a d k dir tx (g1, w1)) as [[g2 w2]|] eqn:Hout; [|done].
  destruct (trace_in _ a d k dir tx (g2, w2)) as [[g3 w3]|] eqn:Hinc; [|done].
  injection Hrun as <- <-.
  assert (Z.of_nat (List.length (nodes g1)) <= Z.of_nat (List.length (nodes g2)) /\
          Z.of_nat (List.length (nodes g2)) - Z.of_nat (List.length (nodes g1))
          <= Z.max 0 (k - (d + 1)) /\
          NodeMap.has (nodes g2) a = true) as (Hlo2 & Hhi2 & Ha2).
  { assert ((g2, w2) = (g1, w1) ->
            Z.of_nat (List.length (nodes g1)) <= Z.of_nat (List.length (nodes g2)) /\
            Z.of_nat (List.length (nodes g2)) - Z.of_nat (List.length (nodes g1))
            <= Z.max 0 (k - (d + 1)) /\
            NodeMap.has (nodes g2) a = true) as Hsame.
    { intros [= -> ->]. repeat split; [lia..|done]. }
    unfold trace_out in Hout.
    destruct (String.eqb dir "out" || String.eqb dir "both");
      [|by apply Hsame; injection Hout as <- <-].
    rewrite Hown in Hout.
    destruct (tx_to tx) as [to|]; [|by apply Hsame; injection Hout as <- <-].
    destruct (matches (Some a) a && truthy_string to);
      [|by apply Hsame; injection Hout as <- <-].
    destruct (d + 1 <? k)%Z.
    - simpl in Hout. pose proof Hout as Hkeep.
      apply traceRecursive_keeps_nodes in Hkeep.
      apply IH in Hout. cbn [nodes push_edge] in Hout.
      split; [lia|]. split; [lia|]. by apply Hkeep.
    - injection Hout as <- <-. simpl. repeat split; [lia..|done]. }
  assert (nodes g3 = nodes g2) as Hg3.
  { unfold trace_in in Hinc.
    destruct (String.eqb dir "in" || String.eqb dir "both");
      [|by injection Hinc as <- <-].
    rewrite Hown in Hinc.
    destruct (tx_to tx) as [to|]; [|by injection Hinc as <- <-].
    destruct (matches (Some to) a && truthy_string a);
      [|by injection Hinc as <- <-].
    cbn [fst snd] in Hinc.
    destruct (d + 1 <? k)%Z; [|injection Hinc as Hg _; by subst g3].
    apply traceRecursive_present in Hinc; [|done].
    injection Hinc as Hg _. by subst g3. }
  rewrite Hg3. lia.
Qed.

Lemma traceFromAddress_chain_run address options now w fg w' :
  own_pages ->
  traceFromAddress address options now w = Some (Ok fg, w') ->
  Z.of_nat (List.length (fg_nodes fg))
  <= Z.max 0 (or_Z (opt_depth options) (maxDepth config)) /\
  Z.of_nat (List.length (fg_edges fg))
  <= 2 * Z.of_nat (List.length (fg_nodes fg)).
Proof.
  intros Hpage Hrun.
  apply traceFromAddress_inv in Hrun as (g' & -> & Hrun).
  simpl. unfold NodeMap.values. rewrite length_map. split.
  - apply traceRecursive_chain in Hrun as [_ Hrun]; [|done].
    unfold node_total in Hrun. simpl in Hrun. lia.
  - set (dir := or_string (opt_direction options) "both") in *.
    apply (traceRecursive_counts _ dir _ _ 1 eq_refl) in Hrun as [HN HE];
      [|lia|].
    + unfold node_total, edge_total, out_edges, in_edges in HN, HE.
      simpl in HN, HE. repeat case_match; lia.
    + intros a w0 txs w0' Hfetch. apply Hpage in Hfetch as [Hlen _].
      pose proof (length_slice0_le txs (maxTransactionsPerAddress config)). lia.
Qed.

(** X19: over a ledger whose pages hold at most one transaction, sent by
    the address asked for, the graph is a single chain below the seed: it
    has no more nodes than the depth bound, and no more than two edges for
    each node. *)
Theorem traceFromAddress_chain address options now w :
  truthy_string address = true ->
  own_pages ->
  exists fg w',
    traceFromAddress address options now w = Some (Ok fg, w') /\
    Z.of_nat (List.length (fg_nodes fg))
    <= Z.max 0 (or_Z (opt_depth options) (maxDepth config)) /\
    Z.of_nat (List.length (fg_edges fg))
    <= 2 * Z.of_nat (List.length (fg_nodes fg)).
Proof.
  intros Haddress Hpage.
  destruct (traceFromAddress_total address options now w Haddress)
    as (fg & w' & Hrun).
  exists fg, w'. split; [done|]. by eapply traceFromAddress_chain_run.
Qed.

(** ** What the DOT export keeps *)

Lemma fold_left_projection {A B : Type} (p : A -> B)
    (G : string -> B -> string) (l1 l2 : list A) (init : string) :
  map p l1 = map p l2 ->
  fold_left (fun acc x => G acc (p x)) l1 init
  = fold_left (fun acc x => G acc (p x)) l2 init.
Proof.
  intros Hmap.
  assert (forall l init, fold_left (fun acc x => G acc (p x)) l init
                         = fold_left G (map p l) init) as Hfold.
  { clear. induction l as [|x l IH]; intros init; [done|]. simpl. apply IH. }
  by rewrite !Hfold, Hmap.
Qed.

(** X20: the DOT text keeps of a node its address and its type, and of an
    edge its two ends and its value: two graphs that agree on these have
    the same DOT text, whatever the depths of their nodes, the hashes and
    timestamps of their edges, their metadata and their summary. *)
Theorem exportGraph_dot_keeps graph1 graph2 :
  map (fun n => (node_address n, node_type n)) (fg_nodes graph1)
  = map (fun n => (node_address n, node_type n)) (fg_nodes graph2) ->
  map (fun e => (edge_from e, edge_to e, edge_value e)) (fg_edges graph1)
  = map (fun e => (edge_from e, edge_to e, edge_value e)) (fg_edges graph2) ->
  exportGraph graph1 (Some "dot") = exportGraph graph2 (Some "dot").
Proof.
  intros Hnodes Hedges. unfold exportGraph.
  change (String.eqb "dot" "json") with false.
  change (String.eqb "dot" "dot") with true. cbv iota.
  f_equal. unfold _exportToDot. f_equal.
  rewrite (fold_left_projection
             (fun n => (node_address n, node_type n))
             (fun dot y =>
                dot +:+ "  " +:+ dq +:+ fst y +:+ dq +:+ " [label=" +:+ dq
                    +:+ (String.substring 0 10 (fst y) +:+ "...") +:+ dq
                    +:+ ", fillcolor="
                    +:+ match snd y with
                        | origin => "lightblue"
                        | intermediary => "lightgray"
                        end
                    +:+ ", style=filled];" +:+ nl)
             (fg_nodes graph1) (fg_nodes graph2)) by done.
  apply (fold_left_projection
           (fun e => (edge_from e, edge_to e, edge_value e))
           (fun dot y =>
              dot +:+ "  " +:+ dq +:+ fst (fst y) +:+ dq +:+ " -> " +:+ dq
                  +:+ snd (fst y) +:+ dq +:+ " [label=" +:+ dq +:+ snd y +:+ dq
                  +:+ "];" +:+ nl)
           (fg_edges graph1) (fg_edges graph2)).
  done.
Qed.

End Tracer.

(** * The ledger seen from outside *)

Section Ledgers.

Variable toLowerCase : string -> string.
Variable World : Type.
Variable fetch : string -> Z -> World -> option (list Tx) * World.
Variable parseFloat : string -> float.
Variable config : Config.




End Ledgers.

(** * The constructor *)

(** X21: the constructor keeps every property its argument has as it is
    given, a falsy one too ([maxDepth: 0] stays 0 and [network: ''] stays
    empty, because the spread comes after the defaults); a property the
    argument does not have gets its default: [ethereum], 5, 10 and 5. *)
Theorem constructor_keeps_given config :
  network (constructor config) = default "ethereum" (arg_network config) /\
  maxDepth (constructor config) = default 5 (arg_maxDepth config) /\
  maxTransactionsPerAddress (constructor config)
  = default 10 (arg_maxTransactionsPerAddress config) /\
  maxTransactionsForPaths (constructor config)
  = default 5 (arg_maxTransactionsForPaths config).
Proof.
  destruct config as [[?|] [?|] [?|] [?|]]; done.
Qed.

(** * The options of the command line *)

Lemma append_flag (key : string) : "--" +:+ key = String "-" (String "-" key).
Proof. reflexivity. Qed.

Lemma substring_longer (s : string) n :
  String.substring 0 (S n + String.length s) s = s.
Proof.
  revert n. induction s as [|c s IH]; intros n; [done|]. simpl.
  f_equal. replace (n + S (String.length s))%nat
    with (S n + String.length s)%nat by lia.
  apply IH.
Qed.

Lemma startsWith_flag (key : string) : startsWith ("--" +:+ key) "--" = true.
Proof.
  rewrite append_flag. unfold startsWith. cbn [String.prefix].
  destruct (ascii_dec "-" "-"); [|done]. by destruct key.
Qed.

Lemma substring_from_flag (key : string) : substring_from 2 ("--" +:+ key) = key.
Proof.
  rewrite append_flag. unfold substring_from. simpl.
  apply (substring_longer key 1).
Qed.

Lemma startsWith_inv (arg : string) :
  startsWith arg "--" = true -> arg = "--" +:+ substring_from 2 arg.
Proof.
  unfold startsWith. destruct arg as [|c1 [|c2 rest]]; cbn [String.prefix];
    try done.
  - by destruct (ascii_dec _ _).
  - destruct (ascii_dec "-" c1) as [<-|]; [|done].
    destruct (ascii_dec "-" c2) as [<-|]; [|done].
    intros _. rewrite append_flag. f_equal. f_equal.
    unfold substring_from. simpl. symmetry. apply (substring_longer rest 1).
Qed.

Lemma is_value_no_flag value key :
  is_value value = true -> value <> "--" +:+ key.
Proof.
  unfold is_value. intros H ->. apply andb_true_iff in H as [_ H].
  by rewrite startsWith_flag in H.
Qed.

Lemma lookup_set_option options key0 value0 key :
  set_option options key0 value0 !! key
  = if String.eqb key0 "__proto__" then options !! key
    else if String.eqb key0 key then Some value0 else options !! key.
Proof.
  unfold set_option. destruct (String.eqb key0 "__proto__"); [done|].
  destruct (String.eqb_spec key0 key) as [->|Hne].
  - by rewrite lookup_insert_eq.
  - by rewrite lookup_insert_ne.
Qed.

(** What the loop leaves under [key]: the value of the last flag of [key]
    that takes one; what was there before when no flag of [key] does. *)
Lemma parseOptions_from_lookup n : forall args options key,
  (List.length args <= n)%nat ->
  (key = "__proto__" \/ (forall i value, ~ sets args i key value) ->
   parseOptions_from args options !! key = options !! key) /\
  (forall i value,
     key <> "__proto__" -> sets args i key value ->
     (forall j value', (i < j)%nat -> ~ sets args j key value') ->
     parseOptions_from args options !! key = Some value).
Proof.
  induction n as [|n IH]; intros args options key Hlen.
  { destruct args; [|simpl in Hlen; lia]. split; [done|].
    by intros i value _ [? _]. }
  destruct args as [|arg rest]; [split; [done|]; by intros i value _ [? _]|].
  simpl in Hlen. cbn [parseOptions_from].
  assert (forall i value, sets rest i key value <-> sets (arg :: rest) (S i) key value)
    as Hshift by done.
  destruct (startsWith arg "--") eqn:Hflag; cycle 1.
  { (* a positional argument *)
    assert (forall value, ~ sets (arg :: rest) 0 key value) as Hzero.
    { intros value [[= ->] _]. by rewrite startsWith_flag in Hflag. }
    destruct (IH rest options key ltac:(lia)) as [IHnone IHlast]. split.
    - intros Hnone. apply IHnone. destruct Hnone as [?|Hnone]; [by left|right].
      intros i value Hs. apply (Hnone (S i) value). by apply Hshift.
    - intros [|i] value Hkey Hs Hlast; [by destruct (Hzero value)|].
      apply (IHlast i value); [done|by apply Hshift|].
      intros j value' Hj Hs'. apply (Hlast (S j) value'); [lia|by apply Hshift]. }
  apply startsWith_inv in Hflag.
  set (key0 := substring_from 2 arg) in *.
  destruct rest as [|value0 rest'].
  { (* the last argument is a flag *)
    split; [done|]. intros [|[|i]] value _ (_ & Hv & _); done. }
  destruct (truthy_string value0 && negb (startsWith value0 "--")) eqn:Hvalue;
    cycle 1.
  { (* the flag takes no value *)
    assert (forall value, ~ sets (arg :: value0 :: rest') 0 key value) as Hzero.
    { intros value (_ & [= ->] & Hv). unfold is_value in Hv. congruence. }
    destruct (IH (value0 :: rest') options key ltac:(simpl in *; lia))
      as [IHnone IHlast]. split.
    - intros Hnone. apply IHnone. destruct Hnone as [?|Hnone]; [by left|right].
      intros i value Hs. apply (Hnone (S i) value). by apply Hshift.
    - intros [|i] value Hkey Hs Hlast; [by destruct (Hzero value)|].
      apply (IHlast i value); [done|by apply Hshift|].
      intros j value' Hj Hs'. apply (Hlast (S j) value'); [lia|by apply Hshift]. }
  (* the flag takes [value0], and the loop steps over it *)
  assert (forall value, ~ sets (arg :: value0 :: rest') 1 key value) as Hone.
  { intros value ([= Hv] & _). by apply is_value_no_flag in Hv. }
  assert (forall i value,
            sets rest' i key value <-> sets (arg :: value0 :: rest') (S (S i)) key value)
    as Hshift2 by done.
  destruct (IH rest' (set_option options key0 value0) key ltac:(simpl in *; lia))
    as [IHnone IHlast]. split.
  - intros Hnone. rewrite IHnone.
    + rewrite lookup_set_option.
      destruct (String.eqb_spec key0 "__proto__") as [|Hproto]; [done|].
      destruct (String.eqb_spec key0 key) as [Heq|]; [|done].
      destruct Hnone as [->|Hnone]; [done|].
      destruct (Hnone 0%nat value0). split; [|done]. simpl. congruence.
    + destruct Hnone as [?|Hnone]; [by left|right].
      intros i value Hs. apply (Hnone (S (S i)) value). by apply Hshift2.
  - intros [|[|i]] value Hkey Hs Hlast.
    + (* the last flag of [key] is this one *)
      destruct Hs as ([= Harg] & [= ->] & _).
      assert (key0 = key) as ->.
      { rewrite Hflag in Harg. by apply String.app_inj in Harg. }
      rewrite (proj1 (IH rest' _ key ltac:(simpl in *; lia))).
      * rewrite lookup_set_option. apply String.eqb_neq in Hkey.
        by rewrite Hkey, String.eqb_refl.
      * right. intros i value' Hs. apply (Hlast (S (S i)) value'); [lia|].
        by apply Hshift2.
    + by destruct (Hone value).
    + apply (IHlast i value); [done|by apply Hshift2|].
      intros j value' Hj Hs'. apply (Hlast (S (S j)) value'); [lia|by apply Hshift2].
Qed.

(** X22: what [parseOptions] returns under a key: nothing under
    [__proto__], nothing when no flag of the key is followed by a value (an
    argument that is not empty and does not start with two dashes), and
    otherwise the value after the last flag of the key that is followed by
    one. *)
Theorem parseOptions_lookup args key :
  (key = "__proto__" \/ (forall i value, ~ sets args i key value) ->
   parseOptions args !! key = None) /\
  (forall i value,
     key <> "__proto__" -> sets args i key value ->
     (forall j value', (i < j)%nat -> ~ sets args j key value') ->
     parseOptions args !! key = Some value).
Proof.
  unfold parseOptions.
  destruct (parseOptions_from_lookup (List.length args) args ∅ key (le_n _))
    as [Hnone Hlast].
  split; [|done]. intros H. by rewrite Hnone.
Qed.

Lemma parseOptions_from_flags kvs : forall options,
  forallb (fun kv => is_key (fst kv) && is_value (snd kv)) kvs = true ->
  parseOptions_from (flags kvs) options
  = fold_left (fun options kv => <[fst kv := snd kv]> options) kvs options.
Proof.
  induction kvs as [|[key value] kvs IH]; intros options; [done|].
  cbn [forallb fst snd]. intros Hall.
  apply andb_true_iff in Hall as [Hkv Hall].
  apply andb_true_iff in Hkv as [Hkey Hvalue].
  unfold flags. cbn [flat_map app fst snd parseOptions_from].
  rewrite startsWith_flag, substring_from_flag.
  unfold is_value in Hvalue. rewrite Hvalue.
  fold (flags kvs). rewrite IH by done. cbn [fold_left fst snd].
  unfold set_option. unfold is_key in Hkey.
  by destruct (String.eqb key "__proto__").
Qed.

(** X23: options written out flag by flag are read back: when no key is
    [__proto__] and every value is one a flag can take, [parseOptions]
    returns the map of the pairs, the later pair counting where a key is
    written twice. *)
Theorem parseOptions_flags kvs :
  forallb (fun kv => is_key (fst kv) && is_value (snd kv)) kvs = true ->
  parseOptions (flags kvs) = list_to_map (rev kvs).
Proof.
  intros Hall. unfold parseOptions. rewrite parseOptions_from_flags by done.
  rewrite <- fold_left_rev_right.
  induction (rev kvs) as [|[key value] l IH]; [done|].
  simpl. by rewrite IH.
Qed.

(** * The requests of a trace *)

Section Requests.

Variable toLowerCase : string -> string.
Variable World : Type.
Variable fetch : string -> Z -> World -> option (list Tx) * World.
Variable parseFloat : string -> float.
Variable config : Config.

Section Calls.

Variables (k : Z) (dir : string).

Lemma trace_out_logged visit_l visit a d tx :
  follows visit_l visit -> follows
    (fun _ => trace_out toLowerCase (World * list (string * Z)) visit_l a d k dir tx)
    (fun _ => trace_out toLowerCase World visit a d k dir tx).
Proof.
  intros Hvisit _ g w log g' w' log'. unfold trace_out. cbn [fst snd].
  assert (Some (g, (w, log)) = Some (g', (w', log')) ->
          Some (g, w) = Some (g', w') /\
          exists new, nodes g' = nodes g ++ new /\ log' = log ++ requests new)
    as Hsame.
  { intros [= <- <- <-]. split; [done|]. exists []. by rewrite !app_nil_r. }
  destruct (String.eqb dir "out" || String.eqb dir "both");
    [|exact Hsame].
  destruct (tx_from tx) as [from|]; [|exact Hsame].
  destruct (tx_to tx) as [to|]; [|exact Hsame].
  destruct (matches toLowerCase (Some from) a && truthy_string to);
    [|exact Hsame].
  destruct (d + 1 <? k)%Z.
  - intros Hv. by apply Hvisit in Hv.
  - intros [= <- <- <-]. split; [done|]. exists []. by rewrite !app_nil_r.
Qed.

Lemma trace_in_logged visit_l visit a d tx :
  follows visit_l visit -> follows
    (fun _ => trace_in toLowerCase (World * list (string * Z)) visit_l a d k dir tx)
    (fun _ => trace_in toLowerCase World visit a d k dir tx).
Proof.
  intros Hvisit _ g w log g' w' log'. unfold trace_in. cbn [fst snd].
  assert (Some (g, (w, log)) = Some (g', (w', log')) ->
          Some (g, w) = Some (g', w') /\
          exists new, nodes g' = nodes g ++ new /\ log' = log ++ requests new)
    as Hsame.
  { intros [= <- <- <-]. split; [done|]. exists []. by rewrite !app_nil_r. }
  destruct (String.eqb dir "in" || String.eqb dir "both");
    [|exact Hsame].
  destruct (tx_to tx) as [to|]; [|exact Hsame].
  destruct (tx_from tx) as [from|]; [|exact Hsame].
  destruct (matches toLowerCase (Some to) a && truthy_string from);
    [|exact Hsame].
  destruct (d + 1 <? k)%Z.
  - intros Hv. by apply Hvisit in Hv.
  - intros [= <- <- <-]. split; [done|]. exists []. by rewrite !app_nil_r.
Qed.

Lemma trace_loop_logged visit_l visit a d txs :
  follows visit_l visit -> follows
    (fun _ => trace_loop toLowerCase (World * list (string * Z)) visit_l a d k dir txs)
    (fun _ => trace_loop toLowerCase World visit a d k dir txs).
Proof.
  intros Hvisit _. induction txs as [|tx txs IH]; intros g w log g' w' log'.
  - intros [= <- <- <-]. split; [done|]. exists []. by rewrite !app_nil_r.
  - cbn [trace_loop].
    destruct (trace_out toLowerCase (World * list (string * Z)) visit_l a d k dir tx (g, (w, log)))
      as [[g1 [w1 log1]]|] eqn:Hout; [|done].
    destruct (trace_in toLowerCase (World * list (string * Z)) visit_l a d k dir tx (g1, (w1, log1)))
      as [[g2 [w2 log2]]|] eqn:Hin; [|done].
    intros Hloop.
    apply (trace_out_logged _ visit a d tx Hvisit a) in Hout
      as (-> & new1 & Hn1 & ->).
    apply (trace_in_logged _ visit a d tx Hvisit a) in Hin
      as (-> & new2 & Hn2 & ->).
    apply IH in Hloop as (-> & new3 & Hn3 & ->).
    split; [done|]. exists (new1 ++ new2 ++ new3). split.
    + by rewrite Hn3, Hn2, Hn1, <- !app_assoc.
    + unfold requests. by rewrite !map_app, <- !app_assoc.
Qed.

Lemma traceRecursive_logged fuel : forall d,
  follows
    (fun a st => _traceRecursive toLowerCase (World * list (string * Z)) (logged fetch) config fuel a st d k dir)
    (fun a st => _traceRecursive toLowerCase World fetch config fuel a st d k dir).
Proof.
  induction fuel as [|fuel IH]; intros d a g w log g' w' log'; [done|].
  cbn [_traceRecursive fst snd].
  destruct (d >=? k)%Z.
  { intros [= <- <- <-]. split; [done|]. exists []. by rewrite !app_nil_r. }
  destruct (NodeMap.has (nodes g) a) eqn:Ha.
  { intros [= <- <- <-]. split; [done|]. exists []. by rewrite !app_nil_r. }
  unfold logged at 1. cbn [fst snd].
  set (n := mkNode a d (if (d =? 0)%Z then origin else intermediary)).
  destruct (fetch a 1 w) as [[txs|] w1].
  - intros Hloop.
    apply (trace_loop_logged _ _ a d _ (IH (d + 1)) a) in Hloop
      as (-> & new & Hn & ->).
    split; [done|]. exists ((a, n) :: new). split.
    + rewrite Hn. simpl. rewrite NodeMap_set_fresh by done.
      by rewrite <- app_assoc.
    + unfold requests. simpl. by rewrite <- app_assoc.
  - intros [= <- <- <-]. split; [done|]. exists [(a, n)]. split; [|done].
    simpl. by rewrite NodeMap_set_fresh.
Qed.

End Calls.

(** X24: a trace asks the ledger exactly once for each node of the graph,
    in the order of the nodes and each time with the limit 1, and for
    nothing else; noting the requests changes neither the graph nor the
    world. *)
Theorem traceFromAddress_requests address options now w :
  truthy_string address = true ->
  exists fg w',
    traceFromAddress toLowerCase _ fetch parseFloat config address options now w
    = Some (Ok fg, w') /\
    traceFromAddress toLowerCase _ (logged fetch) parseFloat config
      address options now (w, [])
    = Some (Ok fg, (w', map (fun n => (node_address n, 1)) (fg_nodes fg))).
Proof.
  intros Haddress.
  destruct (traceFromAddress_total toLowerCase _ (logged fetch) parseFloat config
              address options now (w, []) Haddress) as (fg & [w' log] & Hrun).
  pose proof Hrun as Hinv.
  apply traceFromAddress_inv in Hinv as (g' & -> & Hinv).
  apply traceRecursive_logged in Hinv as (Hplain & new & Hn & ->).
  exists (_formatGraph parseFloat g'), w'. split.
  - unfold traceFromAddress, _validateAddress. rewrite Haddress. cbn [negb].
    unfold empty_graph in Hplain. by rewrite Hplain.
  - rewrite Hrun. simpl in Hn. subst new. simpl.
    unfold NodeMap.values. by rewrite map_map.
Qed.

End Requests.

(** * The requests of a path search *)

Section SearchRequests.

Variable toLowerCase : string -> string.
Variable World : Type.
Variable fetch : string -> Z -> World -> option (list Tx) * World.
Variable config : Config.
Variables (target : string) (maxDepth : Z).

(** The search state [st'] has the log of [st] and at most [bound] more
    requests, each with the limit 1. *)
Local Abbreviation asks bound st st' :=
  (exists new : list (string * Z),
     snd (world (World * list (string * Z)) st')
     = snd (world (World * list (string * Z)) st) ++ new /\
     Forall (fun request : string * Z => snd request = 1) new /\
     Z.of_nat (List.length new) <= bound).

Lemma find_loop_asks search current path txs R :
  0 <= R ->
  (forall next path' st st',
     search next path' st = Some st' -> asks R st st') ->
  forall st st',
    find_loop toLowerCase (World * list (string * Z)) search current path txs st
    = Some st' ->
    asks (Z.of_nat (List.length txs) * R) st st'.
Proof.
  intros HR Hsearch. induction txs as [|tx txs IH]; intros st st'.
  - intros [= <-]. exists []. rewrite app_nil_r. repeat split; [done|simpl; lia].
  - cbn [find_loop].
    destruct (find_step toLowerCase _ search current path tx st)
      as [st1|] eqn:Hstep; [|done].
    intros Hloop. apply IH in Hloop as (new2 & Hlog2 & Hone2 & Hlen2).
    assert (asks R st st1) as (new1 & Hlog1 & Hone1 & Hlen1).
    { unfold find_step in Hstep. repeat case_match; simplify_eq; eauto;
        exists []; rewrite app_nil_r; repeat split; done || (simpl; lia). }
    exists (new1 ++ new2). split; [by rewrite Hlog2, Hlog1, app_assoc|].
    split; [by apply Forall_app|]. rewrite length_app. cbn [List.length]. lia.
Qed.

Lemma findPaths_asks fuel :
  0 <= maxTransactionsForPaths config ->
  forall current path st depth st',
    _findPaths toLowerCase (World * list (string * Z)) (logged fetch) config
      fuel current target path st depth maxDepth = Some st' ->
    asks (reach (maxTransactionsForPaths config) (Z.to_nat (maxDepth - depth)))
      st st'.
Proof.
  intros Hm.
  induction fuel as [|fuel IH]; intros current path st depth st'; [done|].
  cbn [_findPaths].
  pose proof (reach_nonneg (maxTransactionsForPaths config)
                (Z.to_nat (maxDepth - depth)) Hm) as Hreach.
  destruct ((depth >=? maxDepth)%Z
            || (Z.of_nat (List.length (paths _ st)) >=? maxPaths)%Z) eqn:Hguard.
  { intros [= <-]. exists []. rewrite app_nil_r. repeat split; [done|simpl; lia]. }
  apply orb_false_iff in Hguard as [Hdepth _].
  destruct (String.eqb (toLowerCase current) (toLowerCase target)).
  { intros [= <-]. exists []. rewrite app_nil_r. repeat split; [done|simpl; lia]. }
  replace (Z.to_nat (maxDepth - depth))
    with (S (Z.to_nat (maxDepth - (depth + 1)))) in * by lia.
  cbn [reach] in *.
  set (R := reach (maxTransactionsForPaths config)
              (Z.to_nat (maxDepth - (depth + 1)))) in *.
  assert (0 <= R) as HR by by apply reach_nonneg.
  unfold logged at 1. destruct (world _ st) as [w log] eqn:Hworld. cbn [fst snd].
  destruct (fetch current 1 w) as [[txs|] w1].
  - destruct (find_loop _ _ _ _ _ _ _) as [st1|] eqn:Hloop; [|done].
    intros [= <-]. cbn [world].
    apply (find_loop_asks _ _ _ _ R HR) in Hloop as (new & Hlog & Hone & Hlen);
      [|intros next path' st0 st0'; apply IH].
    cbn [world snd] in Hlog.
    exists ((current, 1) :: new).
    split; [by rewrite Hlog, <- app_assoc|]. split; [by constructor|].
    cbn [List.length].
    pose proof (length_slice0 txs _ Hm) as Hwidth.
    assert (Z.of_nat (List.length (slice0 txs (maxTransactionsForPaths config))) * R
            <= maxTransactionsForPaths config * R) as Hsub
      by (apply Z.mul_le_mono_nonneg_r; lia).
    lia.
  - intros [= <-]. cbn [world snd]. exists [(current, 1)].
    split; [done|]. split; [by repeat constructor|]. simpl. nia.
Qed.

End SearchRequests.

(** X25: when [maxTransactionsForPaths] is [m >= 0], a path search asks
    the ledger at most [1 + m + m^2 + m^3 + m^4] times, and each time with
    the limit 1. *)
Theorem tracePath_requests toLowerCase (World : Type)
    (fetch : string -> Z -> World -> option (list Tx) * World) config
    fromAddress toAddress w :
  truthy_string fromAddress = true -> truthy_string toAddress = true ->
  0 <= maxTransactionsForPaths config ->
  exists r w' log,
    tracePath toLowerCase (World * list (string * Z)) (logged fetch) config
      fromAddress toAddress (w, []) = Some (Ok r, (w', log)) /\
    Forall (fun request => snd request = 1) log /\
    Z.of_nat (List.length log) <= reach (maxTransactionsForPaths config) 5.
Proof.
  intros Hfrom Hto Hm.
  destruct (tracePath_total toLowerCase _ (logged fetch) config
              fromAddress toAddress (w, []) Hfrom Hto) as (r & [w' log] & Hrun).
  exists r, w', log. split; [done|].
  unfold tracePath, _validateAddress in Hrun. rewrite Hfrom, Hto in Hrun.
  cbn [negb] in Hrun.
  destruct (_findPaths _ _ _ _ _ _ _ _ _ _ _) as [st|] eqn:Hsearch; [|done].
  injection Hrun as _ Hworld.
  apply findPaths_asks in Hsearch as (new & Hlog & Hone & Hlen); [|done].
  rewrite Hworld in Hlog. simpl in Hlog. subst new. by split.
Qed.

(** * The tracer over the ledger of the repository *)

Section Repository.

Variable toLowerCase : string -> string.
Variable World : Type.
Variable Math_random : World -> float * World.
Variable Date_now : World -> Z * World.
Variable toString16 : float -> string.
Variable toFixed4 : float -> string.
Variable parseFloat : string -> float.
Variable config : Config.

Local Abbreviation fetch :=
  (Mock._fetchAddressTransactions World Math_random Date_now toString16 toFixed4).

Lemma Mock_transaction_fields address i w :
  let tx := fst (Mock.transaction World Math_random Date_now toString16 toFixed4
                   address i w) in
  tx_from tx = Some address /\
  (exists t, tx_to tx = Some ("0x" +:+ t)) /\
  tx_blockNumber tx = Some (12345678 - i).
Proof.
  unfold Mock.transaction.
  destruct (Math_random w) as [r1 w1]. destruct (Math_random w1) as [r2 w2].
  destruct (Math_random w2) as [r3 w3]. destruct (Date_now w3) as [t w4].
  simpl. eauto.
Qed.

Lemma Mock_transactions_fields address count : forall i w,
  let txs := fst (Mock.transactions World Math_random Date_now toString16
                    toFixed4 address count i w) in
  List.length txs = count /\
  forall j tx, txs !! j = Some tx ->
    tx_from tx = Some address /\
    (exists t, tx_to tx = Some ("0x" +:+ t)) /\
    tx_blockNumber tx = Some (12345678 - (i + Z.of_nat j)).
Proof.
  induction count as [|count IH]; intros i w; [done|].
  cbn [Mock.transactions].
  pose proof (Mock_transaction_fields address i w) as Htx.
  destruct (Mock.transaction _ _ _ _ _ address i w) as [tx w1].
  specialize (IH (i + 1) w1).
  destruct (Mock.transactions _ _ _ _ _ address count (i + 1) w1) as [rest w2].
  simpl in *. destruct IH as [Hlen Hrest]. split; [by rewrite Hlen|].
  intros [|j] tx'.
  - intros [= <-]. by rewrite Z.add_0_r.
  - intros Hj. apply Hrest in Hj as (? & ? & ->).
    repeat split; [done..|]. f_equal. lia.
Qed.

(** X26: the ledger of the repository never throws; it answers with
    [Math.min(limit, 5)] transactions (none when that is not positive),
    each sent by the address asked for to an address that starts with
    [0x], the one at index [j] in block [12345678 - j]. *)
Theorem Mock_fetch_page address limit w :
  exists txs w',
    Mock._fetchAddressTransactions World Math_random Date_now toString16
      toFixed4 address limit w = (Some txs, w') /\
    List.length txs = Z.to_nat (Z.min limit 5) /\
    forall j tx, txs !! j = Some tx ->
      tx_from tx = Some address /\
      (exists t, tx_to tx = Some ("0x" +:+ t)) /\
      tx_blockNumber tx = Some (12345678 - Z.of_nat j).
Proof.
  unfold Mock._fetchAddressTransactions.
  pose proof (Mock_transactions_fields address (Z.to_nat (Z.min limit 5)) 0 w)
    as Hpage.
  destruct (Mock.transactions _ _ _ _ _ address _ 0 w) as [txs w'].
  simpl in Hpage. by exists txs, w'.
Qed.

Lemma Mock_own_pages :
  own_pages World fetch.
Proof.
  intros a w txs w' Hfetch. unfold Mock._fetchAddressTransactions in Hfetch.
  pose proof (Mock_transactions_fields a (Z.to_nat (Z.min 1 5)) 0 w) as Hpage.
  destruct (Mock.transactions _ _ _ _ _ a _ 0 w) as [txs0 w0].
  injection Hfetch as <- <-. simpl in Hpage. destruct Hpage as [Hlen Hfields].
  split; [by rewrite Hlen|]. intros tx Hin.
  apply list_elem_of_In, list_elem_of_lookup in Hin as [j Hj].
  by apply Hfields in Hj as (? & _).
Qed.

(** X27: over the ledger of the repository the tracer follows a single
    chain: [traceFromAddress] returns no more nodes than the depth bound
    and no more than two edges for each node, and [tracePath] returns at
    most one path. *)
Theorem tracer_over_repository_ledger :
  (forall address options now w,
     truthy_string address = true ->
     exists fg w',
       traceFromAddress toLowerCase World fetch parseFloat config
         address options now w = Some (Ok fg, w') /\
       Z.of_nat (List.length (fg_nodes fg))
       <= Z.max 0 (or_Z (opt_depth options) (maxDepth config)) /\
       Z.of_nat (List.length (fg_edges fg))
       <= 2 * Z.of_nat (List.length (fg_nodes fg))) /\
  (forall fromAddress toAddress w,
     truthy_string fromAddress = true -> truthy_string toAddress = true ->
     exists r w',
       tracePath toLowerCase World fetch config fromAddress toAddress w
       = Some (Ok r, w') /\
       (List.length (pr_paths r) <= 1)%nat /\ pr_pathCount r <= 1).
Proof.
  split.
  - intros address options now w Haddress.
    destruct (traceFromAddress_total toLowerCase World fetch parseFloat config
                address options now w Haddress) as (fg & w' & Hrun).
    exists fg, w'. split; [done|].
    eapply traceFromAddress_chain_run; [apply Mock_own_pages|done].
  - intros fromAddress toAddress w Hfrom Hto.
    destruct (tracePath_total toLowerCase World fetch config
                fromAddress toAddress w Hfrom Hto) as (r & w' & Hrun).
    exists r, w'. split; [done|].
    eapply tracePath_single_run; [|done].
    intros a w0 txs w0' Hfetch. by apply Mock_own_pages in Hfetch as [? _].
Qed.

(** X28: over the ledger of the repository the Flow Aggregator of a
    non-empty address finds every fetched transaction outgoing: [outgoing]
    is the whole page, [transactionCount] is [Math.min(depth, 5)] (0 when
    that is negative), and [netFlow] is set. *)
Theorem getAddressFlow_over_repository_ledger address depth w :
  truthy_string address = true ->
  exists txs w',
    fetch address depth w = (Some txs, w') /\
    let flow := fst (_getAddressFlow toLowerCase World fetch parseFloat
                       address depth w) in
    outgoing flow = txs /\
    transactionCount flow = Z.max 0 (Z.min depth 5) /\
    netFlow flow = Some (PrimFloat.sub (totalIn flow) (totalOut flow)).
Proof.
  intros Haddress.
  pose proof (Mock_transactions_fields address (Z.to_nat (Z.min depth 5)) 0 w)
    as Hpage.
  assert (exists txs w',
            fetch address depth w = (Some txs, w') /\
            List.length txs = Z.to_nat (Z.min depth 5) /\
            forall j tx, txs !! j = Some tx -> tx_from tx = Some address)
    as (txs & w' & Hfetch & Hlen & Hfields).
  { unfold Mock._fetchAddressTransactions.
    destruct (Mock.transactions _ _ _ _ _ address _ 0 w) as [txs w'].
    simpl in Hpage. destruct Hpage as [Hlen Hfields].
    exists txs, w'. split; [done|]. split; [done|].
    intros j tx Hj. by apply Hfields in Hj as (? & _). }
  exists txs, w'. split; [done|].
  unfold _getAddressFlow. rewrite Hfetch.
  rewrite flow_step_fold. cbn [fst outgoing transactionCount netFlow totalIn totalOut app].
  split; [|split; [lia|done]].
  apply forallb_filter_id, forallb_forall. intros tx Hin.
  apply list_elem_of_In, list_elem_of_lookup in Hin as [j Hj].
  apply Hfields in Hj as ->. unfold matches.
  by rewrite Haddress, String.eqb_refl.
Qed.

End Repository.

(** * The tracer on examples *)

Module Run.
Import Fixture.

(** C1, on the code: the seed [0xab] pays [0xAB], the same address up to
    case; the graph has a node for each spelling. *)
Lemma traceFromAddress_case_variants :
  exists fg w',
    traceFromAddress lower nat (ledger case_table) parse_value default_config
      "0xab" (mkOptions (Some 2) None) now 0%nat = Some (Ok fg, w') /\
    fg_nodes fg = [mkNode "0xab" 0 origin; mkNode "0xAB" 1 intermediary] /\
    lower "0xab" = lower "0xAB".
Proof. eexists _, _. split; [vm_compute; reflexivity|]. by split. Qed.

(** C2, on the code: the fetch for [b] throws; the summary has empty
    lists and zero totals, and no [netFlow] at all. *)
Lemma getAddressFlow_fetch_failure_run :
  _getAddressFlow lower nat (ledger fork_table) parse_value b 2 0%nat
  = (mkFlow b [] [] 0%float 0%float 0 None, 1%nat).
Proof. reflexivity. Qed.

(** The graph of [fork_table], and the paths of [path_table]. *)
Example fork_run :
  traceFromAddress lower nat (ledger fork_table) parse_value default_config
    a (mkOptions (Some 2) None) now 0%nat = Some (Ok fork_graph, 3%nat).
Proof. vm_compute. reflexivity. Qed.

Example path_run :
  tracePath lower nat (ledger path_table) default_config a c 0%nat
  = Some (Ok path_result, 2%nat).
Proof. vm_compute. reflexivity. Qed.

(** The path cap on [path_table], and on a search that is at the cap. *)
Lemma tracePath_path_cap_witness :
  (exists r w',
     tracePath lower nat (ledger path_table) default_config a c 0%nat
       = Some (Ok r, w') /\
     Z.of_nat (List.length (pr_paths r)) <= maxPaths /\
     pr_pathCount r = Z.of_nat (List.length (pr_paths r))) /\
  _findPaths lower nat (ledger path_table) default_config 1 a c [a]
    (mkSearch nat ∅ (repeat [a] 10) 0%nat) 0 5
  = Some (mkSearch nat ∅ (repeat [a] 10) 0%nat).
Proof.
  split.
  - apply (proj1 (tracePath_path_cap lower nat (ledger path_table) default_config)
             a c 0%nat); reflexivity.
  - apply (proj2 (proj2 (tracePath_path_cap lower nat (ledger path_table)
                           default_config))).
    vm_compute. discriminate.
Defined.

(** The paths of [path_table] from [a] to [c] are simple. *)
Lemma tracePath_paths_simple_witness :
  exists r w',
    tracePath lower nat (ledger path_table) default_config a c 0%nat
      = Some (Ok r, w') /\
    forall p, In p (pr_paths r) -> NoDup (map lower p).
Proof.
  apply (tracePath_paths_simple lower nat (ledger path_table) default_config
           a c 0%nat); reflexivity.
Defined.

(** The depths and kinds of the graph of [fork_table]. *)
Lemma traceFromAddress_depth_bound_witness :
  exists fg w',
    traceFromAddress lower nat (ledger fork_table) parse_value default_config
      a (mkOptions (Some 2) None) now 0%nat = Some (Ok fg, w') /\
    (forall n, In n (fg_nodes fg) ->
       0 <= node_depth n < 2 /\
       (node_address n = a -> node_depth n = 0 /\ node_type n = origin) /\
       (node_address n <> a -> node_type n = intermediary)) /\
    (0 < 2 -> In (mkNode a 0 origin) (fg_nodes fg)).
Proof.
  apply (traceFromAddress_depth_bound lower nat (ledger fork_table) parse_value
           default_config a (mkOptions (Some 2) None) now 0%nat).
  reflexivity.
Defined.

(** The graph of [fork_table] under the direction [out]. *)
Lemma traceFromAddress_direction_filter_witness :
  exists fg w' g' events,
    traceFromAddress lower nat (ledger fork_table) parse_value default_config
      a (mkOptions (Some 2) (Some "out")) now 0%nat = Some (Ok fg, w') /\
    fg = _formatGraph parse_value g' /\
    _traceRecursive_events lower nat (ledger fork_table) default_config
      (trace_fuel 2) a
      ((empty_graph default_config a (mkOptions (Some 2) (Some "out")) now,
        0%nat), []) 0 2 "out" = Some ((g', w'), events) /\
    g' = replay events
           (empty_graph default_config a (mkOptions (Some 2) (Some "out")) now) /\
    ("out" = "out" ->
       (forall before a0 tx e after,
          events = before ++ Appended a0 tx e :: after ->
          leaves lower a0 tx e /\
          lower (edge_from e) = lower a0 /\
          NodeMap.has
            (nodes (replay before
                      (empty_graph default_config a
                         (mkOptions (Some 2) (Some "out")) now))) a0 = true) /\
       anchored lower edge_from (fg_nodes fg) (fg_edges fg)) /\
    ("out" = "in" ->
       (forall before a0 tx e after,
          events = before ++ Appended a0 tx e :: after ->
          arrives lower a0 tx e /\
          lower (edge_to e) = lower a0 /\
          NodeMap.has
            (nodes (replay before
                      (empty_graph default_config a
                         (mkOptions (Some 2) (Some "out")) now))) a0 = true) /\
       anchored lower edge_to (fg_nodes fg) (fg_edges fg)).
Proof.
  apply (traceFromAddress_direction_filter lower nat (ledger fork_table)
           parse_value default_config a (mkOptions (Some 2) (Some "out")) now
           0%nat).
  reflexivity.
Defined.

(** Under [out] the call on [b] appends nothing for the transfer which
    only arrives at [b]; under [both] it appends the edge a second time. *)
Example echo_events_out :
  option_map snd
    (_traceRecursive_events lower nat (ledger echo_table) default_config
       (trace_fuel 2) a
       ((empty_graph default_config a (mkOptions (Some 2) (Some "out")) now,
         0%nat), []) 0 2 "out") =
  Some [Inserted a (mkNode a 0 origin);
        Appended a (transfer "0x01" a b) (edge_of a b (transfer "0x01" a b));
        Inserted b (mkNode b 1 intermediary)].
Proof. reflexivity. Qed.

Example echo_events_both :
  option_map snd
    (_traceRecursive_events lower nat (ledger echo_table) default_config
       (trace_fuel 2) a
       ((empty_graph default_config a (mkOptions (Some 2) (Some "both")) now,
         0%nat), []) 0 2 "both") =
  Some [Inserted a (mkNode a 0 origin);
        Appended a (transfer "0x01" a b) (edge_of a b (transfer "0x01" a b));
        Inserted b (mkNode b 1 intermediary);
        Appended b (transfer "0x01" a b) (edge_of a b (transfer "0x01" a b))].
Proof. reflexivity. Qed.

(** In [fork_table] the node of [b] is inserted between the two appends of
    the call on [a]. *)
Example fork_events_out :
  option_map snd
    (_traceRecursive_events lower nat (ledger fork_table) default_config
       (trace_fuel 2) a
       ((empty_graph default_config a (mkOptions (Some 2) (Some "out")) now,
         0%nat), []) 0 2 "out") =
  Some [Inserted a (mkNode a 0 origin);
        Appended a (transfer "0x01" a b) (edge_of a b (transfer "0x01" a b));
        Inserted b (mkNode b 1 intermediary);
        Appended a (transfer "0x02" a c) (edge_of a c (transfer "0x02" a c));
        Inserted c (mkNode c 1 intermediary)].
Proof. reflexivity. Qed.


(** The format [xml] is refused, the format [csv] is not. *)
Lemma exportGraph_unsupported_format_witness :
  exportGraph number_text fork_graph (Some "xml")
  = Err "Unsupported format: xml" /\
  exists text, exportGraph number_text fork_graph (Some "csv") = Ok text.
Proof.
  split.
  - apply (proj2 (proj2 (exportGraph_unsupported_format number_text fork_graph "xml"))).
    intros [H|[H|H]]; discriminate H.
  - apply (proj1 (proj2 (exportGraph_unsupported_format number_text fork_graph "csv"))).
    right. right. reflexivity.
Defined.

(** [fork_graph] written as Json and read back. *)
Lemma exportGraph_json_round_trip_witness :
  exists text parsed,
    exportGraph number_text fork_graph (Some "json") = Ok text /\
    Json.parse text = Some parsed /\
    Read.nodes parsed = Some (fg_nodes fork_graph) /\
    Read.edges parsed = Some (fg_edges fork_graph).
Proof.
  apply (exportGraph_json_round_trip number_text fork_graph).
  intros _. vm_compute. reflexivity.
Defined.

(** To depth 1, [fork_table] gives the edge from [a] to [b] and no node
    for [b]. *)
Lemma traceFromAddress_edge_without_node_witness :
  exists fg w',
    traceFromAddress lower nat (ledger fork_table) parse_value default_config
      a (mkOptions (Some 1) (Some "out")) now 0%nat = Some (Ok fg, w') /\
    In (edge_of a b (transfer "0x01" a b)) (fg_edges fg) /\
    fg_nodes fg = [mkNode a 0 origin] /\
    ~ (exists n, In n (fg_nodes fg) /\ node_address n = b).
Proof.
  apply (traceFromAddress_edge_without_node lower nat (ledger fork_table)
           parse_value default_config a (transfer "0x01" a b)
           [transfer "0x02" a c] a b now 0%nat 1%nat).
  - reflexivity.
  - reflexivity.
  - vm_compute. discriminate.
  - reflexivity.
  - reflexivity.
  - reflexivity.
  - reflexivity.
  - discriminate.
Defined.

(** ** More examples *)

(** A negative depth: the empty graph, and no fetch. *)
Lemma traceFromAddress_no_depth_witness :
  traceFromAddress lower nat (ledger fork_table) parse_value default_config
    a (mkOptions (Some (-1)) None) now 0%nat
  = Some (Ok (mkFormattedGraph [] [] a (mkMetadata "ethereum" (-1) now)
                (mkSummary 0 0 0%float)),
          0%nat).
Proof.
  apply (traceFromAddress_no_depth lower nat (ledger fork_table) parse_value
           default_config a (mkOptions (Some (-1)) None) now 0%nat).
  - reflexivity.
  - vm_compute. discriminate.
Defined.

(** The direction [sideways]: the seed alone, after one fetch. *)
Lemma traceFromAddress_unknown_direction_witness :
  exists fg,
    traceFromAddress lower nat (ledger fork_table) parse_value default_config
      a (mkOptions (Some 2) (Some "sideways")) now 0%nat
    = Some (Ok fg, 1%nat) /\
    fg_nodes fg = [mkNode a 0 origin] /\ fg_edges fg = [].
Proof.
  apply (traceFromAddress_unknown_direction lower nat (ledger fork_table)
           parse_value default_config a (mkOptions (Some 2) (Some "sideways"))
           now 0%nat).
  - reflexivity.
  - reflexivity.
  - intros H. vm_compute in H. discriminate H.
  - intros H. vm_compute in H. discriminate H.
  - intros H. vm_compute in H. discriminate H.
Defined.

(** The summary and the metadata of the graph of [fork_table]. *)
Lemma traceFromAddress_summary_witness :
  exists fg w',
    traceFromAddress lower nat (ledger fork_table) parse_value default_config
      a (mkOptions (Some 2) None) now 0%nat = Some (Ok fg, w') /\
    nodeCount (fg_summary fg) = Z.of_nat (List.length (fg_nodes fg)) /\
    edgeCount (fg_summary fg) = Z.of_nat (List.length (fg_edges fg)) /\
    totalValue (fg_summary fg)
    = fold_left
        (fun sum edge => PrimFloat.add sum (or_zero (parse_value (edge_value edge))))
        (fg_edges fg) 0%float /\
    fg_startAddress fg = a /\
    fg_metadata fg = mkMetadata "ethereum" 2 now.
Proof.
  apply (traceFromAddress_summary lower nat (ledger fork_table) parse_value
           default_config a (mkOptions (Some 2) None) now 0%nat).
  reflexivity.
Defined.

(** The edges of the graph of [fork_table] against its nodes. *)
Lemma traceFromAddress_edge_bound_witness :
  exists fg w',
    traceFromAddress lower nat (ledger fork_table) parse_value default_config
      a (mkOptions (Some 2) None) now 0%nat = Some (Ok fg, w') /\
    Z.of_nat (List.length (fg_edges fg))
    <= 2 * 10 * Z.of_nat (List.length (fg_nodes fg)) /\
    ("both" <> "both" ->
     Z.of_nat (List.length (fg_edges fg))
     <= 10 * Z.of_nat (List.length (fg_nodes fg))).
Proof.
  apply (traceFromAddress_edge_bound lower nat (ledger fork_table) parse_value
           default_config a (mkOptions (Some 2) None) now 0%nat).
  - reflexivity.
  - vm_compute. discriminate.
Defined.

(** The nodes of the graph of [fork_table] below the seed. *)
Lemma traceFromAddress_nodes_hang_witness :
  exists fg w',
    traceFromAddress lower nat (ledger fork_table) parse_value default_config
      a (mkOptions (Some 2) None) now 0%nat = Some (Ok fg, w') /\
    forall n, In n (fg_nodes fg) -> 1 <= node_depth n ->
      hangs lower (fg_nodes fg) (fg_edges fg) (node_address n) (node_depth n).
Proof.
  apply (traceFromAddress_nodes_hang lower nat (ledger fork_table) parse_value
           default_config a (mkOptions (Some 2) None) now 0%nat).
  reflexivity.
Defined.

(** The ends and the lengths of the paths of [path_table]. *)
Lemma tracePath_ends_witness :
  exists r w',
    tracePath lower nat (ledger path_table) default_config a c 0%nat
    = Some (Ok r, w') /\
    forall p, In p (pr_paths r) ->
      (exists rest, p = a :: rest) /\
      lower (List.last p a) = lower c /\ (List.length p <= 5)%nat.
Proof.
  apply (tracePath_ends lower nat (ledger path_table) default_config a c 0%nat);
    reflexivity.
Defined.

(** The paths of [path_table] follow its transfers. *)
Lemma tracePath_follows_transfers_witness :
  exists r w',
    tracePath lower nat (ledger path_table) default_config a c 0%nat
    = Some (Ok r, w') /\
    forall p, In p (pr_paths r) ->
      chained lower nat (ledger path_table) default_config p.
Proof.
  apply (tracePath_follows_transfers lower nat (ledger path_table)
           default_config a c 0%nat); reflexivity.
Defined.

(** From [0xA1] to [0xa1]: the path of the start alone, and no fetch. *)
Lemma tracePath_same_address_witness :
  tracePath lower nat (ledger path_table) default_config "0xA1" a 0%nat
  = Some (Ok (mkPathResult "0xA1" a [["0xA1"]] 1 "ethereum"), 0%nat).
Proof.
  apply (tracePath_same_address lower nat (ledger path_table) default_config
           "0xA1" a 0%nat); reflexivity.
Defined.

(** The flow of [a] over [fork_table]: two transfers out, none in. *)
Lemma getAddressFlow_lists_witness :
  _getAddressFlow lower nat (ledger fork_table) parse_value a 2 0%nat
  = (mkFlow a [] [transfer "0x01" a b; transfer "0x02" a c]
       0%float 3%float 2 (Some (-3)%float),
     1%nat).
Proof.
  apply (getAddressFlow_lists lower nat (ledger fork_table) parse_value a 2
           0%nat [transfer "0x01" a b; transfer "0x02" a c] 1%nat).
  reflexivity.
Defined.

(** The transaction trace over [fork_table], where the two fixed ends have
    no transactions. *)
Example traceTransaction_run :
  traceTransaction lower nat (ledger fork_table) parse_value default_config
    "0xfeed" 1700000000000 0%nat
  = (Ok (mkTransactionGraph
           (mkTrace "0xfeed" "0x1111111111111111111111111111111111111111"
              "0x2222222222222222222222222222222222222222" "1.5" 1700000000000
              "success" "ethereum" 12345678 21000 "0.001")
           (mkFlow "0x1111111111111111111111111111111111111111" [] []
              0%float 0%float 0 (Some 0%float))
           (mkFlow "0x2222222222222222222222222222222222222222" [] []
              0%float 0%float 0 (Some 0%float))),
     2%nat).
Proof. vm_compute. reflexivity. Qed.

(** Two graphs with the edges of [fork_graph] and the same CSV text. *)
Lemma exportGraph_csv_injective_witness :
  exportGraph number_text fork_graph (Some "csv")
  = exportGraph number_text fork_edges (Some "csv")
  <-> fg_edges fork_graph = fg_edges fork_edges.
Proof.
  apply (exportGraph_csv_injective number_text fork_graph fork_edges);
    reflexivity.
Defined.

(** [x,y] to [z] and [x] to [y,z] are one row. *)
Lemma exportGraph_csv_no_quoting_witness :
  exportGraph number_text comma_from (Some "csv")
  = exportGraph number_text comma_to (Some "csv").
Proof.
  apply (exportGraph_csv_no_quoting number_text comma_from comma_to
           "x" "y" "z" "1.5" "0x01" 1700000000000); reflexivity.
Defined.

(** On [command_line] the second [--depth] counts, [--verbose] and the
    last [--output] take no value. *)
Lemma parseOptions_lookup_witness :
  parseOptions command_line !! "depth" = Some "4" /\
  parseOptions command_line !! "verbose" = None /\
  parseOptions command_line !! "output" = None.
Proof.
  split; [|split].
  - apply (proj2 (parseOptions_lookup command_line "depth") 5%nat "4").
    + discriminate.
    + repeat split.
    + intros [|[|[|[|[|[|[|[|j]]]]]]]] value Hj [Hflag _];
        try lia; discriminate Hflag.
  - apply (proj1 (parseOptions_lookup command_line "verbose")). right.
    intros [|[|[|[|[|[|[|[|i]]]]]]]] value (Hflag & Hvalue & His);
      try discriminate Hflag.
    injection Hvalue as <-. discriminate His.
  - apply (proj1 (parseOptions_lookup command_line "output")). right.
    intros [|[|[|[|[|[|[|[|i]]]]]]]] value (Hflag & Hvalue & His);
      try discriminate Hflag.
    discriminate Hvalue.
Defined.

(** [option_pairs] written out and read back. *)
Lemma parseOptions_flags_witness :
  parseOptions (flags option_pairs) = list_to_map (rev option_pairs).
Proof. apply (parseOptions_flags option_pairs). reflexivity. Defined.

(** Over [repository_ledger] at most one path leaves [a]. *)
Lemma tracePath_single_path_witness :
  exists r w',
    tracePath lower nat repository_ledger default_config a "0x8" 0%nat
    = Some (Ok r, w') /\
    (List.length (pr_paths r) <= 1)%nat /\ pr_pathCount r <= 1.
Proof.
  apply (tracePath_single_path lower nat repository_ledger default_config
           a "0x8" 0%nat).
  - reflexivity.
  - reflexivity.
  - intros x w txs w' Hfetch.
    apply (Mock_own_pages nat random clock hex fixed) in Hfetch.
    exact (proj1 Hfetch).
Defined.

(** Over [repository_ledger] the graph of [a] to depth 3 is a chain. *)
Lemma traceFromAddress_chain_witness :
  exists fg w',
    traceFromAddress lower nat repository_ledger parse_value default_config
      a (mkOptions (Some 3) None) now 0%nat = Some (Ok fg, w') /\
    Z.of_nat (List.length (fg_nodes fg)) <= Z.max 0 3 /\
    Z.of_nat (List.length (fg_edges fg))
    <= 2 * Z.of_nat (List.length (fg_nodes fg)).
Proof.
  apply (traceFromAddress_chain lower nat repository_ledger parse_value
           default_config a (mkOptions (Some 3) None) now 0%nat).
  - reflexivity.
  - apply (Mock_own_pages nat random clock hex fixed).
Defined.

(** The requests of the trace of [fork_table]: [a], [b] and [c]. *)
Lemma traceFromAddress_requests_witness :
  exists fg w',
    traceFromAddress lower nat (ledger fork_table) parse_value default_config
      a (mkOptions (Some 2) None) now 0%nat = Some (Ok fg, w') /\
    traceFromAddress lower (nat * list (string * Z)) (logged (ledger fork_table))
      parse_value default_config a (mkOptions (Some 2) None) now (0%nat, [])
    = Some (Ok fg, (w', map (fun n => (node_address n, 1)) (fg_nodes fg))).
Proof.
  apply (traceFromAddress_requests lower nat (ledger fork_table) parse_value
           default_config a (mkOptions (Some 2) None) now 0%nat).
  reflexivity.
Defined.

Example requests_run :
  traceFromAddress lower (nat * list (string * Z)) (logged (ledger fork_table))
    parse_value default_config a (mkOptions (Some 2) None) now (0%nat, [])
  = Some (Ok fork_graph, (3%nat, [(a, 1); (b, 1); (c, 1)])).
Proof. vm_compute. reflexivity. Qed.

(** The flow of [a] over [repository_ledger], asked with depth 2. *)
Lemma getAddressFlow_over_repository_ledger_witness :
  exists txs w',
    repository_ledger a 2 0%nat = (Some txs, w') /\
    let flow := fst (_getAddressFlow lower nat repository_ledger parse_value
                       a 2 0%nat) in
    outgoing flow = txs /\
    transactionCount flow = Z.max 0 (Z.min 2 5) /\
    netFlow flow = Some (PrimFloat.sub (totalIn flow) (totalOut flow)).
Proof.
  apply (getAddressFlow_over_repository_ledger lower nat random clock hex fixed
           parse_value a 2 0%nat).
  reflexivity.
Defined.

(** [fork_graph] with other depths, hashes and timestamps has the DOT
    text of [fork_graph]. *)
Lemma exportGraph_dot_keeps_witness :
  exportGraph number_text fork_graph (Some "dot")
  = exportGraph number_text fork_shifted (Some "dot").
Proof.
  apply (exportGraph_dot_keeps number_text fork_graph fork_shifted);
    reflexivity.
Defined.

(** The edges of the graph of [fork_table] copy its transfers. *)
Lemma traceFromAddress_edges_copied_witness :
  exists fg w',
    traceFromAddress lower nat (ledger fork_table) parse_value default_config
      a (mkOptions (Some 2) None) now 0%nat = Some (Ok fg, w') /\
    forall e, In e (fg_edges fg) ->
      exists n, In n (fg_nodes fg) /\
        copies nat (ledger fork_table) default_config (node_address n) e.
Proof.
  apply (traceFromAddress_edges_copied lower nat (ledger fork_table)
           parse_value default_config a (mkOptions (Some 2) None) now 0%nat).
  reflexivity.
Defined.

(** The nodes of the graph of [fork_table]: [a] first, and none twice. *)
Lemma traceFromAddress_nodes_distinct_witness :
  exists fg w',
    traceFromAddress lower nat (ledger fork_table) parse_value default_config
      a (mkOptions (Some 2) None) now 0%nat = Some (Ok fg, w') /\
    NoDup (map node_address (fg_nodes fg)) /\
    (0 < 2 -> exists rest, fg_nodes fg = mkNode a 0 origin :: rest).
Proof.
  apply (traceFromAddress_nodes_distinct lower nat (ledger fork_table)
           parse_value default_config a (mkOptions (Some 2) None) now 0%nat).
  reflexivity.
Defined.

(** The graph of [fork_table] to depth 2 has at most 1 + 20 nodes. *)
Lemma traceFromAddress_node_bound_witness :
  exists fg w',
    traceFromAddress lower nat (ledger fork_table) parse_value default_config
      a (mkOptions (Some 2) None) now 0%nat = Some (Ok fg, w') /\
    Z.of_nat (List.length (fg_nodes fg)) <= 21 /\
    ("both" <> "both" -> Z.of_nat (List.length (fg_nodes fg)) <= 11).
Proof.
  apply (traceFromAddress_node_bound lower nat (ledger fork_table) parse_value
           default_config a (mkOptions (Some 2) None) now 0%nat).
  - reflexivity.
  - vm_compute. discriminate.
Defined.

(** The requests of the path search of [path_table]: no more than 781. *)
Lemma tracePath_requests_witness :
  exists r w' log,
    tracePath lower (nat * list (string * Z)) (logged (ledger path_table))
      default_config a c (0%nat, []) = Some (Ok r, (w', log)) /\
    Forall (fun request => snd request = 1) log /\
    Z.of_nat (List.length log) <= 781.
Proof.
  apply (tracePath_requests lower nat (ledger path_table) default_config
           a c 0%nat).
  - reflexivity.
  - reflexivity.
  - vm_compute. discriminate.
Defined.

End Run.
